(** * Flying-LoRa: the LoRa link protocol and the mesh routing layer

    A shallow embedding of [lora_protocol.py] (class [LoRaProtocolHandler])
    and [mesh_network.py] (class [MeshNetworkManager]), and the properties
    the specification states about them.

    Conventions of the embedding:
    - Python [bytes] are [list byte]; a Python [str] is a [string] holding
      the UTF-8 encoding of the text, so [str.encode()] is the conversion to
      [list byte] and [bytes.decode()] checks UTF-8 well-formedness;
    - Python [float]s (time stamps, snr, edge weights) are rationals [Q];
    - methods are state-passing functions on the record of the object's
      fields; a Python exception is the [Raise] outcome, and the state at the
      moment of the exception is returned with it;
    - calls to [time.time()], the generated message id and the success of
      [serial.write] are inputs of the function that makes the call;
    - the log lines of the link layer are left out; the mesh layer records
      the lines that report an event. *)

From Stdlib Require Import ZArith QArith Qabs Strings.String Strings.Byte List Lia.
From stdpp Require Import gmap strings list fin_maps.
Close Scope Q_scope.

(** ** Exceptions and outcomes *)

Inductive exn :=
| TypeError | KeyError | IndexError | QueueEmpty | SerialException
| UnicodeDecodeError | NetworkXNoPath | NodeNotFound | NetworkXError.

Inductive outcome (A : Type) :=
| Return (a : A)
| Raise (e : exn).
Arguments Return {A} a.
Arguments Raise {A} e.

(** ** Bytes, UTF-8 and CRC-32 *)

Definition str_encode (message : string) : list byte := list_byte_of_string message.

Definition is_cont (b : byte) : bool :=
  let n := Byte.to_N b in (128 <=? n)%N && (n <=? 191)%N.

Definition in_range (lo hi : N) (b : byte) : bool :=
  let n := Byte.to_N b in (lo <=? n)%N && (n <=? hi)%N.

(** Well-formed UTF-8 (Unicode table 3-7), what [bytes.decode()] accepts. *)
Fixpoint utf8_valid (bs : list byte) : bool :=
  match bs with
  | [] => true
  | b0 :: r0 =>
    let n := Byte.to_N b0 in
    if (n <? 128)%N then utf8_valid r0
    else if in_range 194 223 b0 then
      match r0 with
      | b1 :: r1 => is_cont b1 && utf8_valid r1
      | _ => false
      end
    else if in_range 224 239 b0 then
      match r0 with
      | b1 :: b2 :: r2 =>
        (if (n =? 224)%N then in_range 160 191 b1
         else if (n =? 237)%N then in_range 128 159 b1
         else is_cont b1)
        && is_cont b2 && utf8_valid r2
      | _ => false
      end
    else if in_range 240 244 b0 then
      match r0 with
      | b1 :: b2 :: b3 :: r3 =>
        (if (n =? 240)%N then in_range 144 191 b1
         else if (n =? 244)%N then in_range 128 143 b1
         else is_cont b1)
        && is_cont b2 && is_cont b3 && utf8_valid r3
      | _ => false
      end
    else false
  end.

Definition bytes_decode (bs : list byte) : outcome string :=
  if utf8_valid bs then Return (string_of_list_byte bs) else Raise UnicodeDecodeError.

(** [zlib.crc32]: the IEEE 802.3 CRC, reflected polynomial 0xEDB88320. *)
Definition crc32_bit (c : Z) : Z :=
  if Z.testbit c 0 then Z.lxor (Z.shiftr c 1) 0xEDB88320%Z else Z.shiftr c 1.

Definition crc32_byte (c : Z) (b : byte) : Z :=
  Nat.iter 8 crc32_bit (Z.lxor c (Z.of_N (Byte.to_N b))).

Definition crc32 (bs : list byte) : Z :=
  Z.lxor (fold_left crc32_byte bs 0xFFFFFFFF%Z) 0xFFFFFFFF%Z.

(** ** Packets *)

Inductive MessagePriority := HIGH | MEDIUM | LOW.

Definition value (p : MessagePriority) : Z :=
  match p with HIGH => 1 | MEDIUM => 2 | LOW => 3 end%Z.

Definition priority_eqb (a b : MessagePriority) : bool :=
  (value a =? value b)%Z.

Record LoRaPacket := {
  message_id : string;
  fragment_id : Z;
  total_fragments : Z;
  priority : MessagePriority;
  payload : list byte;
  crc : Z;
  rssi : Z;
  snr : Q;
  timestamp : Q
}.

Fixpoint bytes_eqb (a b : list byte) : bool :=
  match a, b with
  | [], [] => true
  | x :: a', y :: b' => Byte.eqb x y && bytes_eqb a' b'
  | _, _ => false
  end.

(** The [__eq__] the dataclass decorator generates: field by field. *)
Definition packet_eqb (a b : LoRaPacket) : bool :=
  String.eqb (message_id a) (message_id b)
  && (fragment_id a =? fragment_id b)%Z
  && (total_fragments a =? total_fragments b)%Z
  && priority_eqb (priority a) (priority b)
  && bytes_eqb (payload a) (payload b)
  && (crc a =? crc b)%Z
  && (rssi a =? rssi b)%Z
  && Qeq_bool (snr a) (snr b)
  && Qeq_bool (timestamp a) (timestamp b).

(** ** [queue.PriorityQueue]: a binary heap of [(priority.value, packet)]

    The queue is [heapq] on a list (CPython's [_heapq], which swaps in
    place, so the list is what it is when a comparison raises). Entries are
    compared as Python tuples: the first differing component decides;
    [LoRaPacket] has [__eq__] but no [__lt__], so ordering two unequal
    packets raises [TypeError]. *)

Definition item : Type := Z * LoRaPacket.

Definition item_lt (a b : item) : outcome bool :=
  if (fst a =? fst b)%Z then
    if packet_eqb (snd a) (snd b) then Return false else Raise TypeError
  else Return (fst a <? fst b)%Z.

Definition swap (i j : nat) (heap : list item) : list item :=
  match heap !! i, heap !! j with
  | Some a, Some b => <[i := b]> (<[j := a]> heap)
  | _, _ => heap
  end.

Fixpoint _siftdown_loop (fuel : nat) (heap : list item) (startpos pos : nat)
    : outcome unit * list item :=
  match fuel with
  | O => (Return tt, heap)
  | S fuel' =>
    if startpos <? pos then
      let parentpos := (pos - 1) / 2 in
      match heap !! pos, heap !! parentpos with
      | Some newitem, Some parent =>
        match item_lt newitem parent with
        | Raise e => (Raise e, heap)
        | Return false => (Return tt, heap)
        | Return true =>
          _siftdown_loop fuel' (swap pos parentpos heap) startpos parentpos
        end
      | _, _ => (Raise IndexError, heap)
      end
    else (Return tt, heap)
  end.

Definition _siftdown (heap : list item) (startpos pos : nat)
    : outcome unit * list item :=
  _siftdown_loop (S pos) heap startpos pos.

(** The child that moves up: the left one unless the right one is not
    larger ([childpos += cmp ^ 1]). *)
Definition smaller_child (heap : list item) (childpos : nat) : outcome nat :=
  if childpos + 1 <? length heap then
    match heap !! childpos, heap !! (childpos + 1) with
    | Some c, Some r =>
      match item_lt c r with
      | Raise e => Raise e
      | Return true => Return childpos
      | Return false => Return (childpos + 1)
      end
    | _, _ => Raise IndexError
    end
  else Return childpos.

Fixpoint _siftup_loop (fuel : nat) (heap : list item) (startpos pos : nat)
    : outcome unit * list item :=
  match fuel with
  | O => _siftdown heap startpos pos
  | S fuel' =>
    if pos <? length heap / 2 then
      match smaller_child heap (2 * pos + 1) with
      | Raise e => (Raise e, heap)
      | Return childpos =>
        _siftup_loop fuel' (swap childpos pos heap) startpos childpos
      end
    else _siftdown heap startpos pos
  end.

Definition _siftup (heap : list item) (pos : nat) : outcome unit * list item :=
  _siftup_loop (length heap) heap pos pos.

(** [heappush]: append, then sift; the appended entry stays in the list
    when the sift raises. *)
Definition heappush (heap : list item) (x : item) : outcome unit * list item :=
  _siftdown (heap ++ [x]) 0 (length heap).

Definition heappop (heap : list item) : outcome item * list item :=
  match last heap with
  | None => (Raise IndexError, heap)
  | Some lastelt =>
    match take (length heap - 1) heap with
    | [] => (Return lastelt, [])
    | returnitem :: rest =>
      match _siftup (lastelt :: rest) 0 with
      | (Raise e, heap') => (Raise e, heap')
      | (Return _, heap') => (Return returnitem, heap')
      end
    end
  end.

Definition put (q : list item) (x : item) : outcome unit * list item :=
  heappush q x.

Definition q_empty (q : list item) : bool :=
  match q with [] => true | _ => false end.

Definition get_nowait (q : list item) : outcome item * list item :=
  if q_empty q then (Raise QueueEmpty, q) else heappop q.

(** ** Insertion-ordered dictionaries ([pending_acks] is iterated) *)

Section odict.
Context {V : Type}.

Fixpoint od_get (k : string) (d : list (string * V)) : option V :=
  match d with
  | [] => None
  | (k', v) :: d' => if String.eqb k' k then Some v else od_get k d'
  end.

Fixpoint od_set (k : string) (v : V) (d : list (string * V)) : list (string * V) :=
  match d with
  | [] => [(k, v)]
  | (k', v') :: d' =>
    if String.eqb k' k then (k', v) :: d' else (k', v') :: od_set k v d'
  end.

Fixpoint od_del (k : string) (d : list (string * V)) : list (string * V) :=
  match d with
  | [] => []
  | (k', v') :: d' =>
    if String.eqb k' k then d' else (k', v') :: od_del k d'
  end.
End odict.

(** ** The state of [LoRaProtocolHandler] *)

Record SendQueues := {
  q_high : list item;
  q_medium : list item;
  q_low : list item
}.

Definition queue_of (p : MessagePriority) (qs : SendQueues) : list item :=
  match p with HIGH => q_high qs | MEDIUM => q_medium qs | LOW => q_low qs end.

Definition set_queue (p : MessagePriority) (q : list item) (qs : SendQueues) : SendQueues :=
  match p with
  | HIGH => {| q_high := q; q_medium := q_medium qs; q_low := q_low qs |}
  | MEDIUM => {| q_high := q_high qs; q_medium := q; q_low := q_low qs |}
  | LOW => {| q_high := q_high qs; q_medium := q_medium qs; q_low := q |}
  end.

Record SignalStats := {
  stats_rssi : list Z;
  stats_snr : list Q;
  packet_loss : nat;
  retransmissions : nat
}.

(** One line written to the serial port: the [packet_data] dict of
    [_send_packet] (the payload is kept as bytes, not as its hex text). *)
Record WireFrame := {
  w_id : string;
  w_frag : Z;
  w_total : Z;
  w_priority : Z;
  w_payload : list byte;
  w_crc : Z
}.

Record LoRaProtocolHandler := {
  send_queue : SendQueues;
  receive_queue : list string;
  serial_out : list WireFrame;
  pending_acks : list (string * Q);
  received_fragments : gmap string (gmap Z LoRaPacket);
  message_buffer : gmap string string;
  signal_stats : SignalStats
}.

Definition with_queue (p : MessagePriority) (q : list item)
    (h : LoRaProtocolHandler) : LoRaProtocolHandler :=
  {| send_queue := set_queue p q (send_queue h);
     receive_queue := receive_queue h;
     serial_out := serial_out h;
     pending_acks := pending_acks h;
     received_fragments := received_fragments h;
     message_buffer := message_buffer h;
     signal_stats := signal_stats h |}.

Definition with_receive_queue (r : list string)
    (h : LoRaProtocolHandler) : LoRaProtocolHandler :=
  {| send_queue := send_queue h;
     receive_queue := r;
     serial_out := serial_out h;
     pending_acks := pending_acks h;
     received_fragments := received_fragments h;
     message_buffer := message_buffer h;
     signal_stats := signal_stats h |}.

Definition with_serial_out (o : list WireFrame)
    (h : LoRaProtocolHandler) : LoRaProtocolHandler :=
  {| send_queue := send_queue h;
     receive_queue := receive_queue h;
     serial_out := o;
     pending_acks := pending_acks h;
     received_fragments := received_fragments h;
     message_buffer := message_buffer h;
     signal_stats := signal_stats h |}.

Definition with_pending_acks (a : list (string * Q))
    (h : LoRaProtocolHandler) : LoRaProtocolHandler :=
  {| send_queue := send_queue h;
     receive_queue := receive_queue h;
     serial_out := serial_out h;
     pending_acks := a;
     received_fragments := received_fragments h;
     message_buffer := message_buffer h;
     signal_stats := signal_stats h |}.

Definition with_received_fragments (f : gmap string (gmap Z LoRaPacket))
    (h : LoRaProtocolHandler) : LoRaProtocolHandler :=
  {| send_queue := send_queue h;
     receive_queue := receive_queue h;
     serial_out := serial_out h;
     pending_acks := pending_acks h;
     received_fragments := f;
     message_buffer := message_buffer h;
     signal_stats := signal_stats h |}.

Definition with_message_buffer (b : gmap string string)
    (h : LoRaProtocolHandler) : LoRaProtocolHandler :=
  {| send_queue := send_queue h;
     receive_queue := receive_queue h;
     serial_out := serial_out h;
     pending_acks := pending_acks h;
     received_fragments := received_fragments h;
     message_buffer := b;
     signal_stats := signal_stats h |}.

Definition with_signal_stats (s : SignalStats)
    (h : LoRaProtocolHandler) : LoRaProtocolHandler :=
  {| send_queue := send_queue h;
     receive_queue := receive_queue h;
     serial_out := serial_out h;
     pending_acks := pending_acks h;
     received_fragments := received_fragments h;
     message_buffer := message_buffer h;
     signal_stats := s |}.

(** [LoRaProtocolHandler.__init__] *)
Definition init_handler : LoRaProtocolHandler :=
  {| send_queue := {| q_high := []; q_medium := []; q_low := [] |};
     receive_queue := [];
     serial_out := [];
     pending_acks := [];
     received_fragments := ∅;
     message_buffer := ∅;
     signal_stats :=
       {| stats_rssi := []; stats_snr := []; packet_loss := 0; retransmissions := 0 |} |}.

Definition MAX_PACKET_SIZE : nat := 230.
Definition HEADER_SIZE : nat := 20.
Definition RETRY_LIMIT : nat := 3.
Definition ACK_TIMEOUT : Q := 2.

(** ** Sending *)

(** What a call of [send_message] reads from its environment: the id
    [f"{time.time()}_{hash(message) & 0xFFFFFFFF}"] and the clock value
    stamped on the i-th fragment. *)
Record CallEnv := {
  env_id : string;
  env_clock : nat -> Q
}.

Definition _fragment_message (clock : nat -> Q) (message_id : string)
    (message : string) : list LoRaPacket :=
  let data := str_encode message in
  let payload_size := MAX_PACKET_SIZE - HEADER_SIZE in
  let total_fragments := (length data + payload_size - 1) / payload_size in
  map (fun i =>
         let start := i * payload_size in
         let fragment := take payload_size (drop start data) in
         {| message_id := message_id;
            fragment_id := Z.of_nat i;
            total_fragments := Z.of_nat total_fragments;
            priority := MEDIUM;
            payload := fragment;
            crc := crc32 fragment;
            rssi := 0;
            snr := 0;
            timestamp := clock i |})
      (seq 0 total_fragments).

(** The loop [for fragment in fragments: self.send_queue[priority].put(...)]. *)
Fixpoint put_fragments (priority : MessagePriority) (fragments : list LoRaPacket)
    (h : LoRaProtocolHandler) : outcome unit * LoRaProtocolHandler :=
  match fragments with
  | [] => (Return tt, h)
  | fragment :: rest =>
    match put (queue_of priority (send_queue h)) (value priority, fragment) with
    | (Raise e, q) => (Raise e, with_queue priority q h)
    | (Return _, q) => put_fragments priority rest (with_queue priority q h)
    end
  end.

Definition send_message (env : CallEnv) (message : string)
    (priority : MessagePriority) (h : LoRaProtocolHandler)
    : outcome string * LoRaProtocolHandler :=
  let message_id := env_id env in
  let fragments := _fragment_message (env_clock env) message_id message in
  let h1 := with_message_buffer (<[message_id := message]> (message_buffer h)) h in
  match put_fragments priority fragments h1 with
  | (Raise e, h2) => (Raise e, h2)
  | (Return _, h2) => (Return message_id, h2)
  end.

Definition frame_of (packet : LoRaPacket) : WireFrame :=
  {| w_id := message_id packet;
     w_frag := fragment_id packet;
     w_total := total_fragments packet;
     w_priority := value (priority packet);
     w_payload := payload packet;
     w_crc := crc packet |}.

(** [_send_packet]: [radio_ok] says whether [serial.write] succeeds; when
    it raises, the handler puts the packet back on the queue of the packet's
    own [priority] field. *)
Definition _send_packet (now : Q) (radio_ok : bool) (packet : LoRaPacket)
    (h : LoRaProtocolHandler) : outcome unit * LoRaProtocolHandler :=
  if radio_ok then
    (Return tt,
     with_pending_acks (od_set (message_id packet) now (pending_acks h))
       (with_serial_out (serial_out h ++ [frame_of packet]) h))
  else
    let p := priority packet in
    match put (queue_of p (send_queue h)) (value p, packet) with
    | (r, q) => (r, with_queue p q h)
    end.

(** ** Retransmission sweep *)

(** [current_time - timestamp > self.ACK_TIMEOUT] *)
Definition timed_out (current_time timestamp : Q) : bool :=
  negb (Qle_bool (current_time - timestamp) ACK_TIMEOUT).

Definition bump_retransmissions (h : LoRaProtocolHandler) : LoRaProtocolHandler :=
  let s := signal_stats h in
  with_signal_stats
    {| stats_rssi := stats_rssi s; stats_snr := stats_snr s;
       packet_loss := packet_loss s; retransmissions := retransmissions s + 1 |} h.

(** [del self.pending_acks[message_id]] *)
Definition del_pending (message_id : string) (h : LoRaProtocolHandler)
    : outcome unit * LoRaProtocolHandler :=
  match od_get message_id (pending_acks h) with
  | None => (Raise KeyError, h)
  | Some _ => (Return tt, with_pending_acks (od_del message_id (pending_acks h)) h)
  end.

(** The body of the sweep for one entry of the snapshot
    [list(self.pending_acks.items())]; [envs message_id] is the environment
    of the [send_message] call that retransmits [message_id]. *)
Definition check_entry (current_time : Q) (envs : string -> CallEnv)
    (entry : string * Q) (h : LoRaProtocolHandler)
    : outcome unit * LoRaProtocolHandler :=
  let '(message_id, timestamp) := entry in
  if timed_out current_time timestamp then
    match message_buffer h !! message_id with
    | Some message =>
      match send_message (envs message_id) message HIGH (bump_retransmissions h) with
      | (Raise e, h1) => (Raise e, h1)
      | (Return _, h1) => del_pending message_id h1
      end
    | None => del_pending message_id h
    end
  else (Return tt, h).

Fixpoint check_entries (current_time : Q) (envs : string -> CallEnv)
    (items : list (string * Q)) (h : LoRaProtocolHandler)
    : outcome unit * LoRaProtocolHandler :=
  match items with
  | [] => (Return tt, h)
  | entry :: rest =>
    match check_entry current_time envs entry h with
    | (Raise e, h1) => (Raise e, h1)
    | (Return _, h1) => check_entries current_time envs rest h1
    end
  end.

Definition _check_pending_acks (current_time : Q) (envs : string -> CallEnv)
    (h : LoRaProtocolHandler) : outcome unit * LoRaProtocolHandler :=
  check_entries current_time envs (pending_acks h) h.

(** ** The sender loop *)

Record IterEnv := {
  sweep_now : Q;
  resend_env : string -> CallEnv;
  tx_now : Q;
  radio_ok : bool
}.

(** [for priority in MessagePriority: if not self.send_queue[priority].empty()] *)
Definition first_nonempty (qs : SendQueues) : option MessagePriority :=
  if negb (q_empty (q_high qs)) then Some HIGH
  else if negb (q_empty (q_medium qs)) then Some MEDIUM
  else if negb (q_empty (q_low qs)) then Some LOW
  else None.

(** The [try] block of one iteration of [_send_loop]. *)
Definition send_loop_try (env : IterEnv) (h : LoRaProtocolHandler)
    : outcome unit * LoRaProtocolHandler :=
  match _check_pending_acks (sweep_now env) (resend_env env) h with
  | (Raise e, h1) => (Raise e, h1)
  | (Return _, h1) =>
    match first_nonempty (send_queue h1) with
    | None => (Return tt, h1)
    | Some p =>
      match get_nowait (queue_of p (send_queue h1)) with
      | (Raise e, q) => (Raise e, with_queue p q h1)
      | (Return (_, packet), q) =>
        _send_packet (tx_now env) (radio_ok env) packet (with_queue p q h1)
      end
    end
  end.

(** One iteration of [_send_loop]: an exception is logged and dropped. *)
Definition _send_loop (env : IterEnv) (h : LoRaProtocolHandler) : LoRaProtocolHandler :=
  snd (send_loop_try env h).

(** ** Receiving *)

Definition priority_of_value (v : Z) : option MessagePriority :=
  if (v =? 1)%Z then Some HIGH
  else if (v =? 2)%Z then Some MEDIUM
  else if (v =? 3)%Z then Some LOW
  else None.

(** [_parse_packet] on a line that is a JSON object with the six keys;
    [rssi] and [snr] are the optional keys, [now] the reception time. *)
Definition _parse_packet (f : WireFrame) (rssi_opt : option Z) (snr_opt : option Q)
    (now : Q) : option LoRaPacket :=
  match priority_of_value (w_priority f) with
  | None => None
  | Some p =>
    Some {| message_id := w_id f;
            fragment_id := w_frag f;
            total_fragments := w_total f;
            priority := p;
            payload := w_payload f;
            crc := w_crc f;
            rssi := default 0%Z rssi_opt;
            snr := default 0%Q snr_opt;
            timestamp := now |}
  end.

(** [[fragments[i].payload for i in range(len(fragments))]] *)
Fixpoint ordered_payloads (fragments : gmap Z LoRaPacket) (idx : list nat)
    : outcome (list (list byte)) :=
  match idx with
  | [] => Return []
  | i :: rest =>
    match fragments !! Z.of_nat i with
    | None => Raise KeyError
    | Some p =>
      match ordered_payloads fragments rest with
      | Raise e => Raise e
      | Return l => Return (payload p :: l)
      end
    end
  end.

(** The [try] block of [_reassemble_message]. *)
Definition reassemble_try (message_id : string) (h : LoRaProtocolHandler)
    : outcome unit * LoRaProtocolHandler :=
  match received_fragments h !! message_id with
  | None => (Raise KeyError, h)
  | Some fragments =>
    match ordered_payloads fragments (seq 0 (size fragments)) with
    | Raise e => (Raise e, h)
    | Return ordered_fragments =>
      match bytes_decode (concat ordered_fragments) with
      | Raise e => (Raise e, h)
      | Return message =>
        (Return tt,
         with_received_fragments (delete message_id (received_fragments h))
           (with_receive_queue (receive_queue h ++ [message]) h))
      end
    end
  end.

Definition _reassemble_message (message_id : string) (h : LoRaProtocolHandler)
    : LoRaProtocolHandler :=
  snd (reassemble_try message_id h).

(** [l[-100:]] *)
Definition last100 {A} (l : list A) : list A := drop (length l - 100) l.

Definition record_signal (r : Z) (s : Q) (st : SignalStats) : SignalStats :=
  let rs := stats_rssi st ++ [r] in
  let ss := stats_snr st ++ [s] in
  if 100 <? length rs then
    {| stats_rssi := last100 rs; stats_snr := last100 ss;
       packet_loss := packet_loss st; retransmissions := retransmissions st |}
  else
    {| stats_rssi := rs; stats_snr := ss;
       packet_loss := packet_loss st; retransmissions := retransmissions st |}.

Definition bump_packet_loss (h : LoRaProtocolHandler) : LoRaProtocolHandler :=
  let s := signal_stats h in
  with_signal_stats
    {| stats_rssi := stats_rssi s; stats_snr := stats_snr s;
       packet_loss := packet_loss s + 1; retransmissions := retransmissions s |} h.

Definition _handle_packet (packet : LoRaPacket) (h : LoRaProtocolHandler)
    : LoRaProtocolHandler :=
  if negb (crc32 (payload packet) =? crc packet)%Z then bump_packet_loss h
  else
    let h1 := with_signal_stats
                (record_signal (rssi packet) (snr packet) (signal_stats h)) h in
    match od_get (message_id packet) (pending_acks h1) with
    | Some _ =>
      with_pending_acks (od_del (message_id packet) (pending_acks h1)) h1
    | None =>
      let buf := default ∅ (received_fragments h1 !! message_id packet) in
      let buf' := <[fragment_id packet := packet]> buf in
      let h2 := with_received_fragments
                  (<[message_id packet := buf']> (received_fragments h1)) h1 in
      if (Z.of_nat (size buf') =? total_fragments packet)%Z
      then _reassemble_message (message_id packet) h2
      else h2
    end.

Definition receive_message (h : LoRaProtocolHandler)
    : option string * LoRaProtocolHandler :=
  match receive_queue h with
  | [] => (None, h)
  | m :: r => (Some m, with_receive_queue r h)
  end.

(** [get_signal_quality]: [None] is the empty dict; the averages are
    [sum(...) / len(...)]. *)
Definition Qsum (l : list Q) : Q := fold_right Qplus 0%Q l.

Definition get_signal_quality (h : LoRaProtocolHandler) : option (Q * Q * nat * nat) :=
  let s := signal_stats h in
  match stats_rssi s with
  | [] => None
  | _ =>
    Some (Qsum (map inject_Z (stats_rssi s)) / inject_Z (Z.of_nat (length (stats_rssi s))),
          Qsum (stats_snr s) / inject_Z (Z.of_nat (length (stats_snr s))),
          packet_loss s, retransmissions s)%Q
  end.

(** * The mesh layer: [mesh_network.py] *)

Record Node := {
  n_id : string;
  last_seen : Q;
  n_rssi : Q;
  n_snr : Q;
  hop_count : nat;
  battery_level : Q;
  n_is_gateway : bool
}.

(** ** [networkx.Graph]: the adjacency dict of dicts, with the [weight]
    attribute of each edge *)

Abbreviation Graph := (gmap string (gmap string Q)).

Definition add_node (n : string) (G : Graph) : Graph :=
  match G !! n with
  | Some _ => G
  | None => <[n := ∅]> G
  end.

Definition add_edge (u v : string) (weight : Q) (G : Graph) : Graph :=
  let G1 := add_node v (add_node u G) in
  alter (insert u weight) v (alter (insert v weight) u G1).

(** [remove_node]: drop [n] from the adjacency of each of its neighbours,
    then drop its own adjacency. *)
Definition remove_node (n : string) (G : Graph) : outcome Graph :=
  match G !! n with
  | None => Raise NetworkXError
  | Some nbrs =>
    Return (delete n
              (map_imap (fun u adj =>
                           Some (if decide (is_Some (nbrs !! u))
                                 then delete n adj else adj)) G))
  end.

Definition neighbors (G : Graph) (u : string) : gset string :=
  dom (default ∅ (G !! u)).

(** Breadth-first search by levels: [frontier] holds the nodes at distance
    [d] from the source. *)
Fixpoint bfs (fuel : nat) (G : Graph) (visited frontier : gset string)
    (target : string) (d : nat) : option nat :=
  if decide (target ∈ frontier) then Some d
  else
    match fuel with
    | O => None
    | S fuel' =>
      let next := ⋃ (map (neighbors G) (elements frontier)) ∖ visited in
      if decide (next = ∅) then None
      else bfs fuel' G (visited ∪ next) next target (S d)
    end.

(** [nx.shortest_path_length(G, source, target)] without weights: the
    number of edges of a shortest path. *)
Definition shortest_path_length (G : Graph) (source target : string) : outcome nat :=
  if decide (source ∈ dom G ∧ target ∈ dom G) then
    match bfs (size G) G {[source]} {[source]} target 0 with
    | Some d => Return d
    | None => Raise NetworkXNoPath
    end
  else Raise NodeNotFound.

(** A walk of the graph: consecutive nodes are adjacent. *)
Fixpoint is_walk (G : Graph) (p : list string) : Prop :=
  match p with
  | a :: (b :: _) as r => is_Some (G !! a ≫= (.!! b)) ∧ is_walk G r
  | _ => True
  end.

(** What this development uses of [nx.shortest_path(G, source, target,
    weight='weight')]: it raises only [NodeNotFound] (an endpoint is not in
    the graph) or [NetworkXNoPath], and a path it returns is a walk of the
    graph from [source] to [target]. Which of several paths of least weight
    is returned is left open. *)
Definition shortest_path_contract
    (sp : Graph -> string -> string -> outcome (list string)) : Prop :=
  ∀ G s t,
    match sp G s t with
    | Return p => head p = Some s ∧ last p = Some t ∧ is_walk G p
    | Raise e => (e = NodeNotFound ∧ ¬ (s ∈ dom G ∧ t ∈ dom G)) ∨ e = NetworkXNoPath
    end.

(** A reference implementation: the least-weight simple path, found by
    enumeration (the first one in enumeration order among equals). *)
Fixpoint simple_paths (fuel : nat) (G : Graph) (visited : gset string)
    (u t : string) : list (list string * Q) :=
  if decide (u = t) then [([t], 0%Q)]
  else
    match fuel with
    | O => []
    | S fuel' =>
      concat (map (fun vw : string * Q =>
                     if decide (fst vw ∈ visited) then []
                     else map (fun pc : list string * Q =>
                                 (u :: fst pc, (snd vw + snd pc)%Q))
                              (simple_paths fuel' G (visited ∪ {[fst vw]}) (fst vw) t))
                  (map_to_list (default ∅ (G !! u))))
    end.

Fixpoint min_path (l : list (list string * Q)) : option (list string * Q) :=
  match l with
  | [] => None
  | x :: r =>
    match min_path r with
    | None => Some x
    | Some y => if Qle_bool (snd x) (snd y) then Some x else Some y
    end
  end.

Definition least_weight_path (G : Graph) (source target : string)
    : outcome (list string) :=
  if decide (source ∈ dom G ∧ target ∈ dom G) then
    match min_path (simple_paths (size G) G {[source]} source target) with
    | Some pc => Return (fst pc)
    | None => Raise NetworkXNoPath
    end
  else Raise NodeNotFound.

(** ** The state of [MeshNetworkManager] *)

Record Stats := {
  messages_forwarded : nat;
  route_updates : nat;
  active_nodes : Z;
  total_bandwidth : nat
}.

(** The log lines of the mesh layer that carry an event. *)
Inductive LogLine :=
| LogReceived (source payload : string)
| LogNoRoute (destination : string)
| LogRoutingFailed (e : exn)
| LogNodeRemoved (node : string).

Record MeshNetworkManager := {
  node_id : string;
  is_gateway : bool;
  lora : LoRaProtocolHandler;
  nodes : gmap string Node;
  routing_table : gmap string string;
  network_graph : Graph;
  stats : Stats;
  log : list LogLine
}.

Definition with_lora (l : LoRaProtocolHandler) (m : MeshNetworkManager) :=
  {| node_id := node_id m; is_gateway := is_gateway m; lora := l;
     nodes := nodes m; routing_table := routing_table m;
     network_graph := network_graph m; stats := stats m; log := log m |}.

Definition with_nodes (n : gmap string Node) (m : MeshNetworkManager) :=
  {| node_id := node_id m; is_gateway := is_gateway m; lora := lora m;
     nodes := n; routing_table := routing_table m;
     network_graph := network_graph m; stats := stats m; log := log m |}.

Definition with_routing_table (t : gmap string string) (m : MeshNetworkManager) :=
  {| node_id := node_id m; is_gateway := is_gateway m; lora := lora m;
     nodes := nodes m; routing_table := t;
     network_graph := network_graph m; stats := stats m; log := log m |}.

Definition with_network_graph (G : Graph) (m : MeshNetworkManager) :=
  {| node_id := node_id m; is_gateway := is_gateway m; lora := lora m;
     nodes := nodes m; routing_table := routing_table m;
     network_graph := G; stats := stats m; log := log m |}.

Definition with_stats (s : Stats) (m : MeshNetworkManager) :=
  {| node_id := node_id m; is_gateway := is_gateway m; lora := lora m;
     nodes := nodes m; routing_table := routing_table m;
     network_graph := network_graph m; stats := s; log := log m |}.

Definition with_log (l : list LogLine) (m : MeshNetworkManager) :=
  {| node_id := node_id m; is_gateway := is_gateway m; lora := lora m;
     nodes := nodes m; routing_table := routing_table m;
     network_graph := network_graph m; stats := stats m; log := l |}.

(** [MeshNetworkManager.__init__] *)
Definition init_mesh (node_id : string) (is_gateway : bool) : MeshNetworkManager :=
  {| node_id := node_id; is_gateway := is_gateway; lora := init_handler;
     nodes := ∅; routing_table := ∅; network_graph := ∅;
     stats := {| messages_forwarded := 0; route_updates := 0;
                 active_nodes := 0; total_bandwidth := 0 |};
     log := [] |}.

Definition NODE_TIMEOUT : Q := 180.
Definition MAX_HOPS : nat := 5.

(** The DATA envelope: the dict with keys [type], [source], [destination],
    [next_hop], [payload]. *)
Record DataMsg := {
  d_source : string;
  d_destination : string;
  d_next_hop : string;
  d_payload : string
}.

Definition set_next_hop (next_hop : string) (data : DataMsg) : DataMsg :=
  {| d_source := d_source data; d_destination := d_destination data;
     d_next_hop := next_hop; d_payload := d_payload data |}.

Definition bump_route_updates (s : Stats) : Stats :=
  {| messages_forwarded := messages_forwarded s;
     route_updates := route_updates s + 1;
     active_nodes := active_nodes s;
     total_bandwidth := total_bandwidth s |}.

Definition count_forward (bytes : nat) (s : Stats) : Stats :=
  {| messages_forwarded := messages_forwarded s + 1;
     route_updates := route_updates s;
     active_nodes := active_nodes s;
     total_bandwidth := total_bandwidth s + bytes |}.

Definition count_bandwidth (bytes : nat) (s : Stats) : Stats :=
  {| messages_forwarded := messages_forwarded s;
     route_updates := route_updates s;
     active_nodes := active_nodes s;
     total_bandwidth := total_bandwidth s + bytes |}.

Section Mesh.
(** [nx.shortest_path] with [weight='weight'], and [json.dumps] on the
    two dicts the layer serialises. *)
Variable shortest_path : Graph -> string -> string -> outcome (list string).
Variable dumps_data : DataMsg -> string.
Variable dumps_route_update : string -> list (string * string) -> Q -> string.

(** The loop of [_update_routing_table] over [self.nodes]. *)
Fixpoint build_routes (G : Graph) (self : string) (dests : list string)
    (new_routing_table : gmap string string) : outcome (gmap string string) :=
  match dests with
  | [] => Return new_routing_table
  | dest_id :: rest =>
    if String.eqb dest_id self then build_routes G self rest new_routing_table
    else
      match shortest_path G self dest_id with
      | Return path =>
        if length path <=? MAX_HOPS then
          match path !! 1 with
          | Some next_hop =>
            build_routes G self rest (<[dest_id := next_hop]> new_routing_table)
          | None => Raise IndexError
          end
        else build_routes G self rest new_routing_table
      | Raise NetworkXNoPath => build_routes G self rest new_routing_table
      | Raise e => Raise e
      end
  end.

(** [_update_routing_table]; [env] and [now] are read by the broadcast. *)
Definition _update_routing_table (env : CallEnv) (now : Q)
    (m : MeshNetworkManager) : MeshNetworkManager :=
  match build_routes (network_graph m) (node_id m)
          (map fst (map_to_list (nodes m))) ∅ with
  | Raise e => with_log (log m ++ [LogRoutingFailed e]) m
  | Return new_routing_table =>
    if decide (new_routing_table = routing_table m) then m
    else
      let m1 := with_stats (bump_route_updates (stats m))
                  (with_routing_table new_routing_table m) in
      let update := dumps_route_update (node_id m)
                      (map_to_list new_routing_table) now in
      match send_message env update MEDIUM (lora m1) with
      | (Return _, l) => with_lora l m1
      | (Raise e, l) =>
        with_log (log m1 ++ [LogRoutingFailed e]) (with_lora l m1)
      end
  end.

Definition _register_node (env : CallEnv) (now : Q) (node_id : string)
    (node : Node) (m : MeshNetworkManager) : MeshNetworkManager :=
  _update_routing_table env now
    (with_network_graph (add_node node_id (network_graph m))
       (with_nodes (<[node_id := node]> (nodes m)) m)).

Definition _remove_node (env : CallEnv) (now : Q) (node_id : string)
    (m : MeshNetworkManager) : outcome unit * MeshNetworkManager :=
  match nodes m !! node_id with
  | None => (Return tt, m)
  | Some _ =>
    let m1 := with_nodes (delete node_id (nodes m)) m in
    match remove_node node_id (network_graph m1) with
    | Raise e => (Raise e, m1)
    | Return G =>
      let m2 := _update_routing_table env now (with_network_graph G m1) in
      (Return tt, with_log (log m2 ++ [LogNodeRemoved node_id]) m2)
    end
  end.

(** [_handle_discovery]; the message carries [node_id], [is_gateway] and
    [battery_level]. *)
Definition _handle_discovery (env : CallEnv) (now : Q) (sender : string)
    (gateway : bool) (battery : Q) (m : MeshNetworkManager) : MeshNetworkManager :=
  if String.eqb sender (node_id m) then m
  else
    let signal_quality := get_signal_quality (lora m) in
    let node :=
      {| n_id := sender;
         last_seen := now;
         n_rssi := match signal_quality with Some (r, _, _, _) => r | None => 0%Q end;
         n_snr := match signal_quality with Some (_, s, _, _) => s | None => 0%Q end;
         hop_count := 1;
         battery_level := battery;
         n_is_gateway := gateway |} in
    let m1 := _register_node env now sender node m in
    let weight := (1 / (Qabs (n_rssi node) + 1))%Q in
    with_network_graph (add_edge (node_id m1) sender weight (network_graph m1)) m1.

Definition _handle_heartbeat (now : Q) (sender : string)
    (m : MeshNetworkManager) : MeshNetworkManager :=
  match nodes m !! sender with
  | None => m
  | Some n =>
    with_nodes
      (<[sender := {| n_id := n_id n; last_seen := now; n_rssi := n_rssi n;
                      n_snr := n_snr n; hop_count := hop_count n;
                      battery_level := battery_level n;
                      n_is_gateway := n_is_gateway n |}]> (nodes m)) m
  end.

(** The loop of [_handle_route_update] over [data['routes']]. *)
Fixpoint merge_routes (sender : string) (routes : list (string * string))
    (m : MeshNetworkManager) : outcome unit * MeshNetworkManager :=
  match routes with
  | [] => (Return tt, m)
  | (dest, next_hop) :: rest =>
    if negb (String.eqb dest (node_id m)) then
      match shortest_path_length (network_graph m) (node_id m) sender with
      | Raise e => (Raise e, m)
      | Return path_length =>
        if path_length <? MAX_HOPS then
          merge_routes sender rest
            (with_routing_table (<[dest := next_hop]> (routing_table m)) m)
        else merge_routes sender rest m
      end
    else merge_routes sender rest m
  end.

Definition _handle_route_update (sender : string) (routes : list (string * string))
    (m : MeshNetworkManager) : outcome unit * MeshNetworkManager :=
  match nodes m !! sender with
  | Some _ => merge_routes sender routes m
  | None => (Return tt, m)
  end.

Definition _handle_data (env : CallEnv) (data : DataMsg)
    (m : MeshNetworkManager) : outcome unit * MeshNetworkManager :=
  if String.eqb (d_destination data) (node_id m) then
    (Return tt,
     with_log (log m ++ [LogReceived (d_source data) (d_payload data)]) m)
  else if String.eqb (d_next_hop data) (node_id m) then
    match routing_table m !! d_destination data with
    | Some next_hop =>
      let data' := set_next_hop next_hop data in
      match send_message env (dumps_data data') MEDIUM (lora m) with
      | (Raise e, l) => (Raise e, with_lora l m)
      | (Return _, l) =>
        (Return tt,
         with_stats (count_forward (length (str_encode (d_payload data))) (stats m))
           (with_lora l m))
      end
    | None =>
      (Return tt, with_log (log m ++ [LogNoRoute (d_destination data)]) m)
    end
  else (Return tt, m).

(** [MeshNetworkManager.send_message]: [false] is the [return False]. *)
Definition mesh_send_message (env : CallEnv) (destination message : string)
    (priority : MessagePriority) (m : MeshNetworkManager)
    : bool * MeshNetworkManager :=
  match routing_table m !! destination with
  | None => (false, with_log (log m ++ [LogNoRoute destination]) m)
  | Some next_hop =>
    let data := {| d_source := node_id m; d_destination := destination;
                   d_next_hop := next_hop; d_payload := message |} in
    match send_message env (dumps_data data) priority (lora m) with
    | (Raise e, l) => (false, with_lora l m)
    | (Return _, l) =>
      (true, with_stats (count_bandwidth (length (str_encode message)) (stats m))
               (with_lora l m))
    end
  end.
End Mesh.

(** * Concrete inputs used by the examples below *)

(** A text of [n] letters x. *)
Definition xs (n : nat) : string := string_of_list_byte (repeat "x"%byte n).

(** A clock that advances one second per reading. *)
Definition tick (i : nat) : Q := inject_Z (Z.of_nat i).

Definition env_m1 : CallEnv := {| env_id := "m1"; env_clock := tick |}.

(** * Names for the parts of [_fragment_message] *)

Definition payload_size : nat := MAX_PACKET_SIZE - HEADER_SIZE.

Definition fragment_count (message : string) : nat :=
  (length (str_encode message) + payload_size - 1) / payload_size.

Definition chunk (data : list byte) (i : nat) : list byte :=
  take payload_size (drop (i * payload_size) data).

Definition fragment_at (clock : nat -> Q) (message_id message : string)
    (i : nat) : LoRaPacket :=
  {| message_id := message_id;
     fragment_id := Z.of_nat i;
     total_fragments := Z.of_nat (fragment_count message);
     priority := MEDIUM;
     payload := chunk (str_encode message) i;
     crc := crc32 (chunk (str_encode message) i);
     rssi := 0;
     snr := 0;
     timestamp := clock i |}.

(** Every entry of the queue carries the given priority value. *)
Definition queue_wf (p : MessagePriority) (q : list item) : Prop :=
  Forall (λ it, fst it = value p) q.

(** No entry of the queue belongs to the message [mid]. *)
Definition queue_fresh (mid : string) (q : list item) : Prop :=
  Forall (λ it, message_id (snd it) ≠ mid) q.

(** Storing a fragment in a reassembly buffer:
    [received_fragments[message_id][fragment_id] = packet]. *)
Definition store (buf : gmap Z LoRaPacket) (p : LoRaPacket) : gmap Z LoRaPacket :=
  <[fragment_id p := p]> buf.

(** Handling a sequence of received packets, first to last. *)
Definition handle_packets (rx : list LoRaPacket) (h : LoRaProtocolHandler)
    : LoRaProtocolHandler :=
  foldl (λ h p, _handle_packet p h) h rx.

(** A packet as the peer parses it: the radio metadata is the receiver's. *)
Definition received_as (r : Z) (s t : Q) (p : LoRaPacket) : LoRaPacket :=
  {| message_id := message_id p;
     fragment_id := fragment_id p;
     total_fragments := total_fragments p;
     priority := priority p;
     payload := payload p;
     crc := crc p;
     rssi := r;
     snr := s;
     timestamp := t |}.

(** The two frames of a 211-byte message, received last fragment first. *)
Definition rx_211 : list LoRaPacket :=
  [received_as (-60) 7 100 (fragment_at tick "m1" (xs 211) 1);
   received_as (-61) 8 101 (fragment_at tick "m1" (xs 211) 0)].

(** A CRC-valid frame with a given id, index, total and payload. *)
Definition frame_packet (mid : string) (idx total : Z) (text : string) : LoRaPacket :=
  {| message_id := mid;
     fragment_id := idx;
     total_fragments := total;
     priority := MEDIUM;
     payload := str_encode text;
     crc := crc32 (str_encode text);
     rssi := (-70);
     snr := 5;
     timestamp := 10 |}.

(** * Runs of the link engine *)

(** The operations on a handler: a submission, one iteration of the sender
    loop, the reception of a parsed packet. *)
Inductive LinkOp :=
| OpSend (env : CallEnv) (message : string) (priority : MessagePriority)
| OpSendLoop (env : IterEnv)
| OpReceive (packet : LoRaPacket).

Definition run_op (op : LinkOp) (h : LoRaProtocolHandler) : LoRaProtocolHandler :=
  match op with
  | OpSend env message priority => snd (send_message env message priority h)
  | OpSendLoop env => _send_loop env h
  | OpReceive packet => _handle_packet packet h
  end.

Definition run_ops (ops : list LinkOp) (h : LoRaProtocolHandler) : LoRaProtocolHandler :=
  foldl (λ h op, run_op op h) h ops.

(** The operation generates no message id equal to [mid]. *)
Definition op_avoids (mid : string) (op : LinkOp) : Prop :=
  match op with
  | OpSend env _ _ => env_id env ≠ mid
  | OpSendLoop env => ∀ k, env_id (resend_env env k) ≠ mid
  | OpReceive _ => True
  end.

(** No queue holds a fragment of [mid], no tracker is pending for it, and
    no frame of it was written to the radio. *)
Definition untouched (mid : string) (h : LoRaProtocolHandler) : Prop :=
  (∀ p, queue_fresh mid (queue_of p (send_queue h)))
  ∧ od_get mid (pending_acks h) = None
  ∧ Forall (λ f, w_id f ≠ mid) (serial_out h).

(** The message [mid] sits in [message_buffer] and nowhere else. *)
Definition buffered_only (mid msg : string) (h : LoRaProtocolHandler) : Prop :=
  untouched mid h ∧ message_buffer h !! mid = Some msg.

Definition env_of (id : string) : CallEnv := {| env_id := id; env_clock := tick |}.

(** An iteration of the sender loop at time [now] with a working radio;
    a retransmission of [k] gets the id [r_k]. *)
Definition iter_env (now : Q) : IterEnv :=
  {| sweep_now := now;
     resend_env := λ k, env_of ("r_" ++ k);
     tx_now := now;
     radio_ok := true |}.

Definition ops_after_empty : list LinkOp :=
  [OpSendLoop (iter_env 1); OpSend (env_of "m2") "status" HIGH;
   OpSendLoop (iter_env 2); OpReceive (frame_packet "m2" 0 1 "ack");
   OpSendLoop (iter_env 5)].

(** A LOW and a MEDIUM message wait while a producer submits a HIGH
    message before each of six iterations of the sender loop, 10 ms apart. *)
Definition burst_trace : list LinkOp :=
  [OpSend (env_of "L1") "bulk" LOW;
   OpSend (env_of "M1") "telemetry" MEDIUM;
   OpSend (env_of "H1") "c1" HIGH; OpSendLoop (iter_env (1 # 100));
   OpSend (env_of "H2") "c2" HIGH; OpSendLoop (iter_env (2 # 100));
   OpSend (env_of "H3") "c3" HIGH; OpSendLoop (iter_env (3 # 100));
   OpSend (env_of "H4") "c4" HIGH; OpSendLoop (iter_env (4 # 100));
   OpSend (env_of "H5") "c5" HIGH; OpSendLoop (iter_env (5 # 100));
   OpSend (env_of "H6") "c6" HIGH; OpSendLoop (iter_env (6 # 100))].

Definition queued_ids (q : list item) : list string :=
  map (λ it, message_id (snd it)) q.

(** One tracker, last sent at time 0, for the buffered message [hi]. *)
Definition h_pending : LoRaProtocolHandler :=
  with_pending_acks [("m1"%string, 0%Q)]
    (with_message_buffer {[ "m1"%string := "hi"%string ]} init_handler).

(** The keys of the trackers. *)
Definition tracked (h : LoRaProtocolHandler) : list string :=
  map fst (pending_acks h).

(** * Names and inputs for the mesh layer *)

(** The routing table after [_handle_route_update] has gone through
    [routes]: each pair whose destination is not the local node is written,
    later pairs over earlier ones. *)
Definition merged_table (self : string) (routes : list (string * string))
    (t : gmap string string) : gmap string string :=
  foldl (λ t r, if String.eqb (fst r) self then t else <[fst r := snd r]> t) t routes.

(** The graph and the neighbour table agree: the nodes of the graph are
    the known nodes and possibly the local node, adjacency is symmetric and
    no node is its own neighbour. *)
Definition graph_wf (m : MeshNetworkManager) : Prop :=
  (∀ k, k ∈ dom (network_graph m) → k = node_id m ∨ is_Some (nodes m !! k))
  ∧ (∀ k, is_Some (nodes m !! k) → k ∈ dom (network_graph m))
  ∧ (∀ u v, is_Some (network_graph m !! u ≫= (.!! v)) →
            is_Some (network_graph m !! v ≫= (.!! u)))
  ∧ (∀ u, network_graph m !! u ≫= (.!! u) = None).

(** The three properties of the routing table: the local node is no key,
    every next hop is a known node, and every key is the end of a walk from
    the local node with at most [MAX_HOPS] nodes (so at most
    [MAX_HOPS - 1] hops). *)
Definition table_ok (m : MeshNetworkManager) : Prop :=
  routing_table m !! node_id m = None
  ∧ (∀ k v, routing_table m !! k = Some v → is_Some (nodes m !! v))
  ∧ (∀ k v, routing_table m !! k = Some v →
            ∃ p, head p = Some (node_id m) ∧ last p = Some k
                 ∧ is_walk (network_graph m) p ∧ length p ≤ MAX_HOPS).

(** [json.dumps] on a DATA envelope whose strings are printable ASCII. *)
Definition dq : string := String (Ascii.ascii_of_nat 34) EmptyString.

Fixpoint json_escape (s : string) : string :=
  match s with
  | EmptyString => EmptyString
  | String c r =>
    if Ascii.eqb c (Ascii.ascii_of_nat 34) then "\" ++ dq ++ json_escape r
    else if Ascii.eqb c (Ascii.ascii_of_nat 92) then "\\" ++ json_escape r
    else String c (json_escape r)
  end%string.

Definition json_string (s : string) : string := (dq ++ json_escape s ++ dq)%string.

Definition json_data (d : DataMsg) : string :=
  ("{" ++ json_string "type" ++ ": " ++ json_string "data"
   ++ ", " ++ json_string "source" ++ ": " ++ json_string (d_source d)
   ++ ", " ++ json_string "destination" ++ ": " ++ json_string (d_destination d)
   ++ ", " ++ json_string "next_hop" ++ ": " ++ json_string (d_next_hop d)
   ++ ", " ++ json_string "payload" ++ ": " ++ json_string (d_payload d)
   ++ "}")%string.

(** A stand-in for [json.dumps] on the route-update dict, to run examples;
    the theorems hold for every serialiser. *)
Definition update_text (self : string) (routes : list (string * string)) (now : Q)
    : string :=
  ("route_update " ++ self ++ String.concat ";" (map (λ r, fst r ++ ">" ++ snd r) routes))%string.

Definition known (id : string) : Node :=
  {| n_id := id; last_seen := 0; n_rssi := 0; n_snr := 0; hop_count := 1;
     battery_level := 1; n_is_gateway := false |}.

(** Node A with neighbours X and B on links of equal weight, and a route
    to D through B. *)
Definition m_tie : MeshNetworkManager :=
  {| node_id := "A"; is_gateway := false; lora := init_handler;
     nodes := {[ "A" := known "A"; "X" := known "X"; "B" := known "B" ]};
     routing_table := {[ "X" := "X"; "B" := "B"; "D" := "B" ]};
     network_graph := add_edge "A" "B" 1 (add_edge "A" "X" 1 (add_node "A" ∅));
     stats := {| messages_forwarded := 0; route_updates := 0;
                 active_nodes := 0; total_bandwidth := 0 |};
     log := [] |}%string.

(** Node B of the chain A - B - C, with routes to both neighbours. *)
Definition m_relay : MeshNetworkManager :=
  {| node_id := "B"; is_gateway := false; lora := init_handler;
     nodes := {[ "B" := known "B"; "A" := known "A"; "C" := known "C" ]};
     routing_table := {[ "A" := "A"; "C" := "C" ]};
     network_graph := add_edge "B" "C" 1 (add_edge "B" "A" 1 (add_node "B" ∅));
     stats := {| messages_forwarded := 0; route_updates := 0;
                 active_nodes := 0; total_bandwidth := 0 |};
     log := [] |}%string.

(** The DATA envelope of a 600-byte payload from A to C, handed to B. *)
Definition data_600 : DataMsg :=
  {| d_source := "A"; d_destination := "C"; d_next_hop := "B";
     d_payload := xs 600 |}.

(** Node A with neighbours X and B and a route to each. *)
Definition m_star : MeshNetworkManager :=
  with_routing_table {[ "X" := "X"; "B" := "B" ]}%string m_tie.

(** The invalid packet of the unit test [test_crc_validation]. *)
Definition invalid_packet : LoRaPacket :=
  {| message_id := "test_2";
     fragment_id := 0;
     total_fragments := 1;
     priority := MEDIUM;
     payload := str_encode "test data";
     crc := 12345;
     rssi := (-60);
     snr := 10;
     timestamp := 0 |}.

(** * Hop distance, to state what [shortest_path_length] computes *)

Definition adjacent (G : Graph) (u v : string) : Prop :=
  is_Some (G !! u ≫= (.!! v)).

(** [hops G s n v]: some walk of [n] edges leads from [s] to [v]. *)
Inductive hops (G : Graph) (s : string) : nat → string → Prop :=
| hops_0 : hops G s 0 s
| hops_S (n : nat) (u v : string) :
    hops G s n u → adjacent G u v → hops G s (S n) v.

(** Every neighbour is a node of the graph. *)
Definition adjacency_closed (G : Graph) : Prop :=
  ∀ u v, adjacent G u v → v ∈ dom G.

(** The state of the search at level [d]: [visited] holds the nodes within
    [d] hops of the source, and those outside the frontier are within
    fewer hops. *)
Definition bfs_inv (G : Graph) (s : string) (d : nat)
    (visited frontier : gset string) : Prop :=
  (∀ v, v ∈ visited ↔ ∃ k, k ≤ d ∧ hops G s k v)
  ∧ (∀ v, v ∈ visited ∧ v ∉ frontier ↔ ∃ k, k < d ∧ hops G s k v)
  ∧ frontier ⊆ visited.
(** * Further names for the link layer *)

(** The three send queues are empty. *)
Definition queues_idle (h : LoRaProtocolHandler) : Prop :=
  ∀ p, queue_of p (send_queue h) = [].

(** The frames of the packets that pass the CRC check. *)
Definition crc_ok (p : LoRaPacket) : bool := (crc32 (payload p) =? crc p)%Z.

(** Every queued packet carries the priority MEDIUM, and every frame
    written to the radio the priority value 2. *)
Definition all_medium (h : LoRaProtocolHandler) : Prop :=
  (∀ p, Forall (λ it, priority (snd it) = MEDIUM) (queue_of p (send_queue h)))
  ∧ Forall (λ f, w_priority f = 2%Z) (serial_out h).

(** ** Runs of the sender loop *)

(** The sweep of the trackers cannot complete: some tracker has timed out
    and its message is buffered and not empty, while the HIGH queue holds an
    entry. *)
Definition stuck (now : Q) (h : LoRaProtocolHandler) : Prop :=
  q_high (send_queue h) ≠ []
  ∧ ∃ k ts msg, (k, ts) ∈ pending_acks h ∧ timed_out now ts = true
                ∧ message_buffer h !! k = Some msg ∧ str_encode msg ≠ [].

(** Consecutive iterations of [_send_loop]. *)
Definition run_send_loop (its : list IterEnv) (h : LoRaProtocolHandler)
    : LoRaProtocolHandler :=
  foldl (λ h it, _send_loop it h) h its.

(** The clock read by the sweeps does not go back. *)
Fixpoint clock_monotone (now : Q) (its : list IterEnv) : Prop :=
  match its with
  | [] => True
  | it :: rest => (now <= sweep_now it)%Q ∧ clock_monotone (sweep_now it) rest
  end.

(** The message ids generated in different iterations differ. *)
Fixpoint ids_disjoint (its : list IterEnv) : Prop :=
  match its with
  | [] => True
  | it :: rest =>
    (∀ it' k k', it' ∈ rest →
                 env_id (resend_env it k) ≠ env_id (resend_env it' k'))
    ∧ ids_disjoint rest
  end.

(** Two messages were transmitted at times 0 and 1/10 and not
    acknowledged; the sweep at time 3 has retransmitted the first and raised
    on the second. *)
Definition h_two_unacked : LoRaProtocolHandler :=
  run_ops
    [OpSend (env_of "m1") "first" MEDIUM; OpSendLoop (iter_env 0);
     OpSend (env_of "m2") "second" MEDIUM; OpSendLoop (iter_env (1 # 10));
     OpSendLoop (iter_env 3)]
    init_handler.

(** The next iterations, one second apart; a retransmission of [k] in the
    iteration at time [t] gets the id [t_k]. *)
Definition iter_at (t : string) (now : Q) : IterEnv :=
  {| sweep_now := now;
     resend_env := λ k, env_of (t ++ "_" ++ k);
     tx_now := now;
     radio_ok := true |}.

(** A tracker that is alone: the message [msg] is buffered under the id of
    the only tracker and the queues are empty. *)
Definition lone_tracker (k : string) (ts : Q) (msg : string)
    (h : LoRaProtocolHandler) : Prop :=
  pending_acks h = [(k, ts)] ∧ message_buffer h !! k = Some msg ∧ queues_idle h.

(** Each iteration finds the tracker of the transmission before it timed
    out, has a working radio and generates a new id. *)
Fixpoint retransmit_schedule (k : string) (ts : Q) (its : list IterEnv) : Prop :=
  match its with
  | [] => True
  | it :: rest =>
    timed_out (sweep_now it) ts = true ∧ radio_ok it = true
    ∧ env_id (resend_env it k) ≠ k
    ∧ retransmit_schedule (env_id (resend_env it k)) (tx_now it) rest
  end.

(** * The mesh layer: start-up and the cleanup of silent nodes *)

Definition set_active_nodes (n : Z) (s : Stats) : Stats :=
  {| messages_forwarded := messages_forwarded s;
     route_updates := route_updates s;
     active_nodes := n;
     total_bandwidth := total_bandwidth s |}.

(** [current_time - node.last_seen > self.NODE_TIMEOUT and
    node_id != self.node_id] *)
Definition is_inactive (current_time : Q) (self : string) (kn : string * Node) : bool :=
  negb (Qle_bool (current_time - last_seen (snd kn)) NODE_TIMEOUT)
  && negb (String.eqb (fst kn) self).

Definition inactive_nodes (current_time : Q) (m : MeshNetworkManager) : list string :=
  map fst (List.filter (is_inactive current_time (node_id m)) (map_to_list (nodes m))).

Section MeshLoops.
Variable shortest_path : Graph -> string -> string -> outcome (list string).
Variable dumps_route_update : string -> list (string * string) -> Q -> string.

(** [MeshNetworkManager.start] on a manager that is not running: the
    threads are started and the node registers itself; [now] is the clock
    value stored in the node record, [env] and [now_u] are read by the
    rebuild. *)
Definition mesh_start (env : CallEnv) (now now_u : Q) (m : MeshNetworkManager)
    : MeshNetworkManager :=
  _register_node shortest_path dumps_route_update env now_u (node_id m)
    {| n_id := node_id m; last_seen := now; n_rssi := 0; n_snr := 0;
       hop_count := 0; battery_level := 1; n_is_gateway := is_gateway m |} m.

(** The loop [for node_id in inactive_nodes: self._remove_node(node_id)];
    [envs] and [nows] give what the rebuild after each removal reads. *)
Fixpoint remove_nodes (envs : string -> CallEnv) (nows : string -> Q)
    (ids : list string) (m : MeshNetworkManager)
    : outcome unit * MeshNetworkManager :=
  match ids with
  | [] => (Return tt, m)
  | id :: rest =>
    match _remove_node shortest_path dumps_route_update (envs id) (nows id) id m with
    | (Raise e, m1) => (Raise e, m1)
    | (Return _, m1) => remove_nodes envs nows rest m1
    end
  end.

(** The [try] block of one iteration of [_cleanup_loop]. *)
Definition cleanup_try (current_time : Q) (envs : string -> CallEnv)
    (nows : string -> Q) (m : MeshNetworkManager)
    : outcome unit * MeshNetworkManager :=
  let inactive := inactive_nodes current_time m in
  match remove_nodes envs nows inactive m with
  | (Raise e, m1) => (Raise e, m1)
  | (Return _, m1) =>
    (Return tt,
     with_stats
       (set_active_nodes (Z.of_nat (size (nodes m1)) - Z.of_nat (length inactive))
          (stats m1)) m1)
  end.

(** One iteration of [_cleanup_loop]: an exception is logged and dropped. *)
Definition _cleanup_loop (current_time : Q) (envs : string -> CallEnv)
    (nows : string -> Q) (m : MeshNetworkManager) : MeshNetworkManager :=
  snd (cleanup_try current_time envs nows m).
End MeshLoops.

(** Every edge of the graph has the local node at one end. *)
Definition graph_star (m : MeshNetworkManager) : Prop :=
  ∀ u v, adjacent (network_graph m) u v → u = node_id m ∨ v = node_id m.

(** * Runs of the mesh layer *)

(** The events at a running node: the four message handlers, a submission,
    an iteration of the cleanup loop, and an operation of the link layer
    below. *)
Inductive MeshOp :=
| MDiscovery (env : CallEnv) (now : Q) (sender : string) (gateway : bool) (battery : Q)
| MHeartbeat (now : Q) (sender : string)
| MRouteUpdate (sender : string) (routes : list (string * string))
| MData (env : CallEnv) (data : DataMsg)
| MSend (env : CallEnv) (destination message : string) (priority : MessagePriority)
| MCleanup (current_time : Q) (envs : string -> CallEnv) (nows : string -> Q)
| MLink (op : LinkOp).

Section MeshRuns.
Variable shortest_path : Graph -> string -> string -> outcome (list string).
Variable dumps_data : DataMsg -> string.
Variable dumps_route_update : string -> list (string * string) -> Q -> string.

(** An exception of a handler is caught by the loop that called it; the
    state is the one at the raise. *)
Definition run_mesh_op (op : MeshOp) (m : MeshNetworkManager) : MeshNetworkManager :=
  match op with
  | MDiscovery env now sender gateway battery =>
    _handle_discovery shortest_path dumps_route_update env now sender gateway battery m
  | MHeartbeat now sender => _handle_heartbeat now sender m
  | MRouteUpdate sender routes => snd (_handle_route_update sender routes m)
  | MData env data => snd (_handle_data dumps_data env data m)
  | MSend env destination message priority =>
    snd (mesh_send_message dumps_data env destination message priority m)
  | MCleanup current_time envs nows =>
    _cleanup_loop shortest_path dumps_route_update current_time envs nows m
  | MLink op => with_lora (run_op op (lora m)) m
  end.

Definition run_mesh (ops : list MeshOp) (m : MeshNetworkManager) : MeshNetworkManager :=
  foldl (λ m op, run_mesh_op op m) m ops.
End MeshRuns.

(** Every known node other than the local one is a neighbour of the local
    node in the graph. *)
Definition neighbours_linked (m : MeshNetworkManager) : Prop :=
  ∀ k, is_Some (nodes m !! k) → k ≠ node_id m →
       adjacent (network_graph m) (node_id m) k.

(** What holds of the graph at a running node: graph and neighbour table
    agree, the local node is a known node of the graph, every edge has the
    local node at one end, and every other known node has such an edge. *)
Definition mesh_inv (m : MeshNetworkManager) : Prop :=
  graph_wf m
  ∧ node_id m ∈ dom (network_graph m)
  ∧ is_Some (nodes m !! node_id m)
  ∧ graph_star m
  ∧ neighbours_linked m.

(** A path returned by [nx.shortest_path] visits no node twice. *)
Definition shortest_path_simple
    (sp : Graph -> string -> string -> outcome (list string)) : Prop :=
  ∀ G s t p, sp G s t = Return p → NoDup p.

(** * Configuration: [config.py] and the observer of the link handler *)

(** The values of a configuration loaded by [yaml.safe_load]; the keys of
    a mapping are strings, in insertion order and without repetition. *)
#[warnings="-register-all"]
Inductive cfg :=
| CNone
| CBool (b : bool)
| CInt (z : Z)
| CFloat (q : Q)
| CStr (s : string)
| CList (l : list cfg)
| CDict (d : list (string * cfg)).

(** The character [.] *)
Definition dot : Ascii.ascii := Ascii.ascii_of_nat 46.

(** [key.split('.')] *)
Fixpoint split_dot (key : string) : list string :=
  match key with
  | EmptyString => [EmptyString]
  | String c r =>
    if Ascii.eqb c dot then EmptyString :: split_dot r
    else
      match split_dot r with
      | h :: t => String c h :: t
      | [] => [String c EmptyString]
      end
  end.

Definition has_dot (key : string) : bool :=
  existsb (λ c, Ascii.eqb c dot) (list_ascii_of_string key).

Module ConfigManager.

(** [value[k]] with a string [k]: a mapping raises [KeyError] on a missing
    key, every other value raises [TypeError]. *)
Definition subscript (value : cfg) (k : string) : outcome cfg :=
  match value with
  | CDict d =>
    match od_get k d with
    | Some v => Return v
    | None => Raise KeyError
    end
  | _ => Raise TypeError
  end.

(** The loop [for k in key.split('.'): value = value[k]]. *)
Fixpoint walk (value : cfg) (ks : list string) : outcome cfg :=
  match ks with
  | [] => Return value
  | k :: rest =>
    match subscript value k with
    | Return v => walk v rest
    | Raise e => Raise e
    end
  end.

(** [ConfigManager.get(key, default)] on the loaded configuration. *)
Definition get (config : cfg) (key : string) (default : cfg) : outcome cfg :=
  match walk config (split_dot key) with
  | Return value => Return value
  | Raise KeyError => Return default
  | Raise TypeError => Return default
  | Raise e => Raise e
  end.

End ConfigManager.

(** [dict.get(key)]: [None] for a missing key. *)
Definition dict_get (key : string) (d : list (string * cfg)) : cfg :=
  default CNone (od_get key d).

(** The truth value of a configuration value in an [if]. *)
Definition truthy (v : cfg) : bool :=
  match v with
  | CNone => false
  | CBool b => b
  | CInt z => negb (z =? 0)%Z
  | CFloat q => negb (Qeq_bool q 0)
  | CStr s => negb (String.eqb s EmptyString)
  | CList l => match l with [] => false | _ => true end
  | CDict d => match d with [] => false | _ => true end
  end.

(** [v != s] for the string [serial.port], [v != n] for the integer
    [serial.baudrate]. *)
Definition ne_str (v : cfg) (s : string) : bool :=
  match v with
  | CStr t => negb (String.eqb t s)
  | _ => true
  end.

Definition ne_int (v : cfg) (n : Z) : bool :=
  match v with
  | CInt z => negb (z =? n)%Z
  | CBool b => negb ((if b then 1 else 0) =? n)%Z
  | CFloat q => negb (Qeq_bool q (inject_Z n))
  | _ => true
  end.

(** What [_handle_config_change] does to the handler, in order. *)
Inductive ConfigAction :=
| ActStop
| ActSetPort (v : cfg)
| ActSetBaudrate (v : cfg)
| ActStart.

(** [_handle_config_change(new_config)]: [port] and [baudrate] are the
    attributes of [self.serial]; [set_port_ok v] and [set_baud_ok v] say
    whether the assignment of [v] to the attribute returns (the [try] is left
    when it raises, so the handler is not started again). *)
Definition _handle_config_change (set_port_ok set_baud_ok : cfg -> bool)
    (port : string) (baudrate : Z) (new_config : list (string * cfg))
    : list ConfigAction :=
  let new_port := dict_get "hardware.lora.port" new_config in
  let new_baud := dict_get "hardware.lora.baud_rate" new_config in
  let on_baud :=
    if truthy new_baud && ne_int new_baud baudrate then
      if set_baud_ok new_baud then [ActStop; ActSetBaudrate new_baud; ActStart]
      else [ActStop; ActSetBaudrate new_baud]
    else [] in
  if truthy new_port && ne_str new_port port then
    if set_port_ok new_port then [ActStop; ActSetPort new_port; ActStart] ++ on_baud
    else [ActStop; ActSetPort new_port]
  else on_baud.

(** The configuration [_create_default_config] writes, with a given port
    and baud rate (the [debug] flag is read from the environment). *)
Definition default_config (debug : bool) (port : string) (baud_rate : Z)
    : list (string * cfg) :=
  [("server", CDict [("host", CStr "localhost"); ("port", CInt 8000);
                     ("debug", CBool debug)]);
   ("detection", CDict [("model_path", CStr "models/detectnet.onnx");
                        ("confidence_threshold", CFloat (1 # 2));
                        ("max_frame_rate", CInt 30);
                        ("gpu_memory_fraction", CFloat (6 # 10))]);
   ("hardware",
    CDict [("camera", CDict [("width", CInt 1280); ("height", CInt 720);
                             ("fps", CInt 30)]);
           ("lora", CDict [("port", CStr port); ("baud_rate", CInt baud_rate)]);
           ("gpio", CDict [("status_led", CInt 18); ("error_led", CInt 23)])]);
   ("resources", CDict [("cpu_governor", CStr "ondemand");
                        ("gpu_freq_max", CInt 1300500000);
                        ("power_mode", CStr "10W");
                        ("thermal_throttle_temp", CInt 80)]);
   ("logging", CDict [("level", CStr "INFO"); ("file", CStr "logs/flying_lora.log");
                      ("max_size_mb", CInt 100); ("backup_count", CInt 5)])]%string.

(** * Properties of the link layer *)

(** ** The heap *)

Lemma item_lt_same_priority (x y : item) :
  fst x = fst y → packet_eqb (snd x) (snd y) = false →
  item_lt x y = Raise TypeError.
Proof.
  intros Hp He. unfold item_lt. rewrite Hp, Z.eqb_refl, He. reflexivity.
Qed.

Lemma put_empty (x : item) : put [] x = (Return tt, [x]).
Proof. reflexivity. Qed.

(** Putting an entry on a non-empty queue compares it with its parent in
    the heap; when every queued entry has the priority value of the new one
    and an unequal packet, that comparison raises, and the entry stays
    appended. *)
Lemma put_nonempty_raises (q : list item) (x : item) :
  q ≠ [] →
  Forall (λ y, fst x = fst y ∧ packet_eqb (snd x) (snd y) = false) q →
  put q x = (Raise TypeError, q ++ [x]).
Proof.
  intros Hne Hall. unfold put, heappush, _siftdown.
  assert (Hlen : 0 < length q) by (destruct q; simpl; [done | lia]).
  cbn [_siftdown_loop].
  destruct (Nat.ltb_spec 0 (length q)) as [_ | ?]; [| lia].
  rewrite lookup_app_r by lia. rewrite Nat.sub_diag. cbn [lookup list_lookup].
  assert (Hpar : (length q - 1) / 2 < length q).
  { apply Nat.Div0.div_lt_upper_bound. lia. }
  destruct (lookup_lt_is_Some_2 q _ Hpar) as [y Hy].
  rewrite lookup_app_l by lia. rewrite Hy.
  rewrite Forall_forall in Hall.
  destruct (Hall y) as [Hp He].
  { eapply list_elem_of_lookup_2. exact Hy. }
  rewrite (item_lt_same_priority _ _ Hp He). reflexivity.
Qed.

(** ** Fragmentation *)

Lemma fragment_message_unfold clock mid msg :
  _fragment_message clock mid msg
  = map (fragment_at clock mid msg) (seq 0 (fragment_count msg)).
Proof. reflexivity. Qed.

Lemma payload_size_eq : payload_size = 210.
Proof. reflexivity. Qed.

Lemma fragment_count_ge_2 msg :
  length (str_encode msg) > MAX_PACKET_SIZE - HEADER_SIZE → 2 ≤ fragment_count msg.
Proof.
  intros H. unfold fragment_count.
  change (MAX_PACKET_SIZE - HEADER_SIZE) with 210 in H.
  change payload_size with 210.
  apply Nat.div_le_lower_bound; lia.
Qed.

Lemma packet_eqb_message_id a b :
  message_id a ≠ message_id b → packet_eqb a b = false.
Proof.
  intros H. unfold packet_eqb.
  destruct (String.eqb_spec (message_id a) (message_id b)); [done | reflexivity].
Qed.

Lemma packet_eqb_fragment_id a b :
  fragment_id a ≠ fragment_id b → packet_eqb a b = false.
Proof.
  intros H. unfold packet_eqb.
  destruct (Z.eqb_spec (fragment_id a) (fragment_id b)); [done |].
  rewrite andb_false_r. reflexivity.
Qed.

Lemma queue_of_with_queue p q h :
  queue_of p (send_queue (with_queue p q h)) = q.
Proof. destruct p; reflexivity. Qed.

Lemma queue_of_with_queue_ne p p' q h :
  p ≠ p' → queue_of p' (send_queue (with_queue p q h)) = queue_of p' (send_queue h).
Proof. destruct p, p'; intros; try done. Qed.

(** With at least two fragments the loop of puts raises: on the first put
    when the queue holds an entry (of another message), on the second
    otherwise. *)
Lemma put_fragments_multi_raises
    (clock : nat → Q) (mid msg : string) (priority : MessagePriority)
    (h : LoRaProtocolHandler) :
  2 ≤ fragment_count msg →
  queue_wf priority (queue_of priority (send_queue h)) →
  queue_fresh mid (queue_of priority (send_queue h)) →
  ∃ h',
    put_fragments priority (map (fragment_at clock mid msg) (seq 0 (fragment_count msg))) h
    = (Raise TypeError, h')
    ∧ message_buffer h' = message_buffer h
    ∧ (queue_of priority (send_queue h) = [] →
       queue_of priority (send_queue h')
       = [(value priority, fragment_at clock mid msg 0);
          (value priority, fragment_at clock mid msg 1)]).
Proof.
  intros Hn Hwf Hfresh.
  destruct (fragment_count msg) as [|[|n]] eqn:Hcnt; [lia | lia |].
  cbn [seq map put_fragments].
  destruct (queue_of priority (send_queue h)) as [|y q] eqn:Hq.
  - rewrite put_empty. rewrite queue_of_with_queue.
    rewrite put_nonempty_raises.
    + eexists. split; [reflexivity |]. split; [reflexivity |].
      intros _. rewrite queue_of_with_queue. reflexivity.
    + done.
    + constructor; [| constructor]. split; [reflexivity |].
      apply packet_eqb_fragment_id. cbn. lia.
  - rewrite put_nonempty_raises.
    + eexists. split; [reflexivity |]. split; [reflexivity |]. intros [=].
    + done.
    + unfold queue_wf, queue_fresh in *.
      rewrite Forall_forall in Hwf, Hfresh |- *.
      intros it Hit. split.
      * cbn. symmetry. apply Hwf, Hit.
      * apply packet_eqb_message_id. cbn. intros E. apply (Hfresh it Hit). done.
Qed.

(** C2. A message whose encoding is longer than one payload (210 bytes)
    makes [send_message] raise [TypeError] instead of returning an id: a
    fragment is put on a queue that already holds an entry of the same
    priority value and an unequal packet. The payload is in
    [message_buffer] all the same; on an empty queue the put that raises is
    the one of the second fragment. *)
Theorem send_message_multi_fragment_raises
    (env : CallEnv) (message : string) (priority : MessagePriority)
    (h : LoRaProtocolHandler) :
  length (str_encode message) > MAX_PACKET_SIZE - HEADER_SIZE →
  queue_wf priority (queue_of priority (send_queue h)) →
  queue_fresh (env_id env) (queue_of priority (send_queue h)) →
  ∃ h',
    send_message env message priority h = (Raise TypeError, h')
    ∧ message_buffer h' !! env_id env = Some message
    ∧ (queue_of priority (send_queue h) = [] →
       queue_of priority (send_queue h')
       = [(value priority, fragment_at (env_clock env) (env_id env) message 0);
          (value priority, fragment_at (env_clock env) (env_id env) message 1)]).
Proof.
  intros Hlen Hwf Hfresh.
  pose proof (fragment_count_ge_2 _ Hlen) as Hn.
  unfold send_message. rewrite fragment_message_unfold.
  destruct (put_fragments_multi_raises (env_clock env) (env_id env) message priority
              (with_message_buffer (<[env_id env := message]> (message_buffer h)) h)
              Hn Hwf Hfresh) as (h' & -> & Hbuf & Hq).
  exists h'. split; [reflexivity |]. split; [| exact Hq].
  rewrite Hbuf. cbn. apply lookup_insert_eq.
Qed.

Lemma send_message_multi_fragment_raises_witness :
  ∃ h',
    send_message env_m1 (xs 211) MEDIUM init_handler = (Raise TypeError, h')
    ∧ message_buffer h' !! "m1"%string = Some (xs 211)
    ∧ (queue_of MEDIUM (send_queue init_handler) = [] →
       queue_of MEDIUM (send_queue h')
       = [(value MEDIUM, fragment_at tick "m1" (xs 211) 0);
          (value MEDIUM, fragment_at tick "m1" (xs 211) 1)]).
Proof.
  apply (send_message_multi_fragment_raises env_m1 (xs 211) MEDIUM init_handler).
  - vm_compute. lia.
  - constructor.
  - constructor.
Defined.

(** ** CRC rejection *)

(** C6. A frame whose declared [crc] is not the CRC-32 of its payload adds
    one to [packet_loss] and changes nothing else: no signal sample, no
    tracker cancelled, no reassembly buffer touched, nothing delivered. *)
Theorem handle_packet_crc_mismatch (packet : LoRaPacket) (h : LoRaProtocolHandler) :
  crc32 (payload packet) ≠ crc packet →
  let h' := _handle_packet packet h in
  packet_loss (signal_stats h') = packet_loss (signal_stats h) + 1
  ∧ retransmissions (signal_stats h') = retransmissions (signal_stats h)
  ∧ stats_rssi (signal_stats h') = stats_rssi (signal_stats h)
  ∧ stats_snr (signal_stats h') = stats_snr (signal_stats h)
  ∧ received_fragments h' = received_fragments h
  ∧ pending_acks h' = pending_acks h
  ∧ receive_queue h' = receive_queue h
  ∧ send_queue h' = send_queue h
  ∧ message_buffer h' = message_buffer h
  ∧ serial_out h' = serial_out h.
Proof.
  intros Hcrc h'. subst h'. unfold _handle_packet.
  destruct (Z.eqb_spec (crc32 (payload packet)) (crc packet)) as [E | _]; [done |].
  cbn. repeat split.
Qed.

Lemma handle_packet_crc_mismatch_witness :
  let h' := _handle_packet invalid_packet init_handler in
  packet_loss (signal_stats h') = packet_loss (signal_stats init_handler) + 1
  ∧ retransmissions (signal_stats h') = retransmissions (signal_stats init_handler)
  ∧ stats_rssi (signal_stats h') = stats_rssi (signal_stats init_handler)
  ∧ stats_snr (signal_stats h') = stats_snr (signal_stats init_handler)
  ∧ received_fragments h' = received_fragments init_handler
  ∧ pending_acks h' = pending_acks init_handler
  ∧ receive_queue h' = receive_queue init_handler
  ∧ send_queue h' = send_queue init_handler
  ∧ message_buffer h' = message_buffer init_handler
  ∧ serial_out h' = serial_out init_handler.
Proof.
  apply (handle_packet_crc_mismatch invalid_packet init_handler).
  vm_compute. discriminate.
Defined.

(** ** Fragmentation and reassembly *)

Lemma chunks_concat_gen (k : nat) (m : nat) :
  ∀ data : list byte,
    length data ≤ m * k →
    concat (map (λ i, take k (drop (i * k) data)) (seq 0 m)) = data.
Proof.
  induction m as [|m IH]; intros data Hlen.
  - destruct data; [reflexivity | simpl in Hlen; lia].
  - cbn [seq map concat]. rewrite Nat.mul_0_l, drop_0.
    rewrite <- seq_shift, map_map.
    rewrite <- (take_drop k data) at 2. f_equal.
    assert (Hd : length (drop k data) ≤ m * k) by (rewrite length_drop; lia).
    etrans; [| exact (IH (drop k data) Hd)].
    f_equal. apply map_ext. intros i. rewrite drop_drop. f_equal; f_equal; lia.
Qed.

Lemma chunks_concat (data : list byte) :
  concat (map (chunk data) (seq 0 ((length data + payload_size - 1) / payload_size)))
  = data.
Proof.
  unfold chunk. apply chunks_concat_gen.
  change payload_size with 210.
  pose proof (Nat.div_mod_eq (length data + 210 - 1) 210) as E.
  pose proof (Nat.mod_upper_bound (length data + 210 - 1) 210) as B.
  lia.
Qed.

Lemma fragment_count_0 msg : fragment_count msg = 0 ↔ str_encode msg = [].
Proof.
  unfold fragment_count. change payload_size with 210. split.
  - intros H. apply Nat.div_small_iff in H; [| lia].
    destruct (str_encode msg); [reflexivity | simpl in H; lia].
  - intros ->. reflexivity.
Qed.

Lemma payloads_of_fragments clock mid msg :
  concat (map payload (_fragment_message clock mid msg)) = str_encode msg.
Proof.
  rewrite fragment_message_unfold, map_map. cbn [payload fragment_at].
  apply chunks_concat.
Qed.

(** *** Buffers built by [store] *)

Lemma store_size_le (l : list LoRaPacket) :
  ∀ buf, size (foldl store buf l) ≤ size buf + length l.
Proof.
  induction l as [|p l IH]; intros buf; cbn [foldl length]; [lia |].
  etrans; [apply IH |]. unfold store.
  destruct (buf !! fragment_id p) eqn:E.
  - rewrite map_size_insert_Some by eauto. lia.
  - rewrite map_size_insert_None by done. lia.
Qed.

Lemma store_lookup_other (l : list LoRaPacket) :
  ∀ buf k, k ∉ map fragment_id l → foldl store buf l !! k = buf !! k.
Proof.
  induction l as [|p l IH]; intros buf k Hk; cbn [foldl]; [done |].
  cbn [map] in Hk. apply not_elem_of_cons in Hk as [Hne Hk].
  rewrite IH by done. unfold store. by rewrite lookup_insert_ne.
Qed.

Lemma store_lookup (l : list LoRaPacket) :
  ∀ buf p, NoDup (map fragment_id l) → p ∈ l →
           foldl store buf l !! fragment_id p = Some p.
Proof.
  induction l as [|q l IH]; intros buf p Hnd Hin; [by apply elem_of_nil in Hin |].
  cbn [map] in Hnd. apply NoDup_cons in Hnd as [Hq Hnd].
  cbn [foldl]. apply elem_of_cons in Hin as [-> | Hin].
  - rewrite store_lookup_other by done. unfold store. apply lookup_insert_eq.
  - by apply IH.
Qed.

Lemma store_size (l : list LoRaPacket) :
  ∀ buf, NoDup (map fragment_id l) →
         (∀ p, p ∈ l → buf !! fragment_id p = None) →
         size (foldl store buf l) = size buf + length l.
Proof.
  induction l as [|q l IH]; intros buf Hnd Hfree; cbn [foldl length]; [lia |].
  cbn [map] in Hnd. apply NoDup_cons in Hnd as [Hq Hnd].
  rewrite IH; [| done |].
  - unfold store. rewrite map_size_insert_None; [lia |].
    apply Hfree. left.
  - intros p Hp. unfold store. rewrite lookup_insert_ne.
    + apply Hfree. by right.
    + intros E. apply Hq. rewrite E. apply list_elem_of_fmap. eauto.
Qed.

Lemma ordered_payloads_ok (buf : gmap Z LoRaPacket) (f : nat → list byte) :
  ∀ idx,
    (∀ i, i ∈ idx → ∃ p, buf !! Z.of_nat i = Some p ∧ payload p = f i) →
    ordered_payloads buf idx = Return (map f idx).
Proof.
  induction idx as [|i idx IH]; intros H; [reflexivity |].
  cbn [ordered_payloads map].
  destruct (H i) as (p & Hp & Hpay); [left |].
  rewrite Hp, IH, Hpay; [reflexivity |].
  intros j Hj. apply H. by right.
Qed.

(** *** Receiving the fragments of one message *)

Lemma handle_packet_store (p : LoRaPacket) (h : LoRaProtocolHandler) :
  crc32 (payload p) = crc p →
  od_get (message_id p) (pending_acks h) = None →
  Z.of_nat (size (store (default ∅ (received_fragments h !! message_id p)) p))
    ≠ total_fragments p →
  pending_acks (_handle_packet p h) = pending_acks h
  ∧ receive_queue (_handle_packet p h) = receive_queue h
  ∧ received_fragments (_handle_packet p h)
    = <[message_id p := store (default ∅ (received_fragments h !! message_id p)) p]>
        (received_fragments h).
Proof.
  intros Hcrc Hpend Hsize. unfold _handle_packet.
  rewrite Hcrc, Z.eqb_refl. cbn [negb].
  cbn [pending_acks with_signal_stats received_fragments].
  rewrite Hpend.
  fold (store (default ∅ (received_fragments h !! message_id p)) p).
  destruct (Z.eqb_spec
              (Z.of_nat (size (store (default ∅ (received_fragments h !! message_id p)) p)))
              (total_fragments p)) as [E | _]; [done |].
  repeat split.
Qed.

Lemma handle_packet_complete (p : LoRaPacket) (h : LoRaProtocolHandler)
    (chunks : list (list byte)) (msg : string) :
  crc32 (payload p) = crc p →
  od_get (message_id p) (pending_acks h) = None →
  Z.of_nat (size (store (default ∅ (received_fragments h !! message_id p)) p))
    = total_fragments p →
  ordered_payloads (store (default ∅ (received_fragments h !! message_id p)) p)
    (seq 0 (size (store (default ∅ (received_fragments h !! message_id p)) p)))
    = Return chunks →
  bytes_decode (concat chunks) = Return msg →
  receive_queue (_handle_packet p h) = receive_queue h ++ [msg]
  ∧ received_fragments (_handle_packet p h) !! message_id p = None.
Proof.
  intros Hcrc Hpend Hsize Hord Hdec. unfold _handle_packet.
  rewrite Hcrc, Z.eqb_refl. cbn [negb].
  cbn [pending_acks with_signal_stats received_fragments].
  rewrite Hpend.
  fold (store (default ∅ (received_fragments h !! message_id p)) p).
  rewrite Hsize, Z.eqb_refl.
  unfold _reassemble_message, reassemble_try.
  cbn [received_fragments with_received_fragments].
  rewrite lookup_insert_eq, Hord, Hdec. cbn.
  split; [reflexivity | apply lookup_delete_eq].
Qed.

Lemma handle_packets_accumulate (mid : string) (n : nat) (l : list LoRaPacket) :
  ∀ h,
    od_get mid (pending_acks h) = None →
    Forall (λ p, message_id p = mid ∧ crc32 (payload p) = crc p
                 ∧ total_fragments p = Z.of_nat n) l →
    size (default ∅ (received_fragments h !! mid)) + length l < n →
    pending_acks (handle_packets l h) = pending_acks h
    ∧ receive_queue (handle_packets l h) = receive_queue h
    ∧ default ∅ (received_fragments (handle_packets l h) !! mid)
      = foldl store (default ∅ (received_fragments h !! mid)) l.
Proof.
  induction l as [|p l IH]; intros h Hpend Hall Hsize; [done |].
  apply Forall_cons in Hall as [(Hid & Hcrc & Htot) Hall].
  cbn [length] in Hsize. unfold handle_packets. cbn [foldl].
  fold (handle_packets l (_handle_packet p h)).
  destruct (handle_packet_store p h) as (Hp1 & Hq1 & Hr1).
  - done.
  - by rewrite Hid.
  - rewrite Hid, Htot.
    pose proof (store_size_le [p] (default ∅ (received_fragments h !! mid))) as Hle.
    cbn [foldl length] in Hle. lia.
  - rewrite Hid in Hr1.
    assert (Hbuf : default ∅ (received_fragments (_handle_packet p h) !! mid)
                   = store (default ∅ (received_fragments h !! mid)) p).
    { rewrite Hr1, lookup_insert_eq. reflexivity. }
    destruct (IH (_handle_packet p h)) as (Hp2 & Hq2 & Hr2).
    + by rewrite Hp1.
    + done.
    + rewrite Hbuf.
      pose proof (store_size_le [p] (default ∅ (received_fragments h !! mid))) as Hle.
      cbn [foldl length] in Hle. lia.
    + rewrite Hp2, Hq2, Hr2, Hp1, Hq1, Hbuf. done.
Qed.

Lemma received_frame_facts clock mid msg (rx : list LoRaPacket) :
  map frame_of rx ≡ₚ map frame_of (_fragment_message clock mid msg) →
  length rx = fragment_count msg
  ∧ NoDup (map fragment_id rx)
  ∧ (∀ p, p ∈ rx →
          message_id p = mid ∧ crc32 (payload p) = crc p
          ∧ total_fragments p = Z.of_nat (fragment_count msg))
  ∧ (∀ i, i < fragment_count msg →
          ∃ p, p ∈ rx ∧ fragment_id p = Z.of_nat i
               ∧ payload p = chunk (str_encode msg) i).
Proof.
  rewrite fragment_message_unfold, map_map. intros Hperm.
  split; [| split; [| split]].
  - apply Permutation_length in Hperm. by rewrite !length_map, length_seq in Hperm.
  - assert (E : map fragment_id rx = map w_frag (map frame_of rx))
      by (by rewrite map_map).
    rewrite E, Hperm, map_map. cbn [w_frag frame_of fragment_id fragment_at].
    apply NoDup_fmap_2; [intros ?? ?; lia | apply NoDup_seq].
  - intros p Hp.
    assert (Hin : frame_of p ∈ map frame_of rx) by (apply list_elem_of_fmap; eauto).
    rewrite Hperm in Hin. apply list_elem_of_fmap in Hin as (i & Hi & _).
    pose proof (f_equal w_id Hi) as E1. pose proof (f_equal w_total Hi) as E2.
    pose proof (f_equal w_payload Hi) as E3. pose proof (f_equal w_crc Hi) as E4.
    cbn in E1, E2, E3, E4. rewrite E1, E2, E4, E3. done.
  - intros i Hi.
    assert (Hin : frame_of (fragment_at clock mid msg i) ∈ map frame_of rx).
    { rewrite Hperm. apply list_elem_of_fmap. exists i. split; [done |].
      apply elem_of_seq. lia. }
    apply list_elem_of_fmap in Hin as (p & Hp & Hin).
    exists p. split; [done |].
    pose proof (f_equal w_frag Hp) as E1. pose proof (f_equal w_payload Hp) as E2.
    cbn in E1, E2. done.
Qed.

Lemma decode_encode msg :
  utf8_valid (str_encode msg) = true →
  bytes_decode (str_encode msg) = Return msg.
Proof.
  intros H. unfold bytes_decode. rewrite H. unfold str_encode.
  by rewrite string_of_list_byte_of_string.
Qed.

(** C1. Round trip. Reassembly composed with fragmentation is the identity
    on payloads, and a peer that receives the frames of one message, each
    once and in any order, with whatever radio metadata, queues exactly the
    submitted message for the layer above and destroys the buffer. (The
    empty message has no frame, so nothing is queued for it.) *)
Theorem fragment_reassemble_roundtrip
    (clock : nat → Q) (mid msg : string) (rx : list LoRaPacket)
    (peer : LoRaProtocolHandler) :
  utf8_valid (str_encode msg) = true →
  od_get mid (pending_acks peer) = None →
  received_fragments peer !! mid = None →
  map frame_of rx ≡ₚ map frame_of (_fragment_message clock mid msg) →
  concat (map payload (_fragment_message clock mid msg)) = str_encode msg
  ∧ receive_queue (handle_packets rx peer)
    = receive_queue peer ++ match str_encode msg with [] => [] | _ => [msg] end
  ∧ received_fragments (handle_packets rx peer) !! mid = None.
Proof.
  intros Hutf Hpend Hbuf Hperm.
  split; [apply payloads_of_fragments |].
  destruct (received_frame_facts _ _ _ _ Hperm) as (Hlen & Hnd & Hall & Hcover).
  destruct rx as [|p0 rx0 _] using rev_ind.
  - cbn [length] in Hlen. symmetry in Hlen. apply fragment_count_0 in Hlen.
    rewrite Hlen. cbn. by rewrite app_nil_r.
  - rewrite length_app in Hlen. cbn [length] in Hlen.
    assert (Hne : str_encode msg ≠ []).
    { intros E. apply fragment_count_0 in E. lia. }
    destruct (handle_packets_accumulate mid (fragment_count msg) rx0 peer)
      as (Hp1 & Hq1 & Hr1).
    + done.
    + apply Forall_forall. intros p Hp. apply Hall. apply elem_of_app. by left.
    + rewrite Hbuf. cbn [default]. rewrite map_size_empty. lia.
    + rewrite Hbuf in Hr1. cbn [default] in Hr1.
      unfold handle_packets. rewrite foldl_app. cbn [foldl].
      fold (handle_packets rx0 peer).
      destruct (Hall p0) as (Hid & Hcrc & Htot); [apply elem_of_app; right; left |].
      assert (Hst : store (default ∅ (received_fragments (handle_packets rx0 peer)
                                        !! message_id p0)) p0
                    = foldl store ∅ (rx0 ++ [p0])).
      { rewrite Hid, Hr1, foldl_app. reflexivity. }
      assert (Hsz : size (foldl store ∅ (rx0 ++ [p0])) = fragment_count msg).
      { rewrite store_size; [| done | intros; apply lookup_empty].
        rewrite map_size_empty, length_app. cbn [length]. lia. }
      destruct (handle_packet_complete p0 (handle_packets rx0 peer)
                  (map (chunk (str_encode msg)) (seq 0 (fragment_count msg))) msg)
        as (Hq2 & Hr2).
      * done.
      * by rewrite Hid, Hp1.
      * by rewrite Hst, Hsz.
      * rewrite Hst, Hsz. apply ordered_payloads_ok.
        intros i Hi. apply elem_of_seq in Hi.
        destruct (Hcover i) as (p & Hp & Hfid & Hpay); [lia |].
        exists p. split; [| done]. rewrite <- Hfid. by apply store_lookup.
      * unfold fragment_count. rewrite chunks_concat. by apply decode_encode.
      * rewrite Hid in Hr2. split; [| done].
        rewrite Hq2, Hq1. destruct (str_encode msg); done.
Qed.

Lemma fragment_reassemble_roundtrip_witness :
  concat (map payload (_fragment_message tick "m1" (xs 211))) = str_encode (xs 211)
  ∧ receive_queue (handle_packets rx_211 init_handler)
    = receive_queue init_handler
      ++ match str_encode (xs 211) with [] => [] | _ => [xs 211] end
  ∧ received_fragments (handle_packets rx_211 init_handler) !! "m1"%string = None.
Proof.
  apply (fragment_reassemble_roundtrip tick "m1" (xs 211) rx_211 init_handler).
  - vm_compute. reflexivity.
  - reflexivity.
  - reflexivity.
  - rewrite fragment_message_unfold.
    replace (fragment_count (xs 211)) with 2 by (vm_compute; reflexivity).
    apply Permutation_swap.
Defined.

(** ** Frames with inconsistent fragment metadata *)

Lemma ordered_payloads_missing (buf : gmap Z LoRaPacket) :
  ∀ idx i, i ∈ idx → buf !! Z.of_nat i = None →
           ordered_payloads buf idx = Raise KeyError.
Proof.
  induction idx as [|j idx IH]; intros i Hi Hnone; [by apply elem_of_nil in Hi |].
  cbn [ordered_payloads].
  destruct (buf !! Z.of_nat j) as [p|] eqn:Ej; [| reflexivity].
  apply elem_of_cons in Hi as [-> | Hi]; [congruence |].
  by rewrite (IH i Hi Hnone).
Qed.

(** A buffer of [n] entries with a key outside [0..n-1] misses an index. *)
Lemma buffer_hole (buf : gmap Z LoRaPacket) (k : Z) :
  is_Some (buf !! k) → (Z.of_nat (size buf) ≤ k)%Z →
  ∃ i, i < size buf ∧ buf !! Z.of_nat i = None.
Proof.
  intros Hk Hge.
  destruct (decide (Forall (λ i, is_Some (buf !! Z.of_nat i)) (seq 0 (size buf))))
    as [Hall | Hnot].
  - exfalso.
    set (S := list_to_set (map Z.of_nat (seq 0 (size buf))) : gset Z).
    assert (HS : size S = size buf).
    { unfold S. rewrite size_list_to_set.
      - by rewrite length_map, length_seq.
      - apply NoDup_fmap_2; [intros ?? ?; lia | apply NoDup_seq]. }
    assert (HkS : k ∉ S).
    { unfold S. rewrite elem_of_list_to_set. intros Hin.
      apply list_elem_of_fmap in Hin as (i & -> & Hi). apply elem_of_seq in Hi. lia. }
    assert (Hsub : S ∪ {[k]} ⊆ dom buf).
    { intros x Hx. apply elem_of_dom. apply elem_of_union in Hx as [Hx | Hx].
      - unfold S in Hx. rewrite elem_of_list_to_set in Hx.
        apply list_elem_of_fmap in Hx as (i & -> & Hi).
        rewrite Forall_forall in Hall. by apply Hall.
      - apply elem_of_singleton in Hx as ->. done. }
    apply subseteq_size in Hsub.
    rewrite size_union in Hsub by (by apply disjoint_singleton_r).
    rewrite size_singleton, size_dom, HS in Hsub. lia.
  - apply not_Forall_Exists in Hnot; [| intros ?; apply _].
    apply Exists_exists in Hnot as (i & Hi & Hnone).
    apply elem_of_seq in Hi. exists i. split; [lia |].
    by apply eq_None_not_Some.
Qed.

(** The claim of C9 fails on the code: a CRC-valid frame with index 5 of 2
    is stored in a reassembly buffer, and a frame whose total (5) disagrees
    with the total stored for the message (3) is stored next to it, the
    buffer is kept and [packet_loss] stays 0. *)
Lemma malformed_fragment_counterexample :
  (received_fragments (_handle_packet (frame_packet "m9" 5 2 "hi") init_handler)
     !! "m9"%string ≫= (.!! 5%Z))
  = Some (frame_packet "m9" 5 2 "hi")
  ∧ (let h := handle_packets [frame_packet "m9" 0 3 "ab"; frame_packet "m9" 1 5 "cd"]
                init_handler in
     (received_fragments h !! "m9"%string ≫= (.!! 0%Z)) = Some (frame_packet "m9" 0 3 "ab")
     ∧ (received_fragments h !! "m9"%string ≫= (.!! 1%Z)) = Some (frame_packet "m9" 1 5 "cd")
     ∧ packet_loss (signal_stats h) = 0).
Proof. vm_compute. repeat split. Qed.

(** C9, as the code has it. The receive path does not validate fragment
    metadata: a CRC-valid frame of a message that is not pending never
    changes [packet_loss]; it is stored under its index in the buffer of
    its message, whatever the totals of the frames already there, unless
    the buffer then has as many entries as the frame's own total; and a
    frame whose index is not below its total is stored in every case,
    delivering nothing. *)
Theorem handle_packet_no_metadata_check (p : LoRaPacket) (h : LoRaProtocolHandler) :
  crc32 (payload p) = crc p →
  od_get (message_id p) (pending_acks h) = None →
  packet_loss (signal_stats (_handle_packet p h)) = packet_loss (signal_stats h)
  ∧ ((total_fragments p ≤ fragment_id p)%Z
     ∨ Z.of_nat (size (store (default ∅ (received_fragments h !! message_id p)) p))
       ≠ total_fragments p →
     received_fragments (_handle_packet p h) !! message_id p
     = Some (store (default ∅ (received_fragments h !! message_id p)) p)
     ∧ receive_queue (_handle_packet p h) = receive_queue h).
Proof.
  intros Hcrc Hpend.
  set (buf' := store (default ∅ (received_fragments h !! message_id p)) p).
  assert (Hgen : packet_loss (signal_stats (_handle_packet p h))
                 = packet_loss (signal_stats h)
                 ∧ (_handle_packet p h
                    = _reassemble_message (message_id p)
                        (with_received_fragments
                           (<[message_id p := buf']> (received_fragments h))
                           (with_signal_stats
                              (record_signal (rssi p) (snr p) (signal_stats h)) h))
                    ∨ Z.of_nat (size buf') ≠ total_fragments p)).
  { unfold _handle_packet. rewrite Hcrc, Z.eqb_refl. cbn [negb].
    cbn [pending_acks with_signal_stats received_fragments]. rewrite Hpend.
    change (<[fragment_id p := p]> (default ∅ (received_fragments h !! message_id p)))
      with buf'.
    assert (Hrec : ∀ r s st, packet_loss (record_signal r s st) = packet_loss st).
    { intros. unfold record_signal. by destruct (_ <? _). }
    destruct (Z.eqb_spec (Z.of_nat (size buf')) (total_fragments p)) as [E | NE].
    - split; [| by left].
      unfold _reassemble_message, reassemble_try.
      cbn [received_fragments with_received_fragments].
      rewrite lookup_insert_eq.
      destruct (ordered_payloads buf' _); [| cbn; apply Hrec].
      destruct (bytes_decode _); cbn; apply Hrec.
    - split; [cbn; apply Hrec | by right]. }
  destruct Hgen as [Hloss Hcase]. split; [done |].
  intros Hcond.
  destruct (decide (Z.of_nat (size buf') = total_fragments p)) as [E | NE].
  - destruct Hcond as [Hidx | ?]; [| done].
    destruct Hcase as [-> | ?]; [| done].
    destruct (buffer_hole buf' (fragment_id p)) as (i & Hi & Hnone).
    + unfold buf', store. rewrite lookup_insert_eq. eauto.
    + lia.
    + unfold _reassemble_message, reassemble_try.
      cbn [received_fragments with_received_fragments].
      rewrite lookup_insert_eq.
      rewrite (ordered_payloads_missing buf' _ i); [| apply elem_of_seq; lia | done].
      cbn. by rewrite lookup_insert_eq.
  - destruct (handle_packet_store p h Hcrc Hpend NE) as (_ & Hq & Hr).
    rewrite Hr, lookup_insert_eq. done.
Qed.

Lemma handle_packet_no_metadata_check_witness :
  packet_loss (signal_stats (_handle_packet (frame_packet "m9" 5 2 "hi") init_handler))
  = packet_loss (signal_stats init_handler)
  ∧ ((total_fragments (frame_packet "m9" 5 2 "hi")
      ≤ fragment_id (frame_packet "m9" 5 2 "hi"))%Z
     ∨ Z.of_nat (size (store (default ∅ (received_fragments init_handler
                                           !! message_id (frame_packet "m9" 5 2 "hi")))
                         (frame_packet "m9" 5 2 "hi")))
       ≠ total_fragments (frame_packet "m9" 5 2 "hi") →
     received_fragments (_handle_packet (frame_packet "m9" 5 2 "hi") init_handler)
       !! message_id (frame_packet "m9" 5 2 "hi")
     = Some (store (default ∅ (received_fragments init_handler
                                 !! message_id (frame_packet "m9" 5 2 "hi")))
               (frame_packet "m9" 5 2 "hi"))
     ∧ receive_queue (_handle_packet (frame_packet "m9" 5 2 "hi") init_handler)
       = receive_queue init_handler).
Proof.
  apply (handle_packet_no_metadata_check (frame_packet "m9" 5 2 "hi") init_handler).
  - reflexivity.
  - reflexivity.
Defined.

(** ** The heap keeps its entries *)

Lemma swap_elem_of (i j : nat) (l : list item) (x : item) :
  x ∈ swap i j l ↔ x ∈ l.
Proof.
  unfold swap.
  destruct (l !! i) as [a|] eqn:Ei; [| done].
  destruct (l !! j) as [b|] eqn:Ej; [| done].
  pose proof (lookup_lt_Some _ _ _ Ei) as Hi.
  pose proof (lookup_lt_Some _ _ _ Ej) as Hj.
  rewrite !list_elem_of_lookup. split.
  - intros (k & Hk).
    apply list_lookup_insert_Some in Hk as [(<- & <- & _) | (Hne & Hk)]; [eauto |].
    apply list_lookup_insert_Some in Hk as [(<- & <- & _) | (Hne' & Hk)]; eauto.
  - intros (k & Hk).
    destruct (decide (k = i)) as [-> | Hki].
    + exists j. destruct (decide (i = j)) as [-> | Hij].
      * rewrite list_lookup_insert_eq by (by rewrite length_insert). congruence.
      * rewrite list_lookup_insert_ne by done.
        rewrite list_lookup_insert_eq by done. congruence.
    + destruct (decide (k = j)) as [-> | Hkj].
      * exists i. rewrite list_lookup_insert_eq by (by rewrite length_insert).
        congruence.
      * exists k. by rewrite !list_lookup_insert_ne.
Qed.

Lemma siftdown_loop_elem_of (fuel : nat) :
  ∀ heap startpos pos x,
    x ∈ (_siftdown_loop fuel heap startpos pos).2 ↔ x ∈ heap.
Proof.
  induction fuel as [|fuel IH]; intros heap startpos pos x; [done |].
  cbn [_siftdown_loop].
  destruct (startpos <? pos); [| done].
  destruct (heap !! pos); [| done].
  destruct (heap !! ((pos - 1) / 2)); [| done].
  destruct (item_lt _ _) as [[|]|]; [| done | done].
  rewrite IH. apply swap_elem_of.
Qed.

Lemma siftup_loop_elem_of (fuel : nat) :
  ∀ heap startpos pos x,
    x ∈ (_siftup_loop fuel heap startpos pos).2 ↔ x ∈ heap.
Proof.
  induction fuel as [|fuel IH]; intros heap startpos pos x.
  - apply siftdown_loop_elem_of.
  - cbn [_siftup_loop].
    destruct (pos <? length heap / 2); [| apply siftdown_loop_elem_of].
    destruct (smaller_child _ _); [| done].
    rewrite IH. apply swap_elem_of.
Qed.

Lemma put_elem_of (q : list item) (x y : item) :
  y ∈ (put q x).2 ↔ y ∈ q ∨ y = x.
Proof.
  unfold put, heappush, _siftdown. rewrite siftdown_loop_elem_of.
  rewrite elem_of_app, list_elem_of_singleton. done.
Qed.

Lemma heappop_elem_of (q : list item) (y : item) :
  y ∈ (heappop q).2 → y ∈ q.
Proof.
  unfold heappop.
  destruct (last q) as [lastelt|] eqn:El; [| done].
  apply last_Some in El as [l' ->].
  rewrite length_app. cbn [length].
  replace (length l' + 1 - 1) with (length l') by lia.
  rewrite take_app_length.
  destruct l' as [|r rest]; [by intros ?%elem_of_nil |].
  unfold _siftup.
  destruct (_siftup_loop _ _ _ _) as [[?|?] heap'] eqn:E; cbn [snd];
    intros Hy;
    (assert (Hy' : y ∈ (_siftup_loop (length (lastelt :: rest)) (lastelt :: rest) 0 0).2)
       by (by rewrite E));
    apply siftup_loop_elem_of in Hy';
    apply elem_of_cons in Hy' as [-> | Hy'];
    rewrite elem_of_app, elem_of_cons, list_elem_of_singleton; eauto.
Qed.

Lemma heappop_head (q : list item) (it : item) :
  (heappop q).1 = Return it → head q = Some it.
Proof.
  unfold heappop.
  destruct (last q) as [lastelt|] eqn:El; [| done].
  apply last_Some in El as [l' ->].
  rewrite length_app. cbn [length].
  replace (length l' + 1 - 1) with (length l') by lia.
  rewrite take_app_length.
  destruct l' as [|r rest]; [cbn; congruence |].
  destruct (_siftup _ _) as [[?|?] heap']; cbn; congruence.
Qed.

Lemma get_nowait_elem_of (q : list item) (y : item) :
  y ∈ (get_nowait q).2 → y ∈ q.
Proof.
  unfold get_nowait. destruct (q_empty q); [done | apply heappop_elem_of].
Qed.

Lemma get_nowait_head (q : list item) (it : item) :
  (get_nowait q).1 = Return it → head q = Some it.
Proof.
  unfold get_nowait. destruct (q_empty q); [done | apply heappop_head].
Qed.

(** With at most two entries, taking the head compares nothing. *)
Lemma get_nowait_short (q : list item) (it : item) :
  head q = Some it → length q ≤ 2 → ∃ q', get_nowait q = (Return it, q').
Proof.
  destruct q as [|a [|b [|c q]]]; cbn [head length]; intros [= ->] Hlen;
    [| | lia]; eexists; reflexivity.
Qed.

(** ** Ordered dictionaries *)

Lemma od_get_set_ne {V} (k k' : string) (v : V) (d : list (string * V)) :
  k ≠ k' → od_get k (od_set k' v d) = od_get k d.
Proof.
  intros Hne. induction d as [|[k0 v0] d IH]; cbn.
  - destruct (String.eqb_spec k' k); [congruence | done].
  - destruct (String.eqb_spec k0 k') as [-> | ?]; cbn.
    + destruct (String.eqb_spec k' k); [congruence | done].
    + destruct (String.eqb_spec k0 k); [done | apply IH].
Qed.

Lemma od_get_del_ne {V} (k k' : string) (d : list (string * V)) :
  k ≠ k' → od_get k (od_del k' d) = od_get k d.
Proof.
  intros Hne. induction d as [|[k0 v0] d IH]; cbn; [done |].
  destruct (String.eqb_spec k0 k') as [-> | ?]; cbn.
  - destruct (String.eqb_spec k' k); [congruence | done].
  - destruct (String.eqb_spec k0 k); [done | apply IH].
Qed.

Lemma od_del_absent {V} (k : string) (d : list (string * V)) :
  od_get k d = None → od_del k d = d.
Proof.
  induction d as [|[k0 v0] d IH]; cbn; [done |].
  destruct (String.eqb_spec k0 k); [done |]. intros H. by rewrite IH.
Qed.

Lemma od_get_del_None {V} (k k' : string) (d : list (string * V)) :
  od_get k d = None → od_get k (od_del k' d) = None.
Proof.
  intros H. destruct (decide (k = k')) as [<- | Hne].
  - by rewrite od_del_absent.
  - by rewrite od_get_del_ne.
Qed.

(** ** What the operations leave alone *)

Lemma fragment_message_id clock mid msg f :
  f ∈ _fragment_message clock mid msg → message_id f = mid.
Proof.
  rewrite fragment_message_unfold. intros Hf.
  apply list_elem_of_fmap in Hf as (i & -> & _). reflexivity.
Qed.

Lemma put_fragments_frame (priority : MessagePriority) (frags : list LoRaPacket) :
  ∀ h,
    receive_queue (put_fragments priority frags h).2 = receive_queue h
    ∧ serial_out (put_fragments priority frags h).2 = serial_out h
    ∧ pending_acks (put_fragments priority frags h).2 = pending_acks h
    ∧ received_fragments (put_fragments priority frags h).2 = received_fragments h
    ∧ message_buffer (put_fragments priority frags h).2 = message_buffer h
    ∧ signal_stats (put_fragments priority frags h).2 = signal_stats h
    ∧ (∀ p', p' ≠ priority →
             queue_of p' (send_queue (put_fragments priority frags h).2)
             = queue_of p' (send_queue h))
    ∧ (∀ y, y ∈ queue_of priority (send_queue (put_fragments priority frags h).2) →
            y ∈ queue_of priority (send_queue h)
            ∨ ∃ f, f ∈ frags ∧ y = (value priority, f))
    ∧ (∀ y, y ∈ queue_of priority (send_queue h) →
            y ∈ queue_of priority (send_queue (put_fragments priority frags h).2))
    ∧ ((put_fragments priority frags h).1 = Return tt →
       ∀ f, f ∈ frags →
            (value priority, f)
              ∈ queue_of priority (send_queue (put_fragments priority frags h).2)).
Proof.
  induction frags as [|f frags IH]; intros h; cbn [put_fragments].
  - repeat split; try done.
    + intros y Hy. by left.
    + intros _ f Hf. by apply elem_of_nil in Hf.
  - destruct (put (queue_of priority (send_queue h)) (value priority, f))
      as [[[]|e] q] eqn:Eput.
    + assert (Hq : ∀ y, y ∈ q ↔ y ∈ queue_of priority (send_queue h)
                                 ∨ y = (value priority, f)).
      { intros y. rewrite <- put_elem_of. by rewrite Eput. }
      destruct (IH (with_queue priority q h))
        as (H1 & H2 & H3 & H4 & H5 & H6 & H7 & H8 & H9 & H10).
      rewrite H1, H2, H3, H4, H5, H6. repeat split; try done.
      * intros p' Hp'. rewrite H7 by done. by apply queue_of_with_queue_ne.
      * intros y Hy. apply H8 in Hy as [Hy | (f' & Hf' & ->)].
        -- rewrite queue_of_with_queue in Hy. apply Hq in Hy as [Hy | ->]; [by left |].
           right. exists f. split; [left | done].
        -- right. exists f'. split; [by right | done].
      * intros y Hy. apply H9. rewrite queue_of_with_queue. apply Hq. by left.
      * intros Hret f' Hf'. apply elem_of_cons in Hf' as [-> | Hf'].
        -- apply H9. rewrite queue_of_with_queue. apply Hq. by right.
        -- by apply H10.
    + assert (Hq : ∀ y, y ∈ q ↔ y ∈ queue_of priority (send_queue h)
                                 ∨ y = (value priority, f)).
      { intros y. rewrite <- put_elem_of. by rewrite Eput. }
      cbn [fst snd]. repeat split; try done.
      * intros p' Hp'. by apply queue_of_with_queue_ne.
      * intros y Hy. rewrite queue_of_with_queue in Hy.
        apply Hq in Hy as [Hy | ->]; [by left |].
        right. exists f. split; [left | done].
      * intros y Hy. rewrite queue_of_with_queue. apply Hq. by left.
Qed.

Lemma send_message_frame (env : CallEnv) (message : string)
    (priority : MessagePriority) (h : LoRaProtocolHandler) :
  receive_queue (send_message env message priority h).2 = receive_queue h
  ∧ serial_out (send_message env message priority h).2 = serial_out h
  ∧ pending_acks (send_message env message priority h).2 = pending_acks h
  ∧ received_fragments (send_message env message priority h).2 = received_fragments h
  ∧ message_buffer (send_message env message priority h).2
    = <[env_id env := message]> (message_buffer h)
  ∧ signal_stats (send_message env message priority h).2 = signal_stats h
  ∧ (∀ p', p' ≠ priority →
           queue_of p' (send_queue (send_message env message priority h).2)
           = queue_of p' (send_queue h))
  ∧ (∀ y, y ∈ queue_of priority (send_queue (send_message env message priority h).2) →
          y ∈ queue_of priority (send_queue h)
          ∨ ∃ f, f ∈ _fragment_message (env_clock env) (env_id env) message
                 ∧ y = (value priority, f))
  ∧ (∀ y, y ∈ queue_of priority (send_queue h) →
          y ∈ queue_of priority (send_queue (send_message env message priority h).2))
  ∧ (∀ r, (send_message env message priority h).1 = Return r →
          r = env_id env
          ∧ ∀ f, f ∈ _fragment_message (env_clock env) (env_id env) message →
                 (value priority, f)
                   ∈ queue_of priority
                       (send_queue (send_message env message priority h).2)).
Proof.
  unfold send_message.
  set (h1 := with_message_buffer _ h).
  set (frags := _fragment_message _ _ _).
  destruct (put_fragments_frame priority frags h1)
    as (H1 & H2 & H3 & H4 & H5 & H6 & H7 & H8 & H9 & H10).
  destruct (put_fragments priority frags h1) as [[[]|e] h2] eqn:E; cbn [fst snd] in *.
  - split_and!; try done. intros r [= <-]. split; [done |]. by apply H10.
  - split_and!; done.
Qed.

(** ** A message that is only buffered stays only buffered *)

Lemma buffered_only_with_queue mid msg p q h :
  buffered_only mid msg h → queue_fresh mid q →
  buffered_only mid msg (with_queue p q h).
Proof.
  intros ((Hq & Hp & Hs) & Hb) Hfresh. split; [split; [| split] |]; try done.
  intros p'.
  pose proof (Hq HIGH) as Hh. pose proof (Hq MEDIUM) as Hm. pose proof (Hq LOW) as Hl.
  destruct p, p'; cbn in *; done.
Qed.

Lemma send_message_buffered_only mid msg env message priority h :
  env_id env ≠ mid → buffered_only mid msg h →
  buffered_only mid msg (send_message env message priority h).2.
Proof.
  intros Hne ((Hq & Hp & Hs) & Hb).
  destruct (send_message_frame env message priority h)
    as (_ & H2 & H3 & _ & H5 & _ & H7 & H8 & _ & _).
  split; [split; [| split] |].
  - intros p'. destruct (decide (value p' = value priority)) as [E | NE].
    + assert (p' = priority) as -> by (destruct p', priority; done).
      apply Forall_forall. intros y Hy.
      apply H8 in Hy as [Hy | (f & Hf & ->)].
      * specialize (Hq priority). unfold queue_fresh in Hq.
        rewrite Forall_forall in Hq. by apply Hq.
      * cbn. by rewrite (fragment_message_id _ _ _ _ Hf).
    + rewrite H7; [apply Hq | congruence].
  - by rewrite H3.
  - by rewrite H2.
  - rewrite H5. by rewrite lookup_insert_ne.
Qed.

Lemma del_pending_buffered_only mid msg k h :
  buffered_only mid msg h → buffered_only mid msg (del_pending k h).2.
Proof.
  intros ((Hq & Hp & Hs) & Hb). unfold del_pending.
  destruct (od_get k (pending_acks h)); [| done].
  split; [split; [| split] |]; try done.
  cbn. by apply od_get_del_None.
Qed.

Lemma check_entries_buffered_only mid msg now envs items :
  (∀ k, env_id (envs k) ≠ mid) →
  ∀ h, buffered_only mid msg h →
       buffered_only mid msg (check_entries now envs items h).2.
Proof.
  intros Henv. induction items as [|[k ts] items IH]; intros h Hinv; [done |].
  cbn [check_entries].
  assert (Hstep : buffered_only mid msg (check_entry now envs (k, ts) h).2).
  { unfold check_entry. destruct (timed_out now ts); [| done].
    destruct (message_buffer h !! k) as [m|].
    - pose proof (send_message_buffered_only mid msg (envs k) m HIGH
                    (bump_retransmissions h) (Henv k) Hinv) as Hs.
      destruct (send_message _ _ _ _) as [[r|e] h1]; cbn [snd] in *; [| done].
      by apply del_pending_buffered_only.
    - by apply del_pending_buffered_only. }
  destruct (check_entry now envs (k, ts) h) as [[[]|e] h1]; cbn [snd] in *; [| done].
  by apply IH.
Qed.

Lemma send_packet_buffered_only mid msg now ok packet h :
  message_id packet ≠ mid → buffered_only mid msg h →
  buffered_only mid msg (_send_packet now ok packet h).2.
Proof.
  intros Hne Hinv. unfold _send_packet. destruct ok.
  - destruct Hinv as ((Hq & Hp & Hs) & Hb).
    split; [split; [| split] |]; try done.
    + cbn. rewrite od_get_set_ne; done.
    + cbn. apply Forall_app. split; [done |]. by constructor.
  - destruct (put _ _) as [r q] eqn:E. cbn [snd].
    apply buffered_only_with_queue; [done |].
    apply Forall_forall. intros y Hy.
    assert (Hy' : y ∈ (put (queue_of (priority packet) (send_queue h))
                         (value (priority packet), packet)).2) by (by rewrite E).
    apply put_elem_of in Hy' as [Hy' | ->]; [| done].
    destruct Hinv as ((Hq & _) & _). specialize (Hq (priority packet)).
    unfold queue_fresh in Hq. rewrite Forall_forall in Hq. by apply Hq.
Qed.

Lemma send_loop_buffered_only mid msg env h :
  (∀ k, env_id (resend_env env k) ≠ mid) → buffered_only mid msg h →
  buffered_only mid msg (_send_loop env h).
Proof.
  intros Henv Hinv. unfold _send_loop, send_loop_try, _check_pending_acks.
  pose proof (check_entries_buffered_only mid msg (sweep_now env) (resend_env env)
                (pending_acks h) Henv h Hinv) as H1.
  destruct (check_entries _ _ _ h) as [[[]|e] h1]; cbn [snd] in *; [| done].
  destruct (first_nonempty (send_queue h1)) as [p|]; [| done].
  pose proof (get_nowait_elem_of (queue_of p (send_queue h1))) as Hel.
  pose proof (get_nowait_head (queue_of p (send_queue h1))) as Hhd.
  assert (Hfq : queue_fresh mid (queue_of p (send_queue h1))) by apply H1.
  unfold queue_fresh in Hfq. rewrite Forall_forall in Hfq.
  destruct (get_nowait (queue_of p (send_queue h1))) as [[[v packet]|e] q];
    cbn [fst snd] in *.
  - apply send_packet_buffered_only.
    + specialize (Hhd _ eq_refl). apply head_Some_elem_of in Hhd.
      apply (Hfq _ Hhd).
    + apply buffered_only_with_queue; [done |].
      apply Forall_forall. intros y Hy. apply Hfq, Hel, Hy.
  - apply buffered_only_with_queue; [done |].
    apply Forall_forall. intros y Hy. apply Hfq, Hel, Hy.
Qed.

Lemma handle_packet_frame (p : LoRaPacket) (h : LoRaProtocolHandler) :
  send_queue (_handle_packet p h) = send_queue h
  ∧ serial_out (_handle_packet p h) = serial_out h
  ∧ message_buffer (_handle_packet p h) = message_buffer h
  ∧ (pending_acks (_handle_packet p h) = pending_acks h
     ∨ pending_acks (_handle_packet p h) = od_del (message_id p) (pending_acks h)).
Proof.
  unfold _handle_packet.
  destruct (negb _); [by split_and!; try left |].
  cbn [pending_acks with_signal_stats].
  destruct (od_get (message_id p) (pending_acks h)); [by split_and!; try right |].
  destruct (_ =? _)%Z; [| by split_and!; try left].
  unfold _reassemble_message, reassemble_try.
  destruct (_ !! message_id p); [| by split_and!; try left].
  destruct (ordered_payloads _ _); [| by split_and!; try left].
  destruct (bytes_decode _); by split_and!; try left.
Qed.

Lemma handle_packet_buffered_only mid msg p h :
  buffered_only mid msg h → buffered_only mid msg (_handle_packet p h).
Proof.
  intros ((Hq & Hp & Hs) & Hb).
  destruct (handle_packet_frame p h) as (H1 & H2 & H3 & H4).
  split; [split; [| split] |].
  - by rewrite H1.
  - destruct H4 as [-> | ->]; [done | by apply od_get_del_None].
  - by rewrite H2.
  - by rewrite H3.
Qed.

Lemma run_ops_buffered_only mid msg ops :
  Forall (op_avoids mid) ops →
  ∀ h, buffered_only mid msg h → buffered_only mid msg (run_ops ops h).
Proof.
  induction 1 as [|op ops Hop _ IH]; intros h Hinv; [done |].
  unfold run_ops. cbn [foldl]. apply IH.
  destruct op as [env m p | env | p]; cbn [run_op op_avoids] in *.
  - by apply send_message_buffered_only.
  - by apply send_loop_buffered_only.
  - by apply handle_packet_buffered_only.
Qed.

(** C10. The empty message: [send_message] returns an id and records the
    message in [message_buffer], but there is no fragment, so no queue, no
    tracker and no frame changes; and whatever the engine does afterwards
    (submissions with other ids, sender-loop iterations, receptions), the
    message is never queued, tracked or written to the radio, while its
    buffer entry stays. *)
Theorem send_empty_message_lost
    (env : CallEnv) (priority : MessagePriority) (h : LoRaProtocolHandler)
    (ops : list LinkOp) :
  untouched (env_id env) h →
  Forall (op_avoids (env_id env)) ops →
  _fragment_message (env_clock env) (env_id env) EmptyString = []
  ∧ ∃ h1,
      send_message env EmptyString priority h = (Return (env_id env), h1)
      ∧ send_queue h1 = send_queue h
      ∧ pending_acks h1 = pending_acks h
      ∧ serial_out h1 = serial_out h
      ∧ message_buffer h1 !! env_id env = Some EmptyString
      ∧ untouched (env_id env) (run_ops ops h1)
      ∧ message_buffer (run_ops ops h1) !! env_id env = Some EmptyString.
Proof.
  intros Hun Hops. split; [reflexivity |].
  eexists. split; [reflexivity |].
  split_and!; try done.
  - cbn. apply lookup_insert_eq.
  - apply (run_ops_buffered_only (env_id env) EmptyString ops Hops). split; [done |].
    cbn. apply lookup_insert_eq.
  - apply (run_ops_buffered_only (env_id env) EmptyString ops Hops). split; [done |].
    cbn. apply lookup_insert_eq.
Qed.

Lemma send_empty_message_lost_witness :
  _fragment_message (env_clock env_m1) (env_id env_m1) EmptyString = []
  ∧ ∃ h1,
      send_message env_m1 EmptyString LOW init_handler = (Return (env_id env_m1), h1)
      ∧ send_queue h1 = send_queue init_handler
      ∧ pending_acks h1 = pending_acks init_handler
      ∧ serial_out h1 = serial_out init_handler
      ∧ message_buffer h1 !! env_id env_m1 = Some EmptyString
      ∧ untouched (env_id env_m1) (run_ops ops_after_empty h1)
      ∧ message_buffer (run_ops ops_after_empty h1) !! env_id env_m1 = Some EmptyString.
Proof.
  apply (send_empty_message_lost env_m1 LOW init_handler ops_after_empty).
  - split; [| split]; [intros []; constructor | reflexivity | constructor].
  - repeat constructor; cbn; try discriminate; intros k E; discriminate E.
Defined.

(** ** The sender loop *)

Lemma del_pending_frame k h :
  send_queue (del_pending k h).2 = send_queue h
  ∧ serial_out (del_pending k h).2 = serial_out h
  ∧ signal_stats (del_pending k h).2 = signal_stats h
  ∧ message_buffer (del_pending k h).2 = message_buffer h.
Proof. unfold del_pending. by destruct (od_get _ _). Qed.

Lemma check_entry_frame now envs entry h :
  serial_out (check_entry now envs entry h).2 = serial_out h
  ∧ packet_loss (signal_stats (check_entry now envs entry h).2)
    = packet_loss (signal_stats h).
Proof.
  destruct entry as [k ts]. unfold check_entry.
  destruct (timed_out now ts); [| done].
  destruct (message_buffer h !! k) as [m|].
  - destruct (send_message_frame (envs k) m HIGH (bump_retransmissions h))
      as (_ & H2 & _ & _ & _ & H6 & _).
    destruct (send_message _ _ _ _) as [[r|e] h1]; cbn [snd] in *.
    + destruct (del_pending_frame k h1) as (_ & D2 & D3 & _).
      by rewrite D2, D3, H2, H6.
    + by rewrite H2, H6.
  - destruct (del_pending_frame k h) as (_ & D2 & D3 & _). by rewrite D2, D3.
Qed.

Lemma check_entries_frame now envs items :
  ∀ h, serial_out (check_entries now envs items h).2 = serial_out h
       ∧ packet_loss (signal_stats (check_entries now envs items h).2)
         = packet_loss (signal_stats h).
Proof.
  induction items as [|entry items IH]; intros h; [done |].
  cbn [check_entries].
  destruct (check_entry_frame now envs entry h) as [H1 H2].
  destruct (check_entry now envs entry h) as [[[]|e] h1]; cbn [snd] in *; [| done].
  destruct (IH h1) as [H3 H4]. by rewrite H3, H4, H1, H2.
Qed.

Lemma first_nonempty_spec (qs : SendQueues) :
  match first_nonempty qs with
  | None => ∀ p, queue_of p qs = []
  | Some p =>
    queue_of p qs ≠ [] ∧ ∀ p', (value p' < value p)%Z → queue_of p' qs = []
  end.
Proof.
  unfold first_nonempty.
  destruct (q_high qs) eqn:Eh; cbn.
  - destruct (q_medium qs) eqn:Em; cbn.
    + destruct (q_low qs) eqn:El; cbn.
      * by intros [].
      * split; [by rewrite El |]. intros [] ?; cbn in *; done || lia.
    + split; [by rewrite Em |]. intros [] ?; cbn in *; done || lia.
  - split; [by rewrite Eh |]. intros [] ?; cbn in *; lia.
Qed.

(** The claim of C7 fails on the code: with a LOW and a MEDIUM message
    waiting, six HIGH frames in a row are transmitted (more than a burst of
    4, and LOW has not resumed within 5 frames), and the two messages are
    still queued. *)
Lemma burst_bound_counterexample :
  map w_id (serial_out (run_ops burst_trace init_handler))
  = ["H1"; "H2"; "H3"; "H4"; "H5"; "H6"]%string
  ∧ queued_ids (q_medium (send_queue (run_ops burst_trace init_handler)))
    = ["M1"%string]
  ∧ queued_ids (q_low (send_queue (run_ops burst_trace init_handler)))
    = ["L1"%string].
Proof. vm_compute. repeat split. Qed.

(** C7, as the code has it. One iteration of the sender loop writes at
    most one frame, the head of the first non-empty queue in the order
    HIGH, MEDIUM, LOW as the queues are after the retransmission sweep:
    strict priority with no burst bound. When the HIGH queue is not empty
    the frame comes from it, and a queue is served only when every queue of
    higher priority is empty; nothing is written when the sweep raises.
    With a working radio and at most two entries in that queue the frame
    is written. *)
Theorem send_loop_strict_priority (env : IterEnv) (h : LoRaProtocolHandler) :
  match _check_pending_acks (sweep_now env) (resend_env env) h with
  | (Raise _, _) => serial_out (_send_loop env h) = serial_out h
  | (Return _, h1) =>
    match first_nonempty (send_queue h1) with
    | None =>
      (∀ p, queue_of p (send_queue h1) = [])
      ∧ serial_out (_send_loop env h) = serial_out h
    | Some p =>
      (q_high (send_queue h1) ≠ [] → p = HIGH)
      ∧ (∀ p', (value p' < value p)%Z → queue_of p' (send_queue h1) = [])
      ∧ ∃ it,
          head (queue_of p (send_queue h1)) = Some it
          ∧ (serial_out (_send_loop env h) = serial_out h
             ∨ serial_out (_send_loop env h) = serial_out h ++ [frame_of it.2])
          ∧ (radio_ok env = true → length (queue_of p (send_queue h1)) ≤ 2 →
             serial_out (_send_loop env h) = serial_out h ++ [frame_of it.2])
    end
  end.
Proof.
  unfold _send_loop, send_loop_try, _check_pending_acks.
  destruct (check_entries_frame (sweep_now env) (resend_env env) (pending_acks h) h)
    as [Hser _].
  destruct (check_entries _ _ _ h) as [[[]|e] h1]; cbn [snd] in *; [| done].
  pose proof (first_nonempty_spec (send_queue h1)) as Hspec.
  destruct (first_nonempty (send_queue h1)) as [p|]; [| by split].
  destruct Hspec as [Hne Hhigher].
  split.
  { intros Hh. destruct p; [done | |]; exfalso; apply Hh; apply (Hhigher HIGH); cbn; lia. }
  split; [done |].
  destruct (queue_of p (send_queue h1)) as [|it q0] eqn:Eq; [done |].
  exists it. split; [done |].
  assert (Hsend : ∀ q' ok,
             serial_out (_send_packet (tx_now env) ok it.2 (with_queue p q' h1)).2
             = if ok then serial_out h ++ [frame_of it.2] else serial_out h).
  { intros q' ok. unfold _send_packet. destruct ok; [cbn; by rewrite Hser |].
    cbv zeta.
    match goal with |- context [put ?a ?b] => destruct (put a b) end. cbn. done. }
  split.
  - pose proof (get_nowait_head (it :: q0)) as Hhd.
    destruct (get_nowait (it :: q0)) as [[[v packet]|e] q']; cbn [fst snd] in *.
    + specialize (Hhd _ eq_refl). cbn [head] in Hhd. injection Hhd as ->.
      cbn [snd] in *. rewrite Hsend. destruct (radio_ok env); eauto.
    + by left.
  - intros Hok Hlen.
    destruct (get_nowait_short (it :: q0) it eq_refl Hlen) as [q' ->].
    destruct it as [v packet]. cbn [snd] in *. rewrite Hsend, Hok. done.
Qed.

(** ** The retransmission sweep *)

Lemma od_get_None_keys {V} (k : string) (d : list (string * V)) :
  od_get k d = None ↔ k ∉ map fst d.
Proof.
  induction d as [|[k0 v0] d IH]; cbn.
  - split; [intros _ H; by apply elem_of_nil in H | done].
  - destruct (String.eqb_spec k0 k) as [-> | Hne].
    + split; [done |]. intros H. exfalso. apply H. left.
    + rewrite IH. rewrite not_elem_of_cons. split; [by split | by intros [_ ?]].
Qed.

Lemma od_del_app_fresh {V} (k : string) (v : V) (kept rest : list (string * V)) :
  k ∉ map fst kept → od_del k (kept ++ (k, v) :: rest) = kept ++ rest.
Proof.
  induction kept as [|[k0 v0] kept IH]; cbn; intros Hk.
  - by rewrite String.eqb_refl.
  - apply not_elem_of_cons in Hk as [Hne Hk].
    destruct (String.eqb_spec k0 k); [congruence |]. by rewrite IH.
Qed.

Lemma od_get_app_fresh {V} (k : string) (v : V) (kept rest : list (string * V)) :
  k ∉ map fst kept → od_get k (kept ++ (k, v) :: rest) = Some v.
Proof.
  induction kept as [|[k0 v0] kept IH]; cbn; intros Hk.
  - by rewrite String.eqb_refl.
  - apply not_elem_of_cons in Hk as [Hne Hk].
    destruct (String.eqb_spec k0 k); [congruence |]. by rewrite IH.
Qed.

Lemma check_entry_pending now envs k ts h h' :
  check_entry now envs (k, ts) h = (Return tt, h') →
  pending_acks h'
  = if timed_out now ts then od_del k (pending_acks h) else pending_acks h.
Proof.
  unfold check_entry. destruct (timed_out now ts); [| by intros [= <-]].
  assert (Hdel : ∀ h0, del_pending k h0 = (Return tt, h') →
                       pending_acks h' = od_del k (pending_acks h0)).
  { intros h0. unfold del_pending. destruct (od_get _ _); [| done]. by intros [= <-]. }
  destruct (message_buffer h !! k) as [m|]; [| apply Hdel].
  destruct (send_message_frame (envs k) m HIGH (bump_retransmissions h))
    as (_ & _ & H3 & _).
  destruct (send_message _ _ _ _) as [[r|e] h1]; cbn [snd] in *; [| done].
  intros Hd. apply Hdel in Hd. by rewrite Hd, H3.
Qed.

(** After a sweep that returns, the trackers are the ones that had not
    timed out, in their order. *)
Lemma check_entries_pending now envs items :
  ∀ kept h h',
    pending_acks h = kept ++ items →
    NoDup (map fst (kept ++ items)) →
    check_entries now envs items h = (Return tt, h') →
    pending_acks h' = kept ++ filter (λ e, timed_out now e.2 = false) items.
Proof.
  induction items as [|[k ts] items IH]; intros kept h h' Hp Hnd; cbn [check_entries].
  - intros [= <-]. by rewrite filter_nil.
  - destruct (check_entry now envs (k, ts) h) as [[[]|e] h1] eqn:E; [| done].
    apply check_entry_pending in E. intros Hrest.
    rewrite filter_cons. cbn [snd].
    destruct (timed_out now ts) eqn:Et.
    + rewrite decide_False by done.
      apply (IH kept h1); [| | done].
      * rewrite E, Hp. apply od_del_app_fresh.
        rewrite map_app in Hnd. cbn in Hnd.
        apply NoDup_app in Hnd as (_ & Hd & _).
        intros Hin. apply (Hd k Hin). left.
      * rewrite map_app in Hnd |- *. cbn in Hnd.
        apply NoDup_app in Hnd as (N1 & N2 & N3).
        apply NoDup_cons in N3 as [N3 N4].
        apply NoDup_app. split_and!; [done | | done].
        intros x Hx Hx'. apply (N2 x Hx). by right.
    + rewrite decide_True by done.
      rewrite (IH (kept ++ [(k, ts)]) h1 h'); [| | | done].
      * by rewrite <- app_assoc.
      * by rewrite E, Hp, <- app_assoc.
      * by rewrite <- app_assoc.
Qed.

Lemma check_entry_retransmit now envs k ts h h' :
  check_entry now envs (k, ts) h = (Return tt, h') →
  (∀ y, y ∈ q_high (send_queue h) → y ∈ q_high (send_queue h'))
  ∧ (∀ k', k' ≠ env_id (envs k) → message_buffer h' !! k' = message_buffer h !! k')
  ∧ match message_buffer h !! k with
    | Some msg =>
      if timed_out now ts then
        retransmissions (signal_stats h') = retransmissions (signal_stats h) + 1
        ∧ ∀ f, f ∈ _fragment_message (env_clock (envs k)) (env_id (envs k)) msg →
               (value HIGH, f) ∈ q_high (send_queue h')
      else retransmissions (signal_stats h') = retransmissions (signal_stats h)
    | None => retransmissions (signal_stats h') = retransmissions (signal_stats h)
    end.
Proof.
  unfold check_entry.
  destruct (timed_out now ts).
  2:{ intros [= <-]. split_and!; try done. by destruct (message_buffer h !! k). }
  destruct (message_buffer h !! k) as [m|] eqn:Em.
  - destruct (send_message_frame (envs k) m HIGH (bump_retransmissions h))
      as (_ & _ & _ & _ & H5 & H6 & _ & _ & H9 & H10).
    destruct (send_message _ _ _ _) as [[r|e] h1]; [| done].
    cbn [fst snd] in *. intros Hd.
    destruct (del_pending_frame k h1) as (D1 & _ & D3 & D4).
    rewrite Hd in D1, D3, D4. cbn [snd] in *.
    rewrite D1, D3, D4, H6, H5. split_and!.
    + intros y Hy. by apply (H9 y).
    + intros k' Hk'. by rewrite lookup_insert_ne.
    + reflexivity.
    + intros f Hf. destruct (H10 r eq_refl) as [_ Hall]. by apply Hall.
  - intros Hd.
    destruct (del_pending_frame k h) as (D1 & _ & D3 & D4).
    rewrite Hd in D1, D3, D4. cbn [snd] in *. by rewrite D1, D3, D4.
Qed.

Lemma check_entries_retransmit now envs (B0 : gmap string string) items :
  ∀ h h',
    (∀ e, e ∈ items → message_buffer h !! e.1 = B0 !! e.1) →
    (∀ k, env_id (envs k) ∉ map fst items) →
    check_entries now envs items h = (Return tt, h') →
    (∀ y, y ∈ q_high (send_queue h) → y ∈ q_high (send_queue h'))
    ∧ retransmissions (signal_stats h')
      = retransmissions (signal_stats h)
        + length (filter (λ e, timed_out now e.2 = true ∧ is_Some (B0 !! e.1)) items)
    ∧ (∀ k ts msg f,
         (k, ts) ∈ items → timed_out now ts = true → B0 !! k = Some msg →
         f ∈ _fragment_message (env_clock (envs k)) (env_id (envs k)) msg →
         (value HIGH, f) ∈ q_high (send_queue h')).
Proof.
  induction items as [|[k ts] items IH]; intros h h' Hbuf Hfresh; cbn [check_entries].
  - intros [= <-]. split_and!; [done | by rewrite filter_nil; cbn; lia |].
    intros ???? Hin. by apply elem_of_nil in Hin.
  - destruct (check_entry now envs (k, ts) h) as [[[]|e] h1] eqn:E; [| done].
    apply check_entry_retransmit in E as (Q1 & B1 & R1). intros Hrest.
    destruct (IH h1 h') as (Q2 & R2 & F2); [| | done |].
    + intros e He. rewrite B1.
      * apply Hbuf. by right.
      * intros Heq. apply (Hfresh k). cbn [map]. right. rewrite <- Heq.
        apply list_elem_of_fmap. eauto.
    + intros k' Hin. apply (Hfresh k'). cbn [map]. by right.
    + assert (Hk : message_buffer h !! k = B0 !! k) by (apply (Hbuf (k, ts)); left).
      rewrite Hk in R1. split_and!.
      * intros y Hy. by apply Q2, Q1.
      * rewrite R2, filter_cons. cbn [fst snd].
        destruct (B0 !! k) as [msg|] eqn:EB.
        -- destruct (timed_out now ts).
           ++ destruct R1 as [R1 _]. rewrite decide_True by eauto. cbn [length]. lia.
           ++ rewrite decide_False by (intros [? _]; done). lia.
        -- rewrite decide_False by (intros [_ []]; done). lia.
      * intros k0 ts0 msg f Hin Hto HB Hf.
        apply elem_of_cons in Hin as [[= -> ->] | Hin]; [| by eapply F2].
        rewrite HB, Hto in R1. destruct R1 as [_ R1]. by apply Q2, R1.
Qed.

(** The claim of C3 fails on the code: after the sweep of one timed-out
    tracker for [m1], the tracker is gone at the first retry, the fragment
    on the HIGH queue carries the new id [r_m1], not [m1] (the message was
    fragmented again), and [packet_loss] is still 0. *)
Lemma retransmission_counterexample :
  let h' := (_check_pending_acks 3 (resend_env (iter_env 3)) h_pending).2 in
  queued_ids (q_high (send_queue h')) = ["r_m1"%string]
  ∧ pending_acks h' = []
  ∧ retransmissions (signal_stats h') = 1
  ∧ packet_loss (signal_stats h') = 0
  ∧ message_buffer h' !! "r_m1"%string = Some "hi"%string.
Proof. vm_compute. repeat split. Qed.

(** C3, as the code has it. A sweep that returns deletes every tracker
    whose last send is older than [ACK_TIMEOUT] and keeps the others; for
    each deleted tracker whose message is in [message_buffer] it adds one
    to [retransmissions] and submits the message again through
    [send_message] at HIGH priority, which fragments it anew under the id
    the call generates and puts the fragments on the HIGH queue. *)
Theorem check_pending_acks_policy
    (now : Q) (envs : string → CallEnv) (h h' : LoRaProtocolHandler) :
  NoDup (tracked h) →
  (∀ k, env_id (envs k) ∉ tracked h) →
  _check_pending_acks now envs h = (Return tt, h') →
  pending_acks h' = filter (λ e, timed_out now e.2 = false) (pending_acks h)
  ∧ retransmissions (signal_stats h')
    = retransmissions (signal_stats h)
      + length (filter (λ e, timed_out now e.2 = true
                             ∧ is_Some (message_buffer h !! e.1))
                  (pending_acks h))
  ∧ (∀ k ts msg f,
       (k, ts) ∈ pending_acks h → timed_out now ts = true →
       message_buffer h !! k = Some msg →
       f ∈ _fragment_message (env_clock (envs k)) (env_id (envs k)) msg →
       (value HIGH, f) ∈ q_high (send_queue h')).
Proof.
  unfold _check_pending_acks, tracked. intros Hnd Hfresh Hsweep.
  split.
  - by apply (check_entries_pending now envs (pending_acks h) [] h h').
  - destruct (check_entries_retransmit now envs (message_buffer h)
                (pending_acks h) h h') as (_ & R & F); done.
Qed.

Lemma check_pending_acks_policy_witness :
  ∃ h',
    _check_pending_acks 3 (resend_env (iter_env 3)) h_pending = (Return tt, h')
    ∧ pending_acks h'
      = filter (λ e, timed_out 3 e.2 = false) (pending_acks h_pending)
    ∧ retransmissions (signal_stats h')
      = retransmissions (signal_stats h_pending)
        + length (filter (λ e, timed_out 3 e.2 = true
                               ∧ is_Some (message_buffer h_pending !! e.1))
                    (pending_acks h_pending))
    ∧ (∀ k ts msg f,
         (k, ts) ∈ pending_acks h_pending → timed_out 3 ts = true →
         message_buffer h_pending !! k = Some msg →
         f ∈ _fragment_message (env_clock (resend_env (iter_env 3) k))
               (env_id (resend_env (iter_env 3) k)) msg →
         (value HIGH, f) ∈ q_high (send_queue h')).
Proof.
  eexists. split; [vm_compute; reflexivity |].
  apply (check_pending_acks_policy 3 (resend_env (iter_env 3)) h_pending).
  - repeat constructor. intros H. by apply elem_of_nil in H.
  - intros k H. apply list_elem_of_singleton in H. discriminate H.
  - vm_compute. reflexivity.
Defined.

(** * Properties of the mesh layer *)

(** ** DATA dispatch *)

(** Where [_handle_data] does what the specification says: delivery to the
    local node, forwarding when the link layer accepts the envelope, a drop
    without a route, and ignoring an envelope meant for another relay. *)
Lemma handle_data_cases (dumps_data : DataMsg → string) (env : CallEnv)
    (data : DataMsg) (m : MeshNetworkManager) :
  (d_destination data = node_id m →
   _handle_data dumps_data env data m
   = (Return tt, with_log (log m ++ [LogReceived (d_source data) (d_payload data)]) m))
  ∧ (d_destination data ≠ node_id m → d_next_hop data = node_id m →
     ∀ next_hop id l,
       routing_table m !! d_destination data = Some next_hop →
       send_message env (dumps_data (set_next_hop next_hop data)) MEDIUM (lora m)
       = (Return id, l) →
       ∃ m', _handle_data dumps_data env data m = (Return tt, m')
             ∧ lora m' = l
             ∧ messages_forwarded (stats m') = messages_forwarded (stats m) + 1
             ∧ routing_table m' = routing_table m)
  ∧ (d_destination data ≠ node_id m → d_next_hop data = node_id m →
     routing_table m !! d_destination data = None →
     _handle_data dumps_data env data m
     = (Return tt, with_log (log m ++ [LogNoRoute (d_destination data)]) m))
  ∧ (d_destination data ≠ node_id m → d_next_hop data ≠ node_id m →
     _handle_data dumps_data env data m = (Return tt, m)).
Proof.
  unfold _handle_data. split_and!.
  - intros ->. by rewrite String.eqb_refl.
  - intros Hd Hn next_hop id l Hr Hs.
    apply String.eqb_neq in Hd. rewrite Hd, Hn, String.eqb_refl, Hr, Hs.
    eexists. split; [reflexivity |]. done.
  - intros Hd Hn Hr.
    apply String.eqb_neq in Hd. by rewrite Hd, Hn, String.eqb_refl, Hr.
  - intros Hd Hn.
    apply String.eqb_neq in Hd. apply String.eqb_neq in Hn. by rewrite Hd, Hn.
Qed.

(** C8, where the code departs from it. An envelope to forward whose
    serialisation is longer than one payload is not re-queued: the link
    layer's [send_message] raises [TypeError] while putting its fragments,
    the exception leaves [_handle_data] before the counters are touched, so
    [messages_forwarded] is not incremented. *)
Theorem handle_data_forward_large_raises (dumps_data : DataMsg → string)
    (env : CallEnv) (data : DataMsg) (m : MeshNetworkManager) (next_hop : string) :
  d_destination data ≠ node_id m →
  d_next_hop data = node_id m →
  routing_table m !! d_destination data = Some next_hop →
  length (str_encode (dumps_data (set_next_hop next_hop data)))
    > MAX_PACKET_SIZE - HEADER_SIZE →
  queue_wf MEDIUM (q_medium (send_queue (lora m))) →
  queue_fresh (env_id env) (q_medium (send_queue (lora m))) →
  ∃ m',
    _handle_data dumps_data env data m = (Raise TypeError, m')
    ∧ messages_forwarded (stats m') = messages_forwarded (stats m)
    ∧ total_bandwidth (stats m') = total_bandwidth (stats m)
    ∧ message_buffer (lora m') !! env_id env
      = Some (dumps_data (set_next_hop next_hop data)).
Proof.
  intros Hd Hn Hr Hlen Hwf Hfresh. unfold _handle_data.
  apply String.eqb_neq in Hd. rewrite Hd, Hn, String.eqb_refl, Hr.
  pose proof (fragment_count_ge_2 _ Hlen) as Hcnt.
  unfold send_message. rewrite fragment_message_unfold.
  destruct (put_fragments_multi_raises (env_clock env) (env_id env)
              (dumps_data (set_next_hop next_hop data)) MEDIUM
              (with_message_buffer
                 (<[env_id env := dumps_data (set_next_hop next_hop data)]>
                    (message_buffer (lora m))) (lora m))
              Hcnt Hwf Hfresh) as (l & -> & Hbuf & _).
  eexists. split; [reflexivity |]. split_and!; try done.
  cbn. rewrite Hbuf. cbn. apply lookup_insert_eq.
Qed.

Lemma handle_data_forward_large_raises_witness :
  ∃ m',
    _handle_data json_data (env_of "f1") data_600 m_relay = (Raise TypeError, m')
    ∧ messages_forwarded (stats m') = messages_forwarded (stats m_relay)
    ∧ total_bandwidth (stats m') = total_bandwidth (stats m_relay)
    ∧ message_buffer (lora m') !! env_id (env_of "f1")
      = Some (json_data (set_next_hop "C" data_600)).
Proof.
  apply (handle_data_forward_large_raises json_data (env_of "f1") data_600 m_relay "C").
  - discriminate.
  - reflexivity.
  - reflexivity.
  - vm_compute. lia.
  - constructor.
  - constructor.
Defined.

(** ** ROUTE_UPDATE handling *)

Lemma merge_routes_ok (sender : string) (d : nat) (routes : list (string * string)) :
  ∀ m,
    shortest_path_length (network_graph m) (node_id m) sender = Return d →
    ∃ m',
      merge_routes sender routes m = (Return tt, m')
      ∧ routing_table m'
        = (if d <? MAX_HOPS
           then merged_table (node_id m) routes (routing_table m)
           else routing_table m)
      ∧ node_id m' = node_id m ∧ nodes m' = nodes m
      ∧ network_graph m' = network_graph m ∧ lora m' = lora m
      ∧ stats m' = stats m ∧ log m' = log m.
Proof.
  induction routes as [|[dest next_hop] routes IH]; intros m Hd.
  - eexists. split; [reflexivity |]. by destruct (d <? MAX_HOPS).
  - cbn [merge_routes merged_table foldl fst snd].
    destruct (String.eqb dest (node_id m)); cbn [negb]; [by apply IH |].
    rewrite Hd. destruct (d <? MAX_HOPS) eqn:E; [| by apply IH].
    destruct (IH (with_routing_table (<[dest := next_hop]> (routing_table m)) m))
      as (m' & Hm & Ht & Hrest); [done |].
    exists m'. split; [done |]. split; [exact Ht | exact Hrest].
Qed.

Lemma merged_table_cons self d nh routes t :
  merged_table self ((d, nh) :: routes) t
  = merged_table self routes (if String.eqb d self then t else <[d := nh]> t).
Proof. reflexivity. Qed.

Lemma merged_table_self self routes :
  ∀ t, merged_table self routes t !! self = t !! self.
Proof.
  induction routes as [|[dest nh] routes IH]; intros t; [done |].
  rewrite merged_table_cons.
  destruct (String.eqb_spec dest self) as [-> | Hne]; [apply IH |].
  rewrite IH. by rewrite lookup_insert_ne.
Qed.

Lemma merged_table_other self routes dest :
  dest ∉ map fst routes →
  ∀ t, merged_table self routes t !! dest = t !! dest.
Proof.
  induction routes as [|[d nh] routes IH]; intros Hd t; [done |].
  cbn [map fst] in Hd. apply not_elem_of_cons in Hd as [Hne Hd].
  rewrite merged_table_cons.
  rewrite IH by done.
  destruct (String.eqb d self); [done |]. by rewrite lookup_insert_ne.
Qed.

Lemma merged_table_advertised self routes dest :
  dest ≠ self → dest ∈ map fst routes →
  ∀ t, ∃ next_hop, (dest, next_hop) ∈ routes
                   ∧ merged_table self routes t !! dest = Some next_hop.
Proof.
  intros Hself.
  induction routes as [|[d nh] routes IH]; intros Hd t;
    [by apply elem_of_nil in Hd |].
  rewrite merged_table_cons.
  destruct (decide (dest ∈ map fst routes)) as [Hin | Hnin].
  - destruct (IH Hin (if String.eqb d self then t else <[d := nh]> t))
      as (nh' & Hnh & Hl).
    exists nh'. split; [by right | done].
  - cbn [map fst] in Hd. apply elem_of_cons in Hd as [-> | Hd]; [| done].
    exists nh. split; [left |].
    rewrite merged_table_other by done.
    apply String.eqb_neq in Hself. rewrite Hself. apply lookup_insert_eq.
Qed.

(** The claim of C4 fails on the code: node A has equal-weight links to X
    and B and routes D through B. A ROUTE_UPDATE from X advertising
    (D, Y) makes the entry for D the advertised next hop Y, not X; and
    one advertising (D, X) replaces B although the first-hop weights tie,
    where the claim keeps the current entry. *)
Lemma route_update_counterexample :
  routing_table (_handle_route_update "X" [("D", "Y")] m_tie).2 !! "D" = Some "Y"
  ∧ routing_table m_tie !! "D" = Some "B"
  ∧ (network_graph m_tie !! "A" ≫= (.!! "X")) = (network_graph m_tie !! "A" ≫= (.!! "B"))
  ∧ routing_table (_handle_route_update "X" [("D", "X")] m_tie).2 !! "D" = Some "X".
Proof. vm_compute. repeat split. Qed.

(** What [_handle_route_update] writes, entry by entry. *)
Lemma handle_route_update_table
    (sender : string) (routes : list (string * string))
    (m : MeshNetworkManager) (d : nat) :
  is_Some (nodes m !! sender) →
  shortest_path_length (network_graph m) (node_id m) sender = Return d →
  ∃ m',
    _handle_route_update sender routes m = (Return tt, m')
    ∧ nodes m' = nodes m ∧ network_graph m' = network_graph m
    ∧ routing_table m'
      = (if d <? MAX_HOPS
         then merged_table (node_id m) routes (routing_table m)
         else routing_table m).
Proof.
  intros [n Hn] Hd. unfold _handle_route_update. rewrite Hn.
  destruct (merge_routes_ok sender d routes m Hd)
    as (m' & Hm & Ht & _ & Hnodes & Hg & _).
  exists m'. done.
Qed.

Lemma merged_table_independent self routes dest :
  dest ≠ self → dest ∈ map fst routes →
  ∀ t1 t2, merged_table self routes t1 !! dest = merged_table self routes t2 !! dest.
Proof.
  intros Hself Hin t1 t2.
  destruct (merged_table_advertised self routes dest Hself Hin t1) as (n1 & _ & H1).
  revert t1 t2 n1 H1.
  induction routes as [|[d nh] routes IH]; intros t1 t2 n1 H1;
    [by apply elem_of_nil in Hin |].
  rewrite !merged_table_cons in *.
  destruct (decide (dest ∈ map fst routes)) as [Hin' | Hnin].
  - destruct (merged_table_advertised self routes dest Hself Hin'
                (if String.eqb d self then t1 else <[d := nh]> t1)) as (n' & _ & Hn').
    by apply (IH Hin' _ _ n').
  - cbn [map fst] in Hin. apply elem_of_cons in Hin as [-> | Hin]; [| done].
    rewrite !merged_table_other by done.
    apply String.eqb_neq in Hself. rewrite Hself. by rewrite !lookup_insert_eq.
Qed.

(** C4, as the code has it. For a ROUTE_UPDATE from a known node X at
    hop distance at most [MAX_HOPS - 1] in the local graph, every advertised
    destination other than the local node gets an entry in the routing
    table, and that entry is the same whatever the table held before and
    whatever the edge weights are: the current entry is overwritten, no
    weights are compared. The local node never becomes a key, entries of
    destinations not advertised are unchanged, and beyond that distance the
    table is unchanged. *)
Theorem handle_route_update_overwrites
    (sender : string) (routes : list (string * string))
    (m : MeshNetworkManager) (d : nat) :
  is_Some (nodes m !! sender) →
  shortest_path_length (network_graph m) (node_id m) sender = Return d →
  ∃ m',
    _handle_route_update sender routes m = (Return tt, m')
    ∧ nodes m' = nodes m ∧ network_graph m' = network_graph m
    ∧ routing_table m' !! node_id m = routing_table m !! node_id m
    ∧ (∀ dest, dest ∉ map fst routes →
               routing_table m' !! dest = routing_table m !! dest)
    ∧ (d ≤ MAX_HOPS - 1 →
       ∀ dest, dest ≠ node_id m → dest ∈ map fst routes →
         is_Some (routing_table m' !! dest)
         ∧ ∀ m2 d2,
             node_id m2 = node_id m → is_Some (nodes m2 !! sender) →
             shortest_path_length (network_graph m2) (node_id m2) sender = Return d2 →
             d2 ≤ MAX_HOPS - 1 →
             routing_table (_handle_route_update sender routes m2).2 !! dest
             = routing_table m' !! dest)
    ∧ (MAX_HOPS ≤ d → routing_table m' = routing_table m).
Proof.
  intros Hn Hd.
  destruct (handle_route_update_table sender routes m d Hn Hd)
    as (m' & Hm & Hnodes & Hg & Ht).
  exists m'. split; [done |]. split; [done |]. split; [done |].
  destruct (Nat.ltb_spec d MAX_HOPS) as [Hlt | Hge]; rewrite Ht.
  - split; [apply merged_table_self |].
    split; [intros dest Hnin; by apply merged_table_other |].
    split; [| unfold MAX_HOPS in *; lia].
    intros _ dest Hne Hin. split.
    + destruct (merged_table_advertised (node_id m) routes dest Hne Hin
                  (routing_table m)) as (nh & _ & ->). eauto.
    + intros m2 d2 Hid2 Hn2 Hd2 Hle2.
      destruct (handle_route_update_table sender routes m2 d2 Hn2 Hd2)
        as (m2' & -> & _ & _ & Ht2).
      cbn [snd]. rewrite Ht2.
      assert (E : (d2 <? MAX_HOPS) = true)
        by (apply Nat.ltb_lt; unfold MAX_HOPS in *; lia).
      rewrite E, Hid2. by apply merged_table_independent.
  - split; [done |]. split; [done |].
    split; [unfold MAX_HOPS in *; lia | done].
Qed.

Lemma handle_route_update_overwrites_witness :
  ∃ m',
    _handle_route_update "X" [("D", "X")] m_tie = (Return tt, m')
    ∧ nodes m' = nodes m_tie ∧ network_graph m' = network_graph m_tie
    ∧ routing_table m' !! node_id m_tie = routing_table m_tie !! node_id m_tie
    ∧ (∀ dest, dest ∉ map fst [("D", "X")] →
               routing_table m' !! dest = routing_table m_tie !! dest)
    ∧ (1 ≤ MAX_HOPS - 1 →
       ∀ dest, dest ≠ node_id m_tie → dest ∈ map fst [("D", "X")] →
         is_Some (routing_table m' !! dest)
         ∧ ∀ m2 d2,
             node_id m2 = node_id m_tie → is_Some (nodes m2 !! "X") →
             shortest_path_length (network_graph m2) (node_id m2) "X" = Return d2 →
             d2 ≤ MAX_HOPS - 1 →
             routing_table (_handle_route_update "X" [("D", "X")] m2).2 !! dest
             = routing_table m' !! dest)
    ∧ (MAX_HOPS ≤ 1 → routing_table m' = routing_table m_tie).
Proof.
  apply (handle_route_update_overwrites "X" [("D", "X")] m_tie 1).
  - vm_compute. eauto.
  - vm_compute. reflexivity.
Defined.

(** ** Paths *)

Lemma simple_paths_walk (fuel : nat) :
  ∀ (G : gmap string (gmap string Q)) visited u t pc,
    pc ∈ simple_paths fuel G visited u t →
    head pc.1 = Some u ∧ last pc.1 = Some t ∧ is_walk G pc.1.
Proof.
  induction fuel as [|fuel IH]; intros G visited u t pc; cbn [simple_paths].
  - destruct (decide (u = t)) as [-> | _]; [| by intros ?%elem_of_nil].
    intros ->%list_elem_of_singleton. done.
  - destruct (decide (u = t)) as [-> | _].
    { intros ->%list_elem_of_singleton. done. }
    intros Hpc. apply list_elem_of_In, in_concat in Hpc as (l & Hl & Hpc).
    apply list_elem_of_In, list_elem_of_fmap in Hl as ([v w] & -> & Hvw).
    apply list_elem_of_In in Hpc. cbn [fst snd] in Hpc.
    destruct (decide (v ∈ visited)); [by apply elem_of_nil in Hpc |].
    apply list_elem_of_fmap in Hpc as ([p c] & -> & Hp).
    apply IH in Hp as (Hh & Hl & Hw). cbn [fst snd] in *.
    apply elem_of_map_to_list in Hvw.
    destruct (G !! u) as [adj|] eqn:Eu; cbn [default] in Hvw;
      [| by rewrite lookup_empty in Hvw].
    destruct p as [|a p]; [done |]. cbn [head] in Hh. injection Hh as ->.
    split_and!; [done | done |].
    cbn [is_walk]. split; [| done]. rewrite Eu. cbn. eauto.
Qed.

Lemma min_path_elem (l : list (list string * Q)) (x : list string * Q) :
  min_path l = Some x → x ∈ l.
Proof.
  revert x. induction l as [|y l IH]; intros x; cbn [min_path]; [done |].
  destruct (min_path l) as [z|].
  - destruct (Qle_bool _ _); intros [= <-]; [left | right; by apply IH].
  - intros [= <-]. left.
Qed.

(** The reference implementation meets the contract. *)
Lemma least_weight_path_contract : shortest_path_contract least_weight_path.
Proof.
  intros G s t. unfold least_weight_path.
  destruct (decide (s ∈ dom G ∧ t ∈ dom G)) as [Hin | Hout]; [| by left].
  destruct (min_path _) as [pc|] eqn:E; [| by right].
  apply min_path_elem in E. by apply simple_paths_walk in E.
Qed.

Lemma is_walk_ext (G G' : gmap string (gmap string Q)) (p : list string) :
  (∀ a b, is_Some (G !! a ≫= (.!! b)) → is_Some (G' !! a ≫= (.!! b))) →
  is_walk G p → is_walk G' p.
Proof.
  intros Hext. induction p as [|a [|b p] IH]; cbn [is_walk]; [done | done |].
  intros [H1 H2]. split; [by apply Hext | by apply IH].
Qed.

(** A walk between two different nodes has a second node, adjacent to the
    first. *)
Lemma walk_second (G : gmap string (gmap string Q)) (p : list string) (s t : string) :
  head p = Some s → last p = Some t → s ≠ t → is_walk G p →
  ∃ v, p !! 1 = Some v ∧ is_Some (G !! s ≫= (.!! v)).
Proof.
  destruct p as [|a [|b p]]; cbn; intros Hh Hl Hne Hw; [done | congruence |].
  injection Hh as ->. destruct Hw as [Hw _]. eauto.
Qed.

(** ** The rebuilt routing table *)

Lemma build_routes_lookup
    (sp : gmap string (gmap string Q) → string → string → outcome (list string))
    (G : gmap string (gmap string Q)) (self : string) (dests : list string) :
  ∀ acc new,
    build_routes sp G self dests acc = Return new →
    ∀ k v, new !! k = Some v →
           acc !! k = Some v
           ∨ (k ≠ self ∧ ∃ p, sp G self k = Return p
                              ∧ length p ≤ MAX_HOPS ∧ p !! 1 = Some v).
Proof.
  induction dests as [|dest dests IH]; intros acc new; cbn [build_routes].
  - intros [= <-] k v Hk. by left.
  - destruct (String.eqb_spec dest self) as [-> | Hne]; [apply IH |].
    destruct (sp G self dest) as [path|e] eqn:Esp.
    + destruct (Nat.leb_spec (length path) MAX_HOPS) as [Hle | _]; [| apply IH].
      destruct (path !! 1) as [next_hop|] eqn:E1; [| done].
      intros Hb k v Hk.
      destruct (IH _ _ Hb k v Hk) as [Hacc | ?]; [| by right].
      destruct (decide (dest = k)) as [<- | Hdk].
      * rewrite lookup_insert_eq in Hacc. injection Hacc as <-.
        right. split; [done |]. eauto.
      * rewrite lookup_insert_ne in Hacc by done. by left.
    + destruct e; try done; apply IH.
Qed.

Lemma build_routes_total
    (sp : gmap string (gmap string Q) → string → string → outcome (list string))
    (G : gmap string (gmap string Q)) (self : string) (dests : list string) :
  shortest_path_contract sp →
  self ∈ dom G → (∀ k, k ∈ dests → k ∈ dom G) →
  ∀ acc, ∃ new, build_routes sp G self dests acc = Return new.
Proof.
  intros Hc Hself. induction dests as [|dest dests IH]; intros Hd acc;
    cbn [build_routes]; [eauto |].
  assert (Hd' : ∀ k, k ∈ dests → k ∈ dom G) by (intros k Hk; apply Hd; by right).
  destruct (String.eqb_spec dest self) as [-> | Hne]; [by apply IH |].
  pose proof (Hc G self dest) as Hsp.
  destruct (sp G self dest) as [path|e].
  - destruct (length path <=? MAX_HOPS); [| by apply IH].
    destruct Hsp as (Hh & Hl & Hw).
    destruct (walk_second G path self dest Hh Hl) as (v & -> & _); [done | done |].
    by apply IH.
  - destruct Hsp as [[-> Hnot] | ->]; [| by apply IH].
    exfalso. apply Hnot. split; [done |]. apply Hd. left.
Qed.

Lemma graph_wf_fields (m m' : MeshNetworkManager) :
  node_id m' = node_id m → nodes m' = nodes m →
  network_graph m' = network_graph m → graph_wf m → graph_wf m'.
Proof. unfold graph_wf. by intros -> -> ->. Qed.

Lemma table_ok_fields (m m' : MeshNetworkManager) :
  node_id m' = node_id m → nodes m' = nodes m →
  network_graph m' = network_graph m → routing_table m' = routing_table m →
  table_ok m → table_ok m'.
Proof. unfold table_ok. by intros -> -> -> ->. Qed.

Lemma update_routing_table_fields
    (sp : gmap string (gmap string Q) → string → string → outcome (list string))
    (du : string → list (string * string) → Q → string)
    (env : CallEnv) (now : Q) (m : MeshNetworkManager) :
  node_id (_update_routing_table sp du env now m) = node_id m
  ∧ nodes (_update_routing_table sp du env now m) = nodes m
  ∧ network_graph (_update_routing_table sp du env now m) = network_graph m
  ∧ match build_routes sp (network_graph m) (node_id m)
            (map fst (map_to_list (nodes m))) ∅ with
    | Raise _ => routing_table (_update_routing_table sp du env now m) = routing_table m
    | Return new => routing_table (_update_routing_table sp du env now m) = new
    end.
Proof.
  unfold _update_routing_table.
  destruct (build_routes _ _ _ _ _) as [new|e]; [| done].
  destruct (decide (new = routing_table m)) as [-> | _]; [done |].
  by destruct (send_message _ _ _ _) as [[?|?] ?].
Qed.

(** A table built by the rebuild loop has the three properties. *)
Lemma built_table_ok
    (sp : gmap string (gmap string Q) → string → string → outcome (list string))
    (m m' : MeshNetworkManager) :
  shortest_path_contract sp → graph_wf m →
  node_id m' = node_id m → nodes m' = nodes m →
  network_graph m' = network_graph m →
  build_routes sp (network_graph m) (node_id m)
    (map fst (map_to_list (nodes m))) ∅ = Return (routing_table m') →
  table_ok m'.
Proof.
  intros Hc (W1 & W3 & Wsym & Wirr) Hid Hn Hg Hb.
  pose proof (build_routes_lookup sp _ _ _ _ _ Hb) as Hl.
  unfold table_ok. rewrite Hid, Hn, Hg. split_and!.
  - destruct (routing_table m' !! node_id m) as [v|] eqn:E; [| done].
    destruct (Hl _ _ E) as [Habs | [Habs _]]; [by rewrite lookup_empty in Habs | done].
  - intros k v Hk.
    destruct (Hl _ _ Hk) as [Habs | (Hne & p & Hsp & Hlen & Hp1)];
      [by rewrite lookup_empty in Habs |].
    pose proof (Hc (network_graph m) (node_id m) k) as Hcon. rewrite Hsp in Hcon.
    destruct Hcon as (Hh & Hla & Hw).
    destruct (walk_second (network_graph m) p _ _ Hh Hla) as (v' & Hv' & Hadj);
      [done | done |].
    assert (v' = v) as -> by congruence.
    assert (Hvdom : v ∈ dom (network_graph m)).
    { apply Wsym in Hadj. apply elem_of_dom.
      destruct (network_graph m !! v); [eauto | by destruct Hadj]. }
    destruct (W1 v Hvdom) as [-> | ?]; [| done].
    rewrite Wirr in Hadj. by destruct Hadj.
  - intros k v Hk.
    destruct (Hl _ _ Hk) as [Habs | (Hne & p & Hsp & Hlen & Hp1)];
      [by rewrite lookup_empty in Habs |].
    pose proof (Hc (network_graph m) (node_id m) k) as Hcon. rewrite Hsp in Hcon.
    destruct Hcon as (Hh & Hla & Hw). eauto.
Qed.

(** A table with an entry has the local node in the graph. *)
Lemma table_ok_self_in_graph (m : MeshNetworkManager) (k v : string) :
  table_ok m → routing_table m !! k = Some v →
  node_id m ∈ dom (network_graph m).
Proof.
  intros (T1 & _ & T3) Hk. destruct (T3 k v Hk) as (p & Hh & Hl & Hw & _).
  assert (Hne : node_id m ≠ k) by (intros E; rewrite E in T1; congruence).
  destruct (walk_second (network_graph m) p _ _ Hh Hl Hne Hw) as (v' & _ & Hadj).
  apply elem_of_dom. destruct (network_graph m !! node_id m); [eauto | by destruct Hadj].
Qed.

(** The rebuild keeps the agreement of graph and neighbour table, and
    leaves a table with the three properties whenever the local node is in
    the graph or the table had them before. *)
Lemma update_routing_table_ok
    (sp : gmap string (gmap string Q) → string → string → outcome (list string))
    (du : string → list (string * string) → Q → string)
    (env : CallEnv) (now : Q) (m : MeshNetworkManager) :
  shortest_path_contract sp → graph_wf m →
  node_id m ∈ dom (network_graph m) ∨ table_ok m →
  graph_wf (_update_routing_table sp du env now m)
  ∧ table_ok (_update_routing_table sp du env now m).
Proof.
  intros Hc Hwf Hor.
  destruct (update_routing_table_fields sp du env now m) as (F1 & F2 & F3 & F4).
  split; [by apply (graph_wf_fields m) |].
  destruct (build_routes sp (network_graph m) (node_id m)
              (map fst (map_to_list (nodes m))) ∅) as [new|e] eqn:Eb.
  - apply (built_table_ok sp m); try done. by rewrite F4.
  - assert (Hok : table_ok m).
    { destruct Hor as [Hself | ?]; [| done]. exfalso.
      destruct (build_routes_total sp (network_graph m) (node_id m)
                  (map fst (map_to_list (nodes m))) Hc Hself) with (acc := ∅ : gmap string string)
        as [new Hnew]; [| congruence].
      intros k Hk. apply list_elem_of_fmap in Hk as ([k' n] & -> & Hk).
      apply elem_of_map_to_list in Hk. destruct Hwf as (_ & W3 & _).
      apply W3. cbn. eauto. }
    by apply (table_ok_fields m).
Qed.

(** ** Graph updates *)

Lemma add_node_adj (n u v : string) (G : gmap string (gmap string Q)) :
  add_node n G !! u ≫= (.!! v) = G !! u ≫= (.!! v).
Proof.
  unfold add_node. destruct (G !! n) eqn:En; [done |].
  destruct (decide (n = u)) as [<- | Hne].
  - by rewrite lookup_insert_eq, En.
  - by rewrite lookup_insert_ne.
Qed.

Lemma add_node_dom (n k : string) (G : gmap string (gmap string Q)) :
  k ∈ dom (add_node n G) ↔ k = n ∨ k ∈ dom G.
Proof.
  unfold add_node. destruct (G !! n) eqn:En.
  - split; [by right |]. intros [-> | ?]; [| done]. apply elem_of_dom. eauto.
  - rewrite dom_insert_L. set_solver.
Qed.

Lemma remove_node_lookup (n : string) (G G' : gmap string (gmap string Q)) :
  remove_node n G = Return G' →
  ∀ u v, is_Some (G' !! u ≫= (.!! v))
         → u ≠ n ∧ is_Some (G !! u ≫= (.!! v))
           ∧ (is_Some (G !! n ≫= (.!! u)) → v ≠ n).
Proof.
  unfold remove_node. destruct (G !! n) as [nbrs|] eqn:En; [| done].
  intros [= <-] u v Huv.
  destruct (decide (u = n)) as [-> | Hne].
  { rewrite lookup_delete_eq in Huv. by destruct Huv. }
  rewrite lookup_delete_ne, map_lookup_imap in Huv by done.
  destruct (G !! u) as [adj|] eqn:Eu; cbn in *; [| by destruct Huv].
  split; [done |].
  destruct (decide (is_Some (nbrs !! u))) as [Hnb | Hnb].
  - destruct (decide (v = n)) as [-> | Hvn].
    + rewrite lookup_delete_eq in Huv. by destruct Huv.
    + rewrite lookup_delete_ne in Huv by done. done.
  - split; [done |]. intros ?. done.
Qed.

Lemma remove_node_dom (n : string) (G G' : gmap string (gmap string Q)) :
  remove_node n G = Return G' →
  ∀ k, k ∈ dom G' ↔ k ≠ n ∧ k ∈ dom G.
Proof.
  unfold remove_node. destruct (G !! n) as [nbrs|] eqn:En; [| done].
  intros [= <-] k. rewrite !elem_of_dom.
  destruct (decide (k = n)) as [-> | Hne].
  - rewrite lookup_delete_eq. split; [intros [? ?]; done | intros [? ?]; done].
  - rewrite lookup_delete_ne, map_lookup_imap by done.
    destruct (G !! k); cbn.
    + split; [intros _; split; [done | eauto] | intros _; eauto].
    + split; [intros [? ?]; done | intros [_ [? ?]]; done].
Qed.

Lemma remove_node_sym (n : string) (G G' : gmap string (gmap string Q)) :
  remove_node n G = Return G' →
  ∀ u v, u ≠ n → v ≠ n → is_Some (G !! u ≫= (.!! v)) →
         is_Some (G' !! u ≫= (.!! v)).
Proof.
  unfold remove_node. destruct (G !! n) as [nbrs|] eqn:En; [| done].
  intros [= <-] u v Hu Hv Huv.
  rewrite lookup_delete_ne, map_lookup_imap by done.
  destruct (G !! u) as [adj|]; cbn in *; [| done].
  destruct (decide _); [by rewrite lookup_delete_ne | done].
Qed.

Lemma add_edge_adj (u v a b : string) (w : Q) (G : gmap string (gmap string Q)) :
  u ≠ v →
  is_Some (add_edge u v w G !! a ≫= (.!! b))
  ↔ (a = u ∧ b = v) ∨ (a = v ∧ b = u) ∨ is_Some (G !! a ≫= (.!! b)).
Proof.
  intros Huv. unfold add_edge.
  set (G1 := add_node v (add_node u G)).
  assert (HG1 : ∀ x y, G1 !! x ≫= (.!! y) = G !! x ≫= (.!! y)).
  { intros x y. unfold G1. by rewrite !add_node_adj. }
  assert (Hu : is_Some (G1 !! u)).
  { apply elem_of_dom. unfold G1. rewrite !add_node_dom. eauto. }
  assert (Hv : is_Some (G1 !! v)).
  { apply elem_of_dom. unfold G1. rewrite !add_node_dom. eauto. }
  rewrite <- (HG1 a b).
  rewrite !lookup_alter.
  destruct (decide (v = a)) as [<- | Hva].
  - destruct Hv as [adj Hv]. rewrite decide_False by done. rewrite Hv. cbn.
    destruct (decide (u = b)) as [<- | Hub].
    + rewrite lookup_insert_eq. split; eauto.
    + rewrite lookup_insert_ne by done. split; [eauto |].
      intros [[? ?] | [[_ ?] | ?]]; congruence || done.
  - destruct (decide (u = a)) as [<- | Hua].
    + destruct Hu as [adj Hu]. rewrite Hu. cbn.
      destruct (decide (v = b)) as [<- | Hvb].
      * rewrite lookup_insert_eq. split; eauto.
      * rewrite lookup_insert_ne by done. split; [eauto |].
        intros [[_ ?] | [[? _] | ?]]; congruence || done.
    + split; [eauto |]. intros [[? _] | [[? _] | ?]]; congruence || done.
Qed.

Lemma add_edge_dom (u v k : string) (w : Q) (G : gmap string (gmap string Q)) :
  k ∈ dom (add_edge u v w G) ↔ k = u ∨ k = v ∨ k ∈ dom G.
Proof.
  unfold add_edge. rewrite !dom_alter_L, !add_node_dom.
  split; [intros [-> | [-> | ?]] | intros [-> | [-> | ?]]]; eauto.
Qed.

(** ** The routing-table invariant *)

Lemma register_node_ok
    (sp : gmap string (gmap string Q) → string → string → outcome (list string))
    (du : string → list (string * string) → Q → string)
    (env : CallEnv) (now : Q) (id : string) (node : Node) (m : MeshNetworkManager) :
  shortest_path_contract sp → graph_wf m →
  node_id m ∈ dom (network_graph m) ∨ table_ok m →
  graph_wf (_register_node sp du env now id node m)
  ∧ table_ok (_register_node sp du env now id node m).
Proof.
  intros Hc (W1 & W3 & Wsym & Wirr) Hor. unfold _register_node.
  apply update_routing_table_ok; [done | |].
  - split_and!; cbn.
    + intros k Hk. apply add_node_dom in Hk as [-> | Hk].
      * right. rewrite lookup_insert_eq. eauto.
      * destruct (W1 k Hk) as [? | Hn]; [by left | right].
        destruct (decide (id = k)) as [-> | ?];
          [rewrite lookup_insert_eq; eauto | by rewrite lookup_insert_ne].
    + intros k Hk. apply add_node_dom.
      destruct (decide (id = k)) as [-> | ?]; [by left | right].
      rewrite lookup_insert_ne in Hk by done. by apply W3.
    + intros u v. rewrite !add_node_adj. apply Wsym.
    + intros u. rewrite add_node_adj. apply Wirr.
  - destruct Hor as [Hself | (T1 & T2 & T3)]; [left | right].
    + cbn. apply add_node_dom. by right.
    + split_and!; cbn.
      * done.
      * intros k v Hk. destruct (decide (id = v)) as [-> | ?];
          [rewrite lookup_insert_eq; eauto | rewrite lookup_insert_ne by done; eauto].
      * intros k v Hk. destruct (T3 k v Hk) as (p & Hh & Hl & Hw & Hlen).
        exists p. split_and!; try done.
        apply (is_walk_ext (network_graph m)); [| done].
        intros a b. by rewrite add_node_adj.
Qed.

Lemma remove_node_ok
    (sp : gmap string (gmap string Q) → string → string → outcome (list string))
    (du : string → list (string * string) → Q → string)
    (env : CallEnv) (now : Q) (id : string) (m : MeshNetworkManager) :
  shortest_path_contract sp → graph_wf m → table_ok m → id ≠ node_id m →
  ∃ m', _remove_node sp du env now id m = (Return tt, m')
        ∧ graph_wf m' ∧ table_ok m'.
Proof.
  intros Hc Hwf Hok Hid. unfold _remove_node.
  destruct (nodes m !! id) as [n|] eqn:En; [| eauto].
  pose proof Hwf as (W1 & W3 & Wsym & Wirr).
  assert (Hin : id ∈ dom (network_graph m)) by (apply W3; eauto).
  cbn [network_graph with_nodes].
  destruct (remove_node id (network_graph m)) as [G'|e] eqn:Er.
  2:{ unfold remove_node in Er. apply elem_of_dom in Hin as [? Hin].
      by rewrite Hin in Er. }
  set (m1 := with_network_graph G' (with_nodes (delete id (nodes m)) m)).
  assert (Hwf1 : graph_wf m1).
  { split_and!; cbn.
    - intros k Hk. apply (remove_node_dom _ _ _ Er) in Hk as [Hne Hk].
      destruct (W1 k Hk) as [? | ?]; [by left | right].
      by rewrite lookup_delete_ne.
    - intros k Hk. apply (remove_node_dom _ _ _ Er).
      destruct (decide (id = k)) as [-> | Hne].
      + rewrite lookup_delete_eq in Hk. by destruct Hk.
      + rewrite lookup_delete_ne in Hk by done. split; [done | by apply W3].
    - intros u v Huv.
      apply (remove_node_lookup _ _ _ Er) in Huv as (Hu & Huv & Hv).
      assert (Hvid : v ≠ id).
      { intros ->. apply Hv; [by apply Wsym | done]. }
      apply (remove_node_sym _ _ _ Er); [done | done | by apply Wsym].
    - intros u.
      destruct (G' !! u ≫= (.!! u)) eqn:E; [| done].
      assert (Hs : is_Some (G' !! u ≫= (.!! u))) by eauto.
      apply (remove_node_lookup _ _ _ Er) in Hs as (_ & Hs & _).
      rewrite Wirr in Hs. by destruct Hs. }
  assert (Hor : node_id m1 ∈ dom (network_graph m1) ∨ table_ok m1).
  { destruct (decide (node_id m ∈ dom (network_graph m))) as [Hself | Hself].
    - left. cbn. apply (remove_node_dom _ _ _ Er). done.
    - right. destruct Hok as (T1 & T2 & T3).
      assert (Hempty : ∀ k v, routing_table m !! k = Some v → False).
      { intros k v Hk. apply Hself.
        by apply (table_ok_self_in_graph m k v). }
      split_and!; cbn; [done | |]; intros k v Hk; by destruct (Hempty k v). }
  destruct (update_routing_table_ok sp du env now m1 Hc Hwf1 Hor) as [Hg Ht].
  eexists. split; [reflexivity |].
  split.
  - by apply (graph_wf_fields (_update_routing_table sp du env now m1)).
  - by apply (table_ok_fields (_update_routing_table sp du env now m1)).
Qed.

Lemma handle_discovery_ok
    (sp : gmap string (gmap string Q) → string → string → outcome (list string))
    (du : string → list (string * string) → Q → string)
    (env : CallEnv) (now : Q) (sender : string) (gateway : bool) (battery : Q)
    (m : MeshNetworkManager) :
  shortest_path_contract sp → graph_wf m →
  node_id m ∈ dom (network_graph m) ∨ table_ok m →
  graph_wf (_handle_discovery sp du env now sender gateway battery m)
  ∧ (sender ≠ node_id m →
     table_ok (_handle_discovery sp du env now sender gateway battery m)).
Proof.
  intros Hc Hwf Hor. unfold _handle_discovery.
  destruct (String.eqb_spec sender (node_id m)) as [-> | Hne]; [done |].
  set (node := {| n_id := sender |}).
  destruct (register_node_ok sp du env now sender node m Hc Hwf Hor)
    as [(W1 & W3 & Wsym & Wirr) (T1 & T2 & T3)].
  set (m1 := _register_node sp du env now sender node m) in *.
  destruct (update_routing_table_fields sp du env now
              (with_network_graph (add_node sender (network_graph m))
                 (with_nodes (<[sender := node]> (nodes m)) m)))
    as (F1 & F2 & _ & _).
  fold (_register_node sp du env now sender node m) in F1, F2. fold m1 in F1, F2.
  cbn in F1, F2.
  assert (Hne1 : node_id m1 ≠ sender) by (rewrite F1; congruence).
  assert (Hknown : is_Some (nodes m1 !! sender))
    by (rewrite F2, lookup_insert_eq; eauto).
  split.
  - split_and!; cbn.
    + intros k Hk. apply add_edge_dom in Hk as [-> | [-> | Hk]];
        [by left | by right | by apply W1].
    + intros k Hk. apply add_edge_dom. right. right. by apply W3.
    + intros u v Huv. apply add_edge_adj in Huv; [| done].
      apply add_edge_adj; [done |].
      destruct Huv as [[-> ->] | [[-> ->] | Huv]]; [by right; left | by left |].
      right. right. by apply Wsym.
    + intros u. destruct (add_edge _ _ _ _ !! u ≫= (.!! u)) eqn:E; [| done].
      assert (Hs : is_Some (add_edge (node_id m1) sender
                              (1 / (Qabs (n_rssi node) + 1))%Q (network_graph m1)
                              !! u ≫= (.!! u))) by eauto.
      apply add_edge_adj in Hs; [| done].
      destruct Hs as [[-> ?] | [[-> ?] | Hs]]; [done | done |].
      rewrite Wirr in Hs. by destruct Hs.
  - intros _. split_and!; cbn; [done | done |].
    intros k v Hk. destruct (T3 k v Hk) as (p & Hh & Hl & Hw & Hlen).
    exists p. split_and!; try done.
    apply (is_walk_ext (network_graph m1)); [| done].
    intros a b Hab. apply add_edge_adj; [done |]. by right; right.
Qed.

Lemma merge_routes_self (sender : string) (routes : list (string * string)) :
  ∀ m,
    node_id (merge_routes sender routes m).2 = node_id m
    ∧ nodes (merge_routes sender routes m).2 = nodes m
    ∧ network_graph (merge_routes sender routes m).2 = network_graph m
    ∧ routing_table (merge_routes sender routes m).2 !! node_id m
      = routing_table m !! node_id m.
Proof.
  induction routes as [|[dest next_hop] routes IH]; intros m; [done |].
  cbn [merge_routes].
  destruct (String.eqb_spec dest (node_id m)) as [-> | Hne]; cbn [negb]; [apply IH |].
  destruct (shortest_path_length _ _ _) as [d|e]; [| done].
  destruct (d <? MAX_HOPS); [| apply IH].
  destruct (IH (with_routing_table (<[dest := next_hop]> (routing_table m)) m))
    as (H1 & H2 & H3 & H4).
  cbn in *. rewrite H1, H2, H3, H4. split_and!; try done.
  by rewrite lookup_insert_ne.
Qed.

(** The claim of C5 fails on the code for route-update handling: at node
    A, whose table holds its two neighbours, a ROUTE_UPDATE from the
    neighbour X advertising (D, Y) leaves an entry whose next hop Y is
    in no neighbour record and whose key D is not a node of the graph, so
    it has no path from A. *)
Lemma route_update_invariant_counterexample :
  let m' := (_handle_route_update "X" [("D", "Y")] m_star).2 in
  map_to_list (routing_table m_star) = [("B", "B"); ("X", "X")]
  ∧ routing_table m' !! "D" = Some "Y"
  ∧ nodes m' !! "Y" = None
  ∧ shortest_path_length (network_graph m') (node_id m') "D" = Raise NodeNotFound
  ∧ ¬ table_ok m'.
Proof.
  cbv zeta. split_and!; try (vm_compute; reflexivity).
  intros Hok. destruct Hok as (_ & T2 & _).
  destruct (T2 "D" "Y") as [n Hn]; [vm_compute; reflexivity |].
  vm_compute in Hn. discriminate Hn.
Qed.

(** C5, as the code has it. In a state where graph and neighbour table
    agree and the routing table has the three properties (the local node is
    no key, every next hop is a known node, every key is within
    [MAX_HOPS - 1] hops of the local node), they hold again after a
    rebuild, after a node registration and after the removal of a node other
    than the local one. Route-update handling keeps the first: the local
    node is no key. *)
Theorem routing_table_invariant
    (sp : gmap string (gmap string Q) → string → string → outcome (list string))
    (du : string → list (string * string) → Q → string)
    (env : CallEnv) (now : Q) (m : MeshNetworkManager) :
  shortest_path_contract sp → graph_wf m → table_ok m →
  (graph_wf (_update_routing_table sp du env now m)
   ∧ table_ok (_update_routing_table sp du env now m))
  ∧ (∀ id node,
       graph_wf (_register_node sp du env now id node m)
       ∧ table_ok (_register_node sp du env now id node m))
  ∧ (∀ id, id ≠ node_id m →
           ∃ m', _remove_node sp du env now id m = (Return tt, m')
                 ∧ graph_wf m' ∧ table_ok m')
  ∧ (∀ sender routes,
       graph_wf (_handle_route_update sender routes m).2
       ∧ routing_table (_handle_route_update sender routes m).2
           !! node_id (_handle_route_update sender routes m).2 = None).
Proof.
  intros Hc Hwf Hok. split; [| split; [| split]].
  - apply update_routing_table_ok; eauto.
  - intros id node. apply register_node_ok; eauto.
  - intros id Hid. by apply remove_node_ok.
  - intros sender routes. unfold _handle_route_update.
    destruct (nodes m !! sender); [| split; [done | apply Hok]].
    destruct (merge_routes_self sender routes m) as (H1 & H2 & H3 & H4).
    split; [by apply (graph_wf_fields m) |].
    rewrite H1, H4. apply Hok.
Qed.

Lemma m_star_adj (u v : string) :
  is_Some (network_graph m_star !! u ≫= (.!! v))
  ↔ (u = "A" ∧ v = "B") ∨ (u = "B" ∧ v = "A")
    ∨ (u = "A" ∧ v = "X") ∨ (u = "X" ∧ v = "A").
Proof.
  cbn [network_graph m_star m_tie with_routing_table].
  rewrite !add_edge_adj by done. rewrite add_node_adj, lookup_empty. cbn.
  split; [| intros [? | [? | [? | ?]]]; eauto 6].
  intros [? | [? | [? | [? | [? Habs]]]]]; eauto. done.
Qed.

Lemma m_star_wf : graph_wf m_star.
Proof.
  split; [| split; [| split]].
  - intros k Hk. cbn [network_graph m_star m_tie with_routing_table] in Hk.
    rewrite !add_edge_dom, add_node_dom, dom_empty_L in Hk.
    destruct Hk as [-> | [-> | [-> | [-> | [-> | Hk]]]]];
      try (by left); try (right; vm_compute; eauto).
  - intros k Hk. cbn [network_graph m_star m_tie with_routing_table].
    rewrite !add_edge_dom, add_node_dom.
    destruct (decide (k = "A")) as [-> | HA]; [by left |].
    destruct (decide (k = "B")) as [-> | HB]; [by right; left |].
    destruct (decide (k = "X")) as [-> | HX]; [by right; right; right; left |].
    exfalso. cbn [nodes m_star m_tie with_routing_table] in Hk.
    rewrite !lookup_insert_ne, lookup_singleton_ne in Hk by done. by destruct Hk.
  - intros u v Huv. apply m_star_adj in Huv. apply m_star_adj.
    destruct Huv as [[-> ->] | [[-> ->] | [[-> ->] | [-> ->]]]]; eauto 6.
  - intros u. destruct (network_graph m_star !! u ≫= (.!! u)) eqn:E; [| done].
    assert (Hs : is_Some (network_graph m_star !! u ≫= (.!! u))) by eauto.
    apply m_star_adj in Hs.
    destruct Hs as [[-> ?] | [[-> ?] | [[-> ?] | [-> ?]]]]; done.
Qed.

Lemma m_star_ok : table_ok m_star.
Proof.
  split; [| split].
  - vm_compute. reflexivity.
  - intros k v Hk. cbn [routing_table m_star with_routing_table] in Hk.
    apply lookup_insert_Some in Hk as [[<- <-] | [_ Hk]]; [vm_compute; eauto |].
    apply lookup_singleton_Some in Hk as [<- <-]. vm_compute. eauto.
  - intros k v Hk. cbn [routing_table m_star with_routing_table] in Hk.
    apply lookup_insert_Some in Hk as [[<- <-] | [_ Hk]].
    + exists ["A"; "X"]%string.
      split_and!; try done; try (unfold MAX_HOPS; cbn; lia);
        try (apply m_star_adj; eauto 6).
    + apply lookup_singleton_Some in Hk as [<- <-].
      exists ["A"; "B"]%string.
      split_and!; try done; try (unfold MAX_HOPS; cbn; lia);
        try (apply m_star_adj; eauto 6).
Qed.

Lemma routing_table_invariant_witness :
  (graph_wf (_update_routing_table least_weight_path update_text (env_of "u1") 1 m_star)
   ∧ table_ok (_update_routing_table least_weight_path update_text (env_of "u1") 1 m_star))
  ∧ (∀ id node,
       graph_wf (_register_node least_weight_path update_text (env_of "u1") 1 id node m_star)
       ∧ table_ok (_register_node least_weight_path update_text (env_of "u1") 1 id node m_star))
  ∧ (∀ id, id ≠ node_id m_star →
           ∃ m', _remove_node least_weight_path update_text (env_of "u1") 1 id m_star
                 = (Return tt, m')
                 ∧ graph_wf m' ∧ table_ok m')
  ∧ (∀ sender routes,
       graph_wf (_handle_route_update sender routes m_star).2
       ∧ routing_table (_handle_route_update sender routes m_star).2
           !! node_id (_handle_route_update sender routes m_star).2 = None).
Proof.
  apply (routing_table_invariant least_weight_path update_text (env_of "u1") 1 m_star).
  - exact least_weight_path_contract.
  - exact m_star_wf.
  - exact m_star_ok.
Defined.

(** ** [shortest_path_length] is the hop distance *)

Lemma neighbors_adjacent (G : gmap string (gmap string Q)) (u v : string) :
  v ∈ neighbors G u ↔ adjacent G u v.
Proof.
  unfold neighbors, adjacent. rewrite elem_of_dom.
  destruct (G !! u); cbn; [done |]. by rewrite lookup_empty.
Qed.

Lemma bfs_next_elem (G : gmap string (gmap string Q)) (visited frontier : gset string)
    (v : string) :
  v ∈ ⋃ (map (neighbors G) (elements frontier)) ∖ visited
  ↔ (∃ u, u ∈ frontier ∧ adjacent G u v) ∧ v ∉ visited.
Proof.
  rewrite elem_of_difference, elem_of_union_list. split.
  - intros [(X & HX & Hv) Hnv]. split; [| done].
    apply list_elem_of_fmap in HX as (u & -> & Hu).
    apply elem_of_elements in Hu. apply neighbors_adjacent in Hv. eauto.
  - intros [(u & Hu & Hadj) Hnv]. split; [| done].
    exists (neighbors G u). split; [| by apply neighbors_adjacent].
    apply list_elem_of_fmap. exists u. split; [done |]. by apply elem_of_elements.
Qed.

Lemma bfs_inv_init (G : gmap string (gmap string Q)) (s : string) :
  bfs_inv G s 0 {[s]} {[s]}.
Proof.
  split; [| split; [| done]].
  - intros v. rewrite elem_of_singleton. split.
    + intros ->. exists 0. split; [done | constructor].
    + intros (k & Hk & Hh). assert (k = 0) as -> by lia. by inversion Hh.
  - intros v. split; [by intros [? ?] | intros (k & Hk & _); lia].
Qed.

Lemma bfs_inv_step (G : gmap string (gmap string Q)) (s : string) (d : nat)
    (visited frontier : gset string) :
  bfs_inv G s d visited frontier →
  bfs_inv G s (S d)
    (visited ∪ ⋃ (map (neighbors G) (elements frontier)) ∖ visited)
    (⋃ (map (neighbors G) (elements frontier)) ∖ visited).
Proof.
  intros (Ha & Hc & Hsub).
  set (next := ⋃ (map (neighbors G) (elements frontier)) ∖ visited).
  assert (Hvis : ∀ v, v ∈ visited ∪ next ↔ ∃ k, k ≤ S d ∧ hops G s k v).
  { intros v. rewrite elem_of_union. split.
    - intros [Hv | Hv].
      + apply Ha in Hv as (k & Hk & Hh). exists k. split; [lia | done].
      + apply bfs_next_elem in Hv as [(u & Hu & Hadj) _].
        apply Hsub, Ha in Hu as (k & Hk & Hh).
        exists (S k). split; [lia |]. by apply (hops_S G s k u).
    - intros (k & Hk & Hh).
      destruct (decide (v ∈ visited)) as [? | Hnv]; [by left | right].
      apply bfs_next_elem. split; [| done].
      inversion Hh as [E1 E2 | n u v' Hu Hadj E1 E2]; subst.
      { exfalso. apply Hnv, Ha. exists 0. split; [lia | constructor]. }
      exists u. split; [| done].
      assert (Huv : u ∈ visited) by (apply Ha; exists n; split; [lia | done]).
      destruct (decide (u ∈ frontier)) as [? | Hnf]; [done |].
      exfalso. apply Hnv, Ha.
      destruct (proj1 (Hc u) (conj Huv Hnf)) as (k' & Hk' & Hh').
      exists (S k'). split; [lia |]. by apply (hops_S G s k' u). }
  split; [done |]. split.
  - intros v. split.
    + intros [Hv Hnn]. apply elem_of_union in Hv as [Hv | ?]; [| done].
      apply Ha in Hv as (k & Hk & Hh). exists k. split; [lia | done].
    + intros (k & Hk & Hh).
      assert (Hv : v ∈ visited) by (apply Ha; exists k; split; [lia | done]).
      split; [apply elem_of_union; by left |].
      intros Hn. apply bfs_next_elem in Hn as [_ Hn]. done.
  - intros v Hv. apply elem_of_union. by right.
Qed.

(** In the frontier are the nodes at distance exactly [d]. *)
Lemma bfs_inv_frontier (G : gmap string (gmap string Q)) (s : string) (d : nat)
    (visited frontier : gset string) (v : string) :
  bfs_inv G s d visited frontier → v ∈ frontier →
  hops G s d v ∧ ∀ k, hops G s k v → d ≤ k.
Proof.
  intros (Ha & Hc & Hsub) Hv.
  assert (Hlow : ∀ k, hops G s k v → d ≤ k).
  { intros k Hh. destruct (Nat.le_gt_cases d k) as [? | Hlt]; [done |].
    exfalso. assert (Hx : v ∈ visited ∧ v ∉ frontier) by (apply Hc; eauto).
    by destruct Hx. }
  split; [| done].
  apply Hsub, Ha in Hv as (k & Hk & Hh).
  assert (k = d) as -> by (apply Hlow in Hh; lia). done.
Qed.

Lemma bfs_correct (G : gmap string (gmap string Q)) (s t : string) (fuel : nat) :
  ∀ d visited frontier n,
    bfs_inv G s d visited frontier →
    bfs fuel G visited frontier t d = Some n →
    hops G s n t ∧ ∀ k, hops G s k t → n ≤ k.
Proof.
  induction fuel as [|fuel IH]; intros d visited frontier n Hinv; cbn [bfs].
  - destruct (decide (t ∈ frontier)) as [Ht | _]; [| done].
    intros [= <-]. by apply (bfs_inv_frontier G s d visited frontier).
  - destruct (decide (t ∈ frontier)) as [Ht | _].
    { intros [= <-]. by apply (bfs_inv_frontier G s d visited frontier). }
    destruct (decide (_ = ∅)); [done |].
    apply IH. by apply bfs_inv_step.
Qed.

(** What [shortest_path_length] returns is the least number of edges of
    a walk from [source] to [target]. *)
Lemma shortest_path_length_correct (G : gmap string (gmap string Q))
    (source target : string) (d : nat) :
  shortest_path_length G source target = Return d →
  hops G source d target ∧ ∀ k, hops G source k target → d ≤ k.
Proof.
  unfold shortest_path_length. destruct (decide _); [| done].
  destruct (bfs _ _ _ _ _ _) as [n|] eqn:E; [| done].
  intros [= <-]. apply (bfs_correct G source target _ _ _ _ _ (bfs_inv_init G source) E).
Qed.

Lemma bfs_complete (G : gmap string (gmap string Q)) (s t : string) (n : nat) :
  adjacency_closed G → hops G s n t →
  ∀ fuel d visited frontier,
    bfs_inv G s d visited frontier →
    visited ⊆ dom G →
    size (dom G ∖ visited) < fuel →
    (t ∈ visited → t ∈ frontier) →
    is_Some (bfs fuel G visited frontier t d).
Proof.
  intros Hclosed Hreach.
  induction fuel as [|fuel IH]; intros d visited frontier Hinv Hdom Hfuel Ht; [lia |].
  cbn [bfs]. destruct (decide (t ∈ frontier)) as [? | Hnf]; [eauto |].
  set (next := ⋃ (map (neighbors G) (elements frontier)) ∖ visited).
  destruct (decide (next = ∅)) as [Hempty | Hne].
  - exfalso. apply Hnf, Ht.
    destruct Hinv as (Ha & Hc & Hsub).
    assert (Hall : ∀ m v, hops G s m v → v ∈ visited).
    { intros m v Hh. induction Hh as [|m u v Hu IHu Hadj].
      - apply Ha. exists 0. split; [lia | constructor].
      - destruct (decide (v ∈ visited)) as [? | Hnv]; [done |].
        destruct (decide (u ∈ frontier)) as [Hf | Hnfu].
        + exfalso. assert (Hin : v ∈ next) by (apply bfs_next_elem; eauto).
          rewrite Hempty in Hin. by apply elem_of_empty in Hin.
        + destruct (proj1 (Hc u) (conj IHu Hnfu)) as (k & Hk & Hh').
          apply Ha. exists (S k). split; [lia |]. by apply (hops_S G s k u). }
    by apply (Hall n).
  - assert (Hnext : next ⊆ dom G ∖ visited).
    { intros v Hv. apply bfs_next_elem in Hv as [(u & _ & Hadj) Hnv].
      apply elem_of_difference. split; [by apply (Hclosed u) | done]. }
    apply IH.
    + by apply bfs_inv_step.
    + intros v Hv. apply elem_of_union in Hv as [? | Hv]; [by apply Hdom |].
      apply Hnext in Hv. by apply elem_of_difference in Hv as [? _].
    + assert (Hlt : dom G ∖ (visited ∪ next) ⊂ dom G ∖ visited).
      { apply set_choose_L in Hne as [x Hx]. pose proof (Hnext x Hx) as Hx'.
        split.
        - intros v Hv. apply elem_of_difference in Hv as [? Hv].
          apply elem_of_difference. split; [done |].
          intros ?. apply Hv, elem_of_union. by left.
        - intros Hsub. specialize (Hsub x Hx').
          apply elem_of_difference in Hsub as [_ Hsub].
          apply Hsub, elem_of_union. by right. }
      apply subset_size in Hlt. lia.
    + intros Hv. apply elem_of_union in Hv as [Hv | ?]; [| done].
      exfalso. apply Hnf, Ht, Hv.
Qed.

(** In a graph whose neighbours are nodes, [shortest_path_length] returns
    whenever the target can be reached. *)
Lemma shortest_path_length_complete (G : gmap string (gmap string Q))
    (source target : string) (n : nat) :
  adjacency_closed G → source ∈ dom G → target ∈ dom G →
  hops G source n target →
  ∃ d, shortest_path_length G source target = Return d.
Proof.
  intros Hclosed Hs Ht Hreach. unfold shortest_path_length.
  rewrite decide_True by done.
  destruct (bfs_complete G source target n Hclosed Hreach (size G) 0 {[source]} {[source]})
    as [d ->]; [apply bfs_inv_init | | | done | eauto].
  - intros v ->%elem_of_singleton. done.
  - rewrite <- size_dom. apply subset_size. split.
    + intros v Hv. by apply elem_of_difference in Hv as [? _].
    + intros Hsub. specialize (Hsub source Hs).
      apply elem_of_difference in Hsub as [_ Hsub]. apply Hsub. by apply elem_of_singleton.
Qed.

Lemma graph_wf_adjacency_closed (m : MeshNetworkManager) :
  graph_wf m → adjacency_closed (network_graph m).
Proof.
  intros (_ & _ & Wsym & _) u v Huv. apply Wsym in Huv.
  apply elem_of_dom. destruct (network_graph m !! v); [eauto | by destruct Huv].
Qed.

Lemma hops_cons (G : gmap string (gmap string Q)) (s u t : string) (n : nat) :
  adjacent G s u → hops G u n t → hops G s (S n) t.
Proof.
  intros Hadj Hh. induction Hh as [|n v w Hv IH Hvw].
  - apply (hops_S G s 0 s); [constructor | done].
  - by apply (hops_S G s (S n) v).
Qed.

Lemma walk_hops (G : gmap string (gmap string Q)) (p : list string) :
  ∀ s t, head p = Some s → last p = Some t → is_walk G p →
         hops G s (length p - 1) t.
Proof.
  induction p as [|a p IH]; intros s t Hh Hl Hw; [done |].
  cbn [head] in Hh. injection Hh as ->.
  destruct p as [|b p].
  - cbn in Hl. injection Hl as ->. constructor.
  - destruct Hw as [Hab Hw].
    replace (length (s :: b :: p) - 1) with (S (length (b :: p) - 1))
      by (cbn [length]; lia).
    apply (hops_cons G s b); [done |]. by apply IH.
Qed.

(** With the three properties, the code's own [shortest_path_length] from
    the local node to every key of the table is at most [MAX_HOPS - 1]. *)
Lemma table_ok_shortest_path_length (m : MeshNetworkManager) (k v : string) :
  graph_wf m → table_ok m → routing_table m !! k = Some v →
  ∃ d, shortest_path_length (network_graph m) (node_id m) k = Return d
       ∧ d ≤ MAX_HOPS - 1.
Proof.
  intros Hwf Hok Hk.
  pose proof (table_ok_self_in_graph m k v Hok Hk) as Hself.
  pose proof (graph_wf_adjacency_closed m Hwf) as Hclosed.
  destruct Hok as (T1 & _ & T3).
  destruct (T3 k v Hk) as (p & Hh & Hl & Hw & Hlen).
  pose proof (walk_hops _ p _ _ Hh Hl Hw) as Hhops.
  assert (Hkdom : k ∈ dom (network_graph m)).
  { inversion Hhops as [E1 E2 | n u w Hu Hadj E1 E2].
    - congruence.
    - by apply (Hclosed u). }
  destruct (shortest_path_length_complete _ _ _ _ Hclosed Hself Hkdom Hhops)
    as [d Hd].
  exists d. split; [done |].
  apply shortest_path_length_correct in Hd as [_ Hmin].
  apply Hmin in Hhops. lia.
Qed.
(** * Further properties of the link layer *)

(** ** Fragmentation *)

Lemma fragment_count_bounds (n : nat) :
  210 * ((n + 209) / 210) ≤ n + 209 ∧ n < 210 * ((n + 209) / 210) + 1.
Proof.
  pose proof (Nat.Div0.mul_div_le (n + 209) 210).
  pose proof (Nat.mul_succ_div_gt (n + 209) 210 ltac:(lia)).
  lia.
Qed.

Lemma fragment_message_lookup clock mid msg i f :
  _fragment_message clock mid msg !! i = Some f →
  f = fragment_at clock mid msg i ∧ i < fragment_count msg.
Proof.
  rewrite fragment_message_unfold, list_lookup_fmap.
  destruct (seq 0 (fragment_count msg) !! i) as [j|] eqn:E; [| done].
  apply lookup_seq in E as [-> Hlt]. cbn. intros [= <-]. done.
Qed.

(** X1. [_fragment_message] cuts the UTF-8 bytes of the message into
    ceil(n / 210) fragments. The fragment at position [i] carries the
    message id, the index [i], the fragment count, the CRC-32 of its own
    payload and between 1 and 210 payload bytes: exactly 210 for every
    fragment but the last, the remaining bytes for the last. *)
Theorem fragments_well_formed (clock : nat → Q) (mid msg : string) :
  let frags := _fragment_message clock mid msg in
  let n := length (str_encode msg) in
  length frags = (n + 209) / 210
  ∧ ∀ i f, frags !! i = Some f →
      message_id f = mid
      ∧ fragment_id f = Z.of_nat i
      ∧ total_fragments f = Z.of_nat (length frags)
      ∧ crc f = crc32 (payload f)
      ∧ payload f = take 210 (drop (210 * i) (str_encode msg))
      ∧ 0 < length (payload f) ≤ 210
      ∧ (S i < length frags → length (payload f) = 210)
      ∧ (S i = length frags → length (payload f) = n - 210 * i).
Proof.
  intros frags n.
  assert (Hlen : length frags = (n + 209) / 210).
  { unfold frags. rewrite fragment_message_unfold, length_map, length_seq.
    unfold fragment_count, n. change payload_size with 210.
    f_equal. lia. }
  split; [done |]. intros i f Hf.
  apply fragment_message_lookup in Hf as [-> Hi].
  assert (Hcnt : fragment_count msg = (n + 209) / 210).
  { unfold fragment_count, n. change payload_size with 210. f_equal. lia. }
  rewrite Hcnt in Hi. rewrite Hlen.
  destruct (fragment_count_bounds n) as [B1 B2].
  assert (Hpl : length (payload (fragment_at clock mid msg i)) = 210 `min` (n - 210 * i)).
  { cbn [payload fragment_at]. unfold chunk. change payload_size with 210.
    rewrite length_take, length_drop. fold n. lia. }
  cbn [message_id fragment_id total_fragments crc fragment_at].
  split_and!; try done.
  - by rewrite Hcnt.
  - cbn [payload fragment_at]. unfold chunk. change payload_size with 210.
    by rewrite (Nat.mul_comm i 210).
  - lia.
  - lia.
  - lia.
  - lia.
Qed.

(** ** Submitting a message *)

Lemma fragment_count_1 msg :
  0 < length (str_encode msg) ≤ 210 → fragment_count msg = 1.
Proof.
  intros Hn. unfold fragment_count. change payload_size with 210.
  replace (length (str_encode msg) + 210 - 1) with (length (str_encode msg) + 209) by lia.
  destruct (fragment_count_bounds (length (str_encode msg))). lia.
Qed.

Lemma fragment_count_pos msg :
  str_encode msg ≠ [] → ∃ n, fragment_count msg = S n.
Proof.
  intros Hne. destruct (fragment_count msg) eqn:E; [| eauto].
  apply fragment_count_0 in E. done.
Qed.

Lemma send_message_single_eq
    (env : CallEnv) (message : string) (priority : MessagePriority)
    (h : LoRaProtocolHandler) :
  0 < length (str_encode message) ≤ 210 →
  queue_of priority (send_queue h) = [] →
  send_message env message priority h
  = (Return (env_id env),
     with_queue priority
       [(value priority, fragment_at (env_clock env) (env_id env) message 0)]
       (with_message_buffer (<[env_id env := message]> (message_buffer h)) h)).
Proof.
  intros Hn Hq.
  unfold send_message. rewrite fragment_message_unfold, (fragment_count_1 _ Hn).
  cbn [seq map put_fragments].
  replace (queue_of priority (send_queue (with_message_buffer _ h))) with ([] : list item)
    by (symmetry; exact Hq).
  rewrite put_empty. reflexivity.
Qed.

Lemma fragment_at_single clock mid message :
  0 < length (str_encode message) ≤ 210 →
  payload (fragment_at clock mid message 0) = str_encode message
  ∧ crc (fragment_at clock mid message 0) = crc32 (str_encode message)
  ∧ total_fragments (fragment_at clock mid message 0) = 1%Z.
Proof.
  intros Hn.
  assert (Hc : chunk (str_encode message) 0 = str_encode message).
  { unfold chunk. change payload_size with 210. cbn [Nat.mul drop]. apply take_ge. lia. }
  cbn [payload crc total_fragments fragment_at].
  by rewrite Hc, (fragment_count_1 _ Hn).
Qed.

(** X2. A message of 1 to 210 bytes submitted to an empty queue is
    accepted: [send_message] returns the generated id, the message is
    buffered under it, and the queue holds the single fragment, whose
    payload is the whole encoded message. *)
Theorem send_message_single_fragment
    (env : CallEnv) (message : string) (priority : MessagePriority)
    (h : LoRaProtocolHandler) :
  0 < length (str_encode message) ≤ 210 →
  queue_of priority (send_queue h) = [] →
  let f := fragment_at (env_clock env) (env_id env) message 0 in
  send_message env message priority h
  = (Return (env_id env),
     with_queue priority [(value priority, f)]
       (with_message_buffer (<[env_id env := message]> (message_buffer h)) h))
  ∧ payload f = str_encode message
  ∧ fragment_id f = 0%Z ∧ total_fragments f = 1%Z.
Proof.
  intros Hn Hq f.
  destruct (fragment_at_single (env_clock env) (env_id env) message Hn) as (P1 & _ & P3).
  split_and!; try done. by apply send_message_single_eq.
Qed.

Lemma send_message_single_fragment_witness :
  send_message (env_of "m1") "status ok" HIGH init_handler
  = (Return "m1"%string,
     with_queue HIGH [(1%Z, fragment_at tick "m1" "status ok" 0)]
       (with_message_buffer {[ "m1"%string := "status ok"%string ]} init_handler)).
Proof.
  apply (send_message_single_fragment (env_of "m1") "status ok" HIGH init_handler).
  - cbn. lia.
  - reflexivity.
Defined.

Lemma put_fragments_busy (priority : MessagePriority) (f : LoRaPacket)
    (rest : list LoRaPacket) (h : LoRaProtocolHandler) :
  queue_of priority (send_queue h) ≠ [] →
  queue_wf priority (queue_of priority (send_queue h)) →
  queue_fresh (message_id f) (queue_of priority (send_queue h)) →
  put_fragments priority (f :: rest) h
  = (Raise TypeError,
     with_queue priority (queue_of priority (send_queue h) ++ [(value priority, f)]) h).
Proof.
  intros Hq Hwf Hfresh. cbn [put_fragments].
  rewrite put_nonempty_raises; [reflexivity | exact Hq |].
  unfold queue_wf, queue_fresh in *.
  rewrite Forall_forall in Hwf, Hfresh |- *.
  intros it Hit. split.
  - cbn. symmetry. apply Hwf, Hit.
  - apply packet_eqb_message_id. cbn. intros E. apply (Hfresh it Hit). done.
Qed.

(** X3. A queue that holds an entry takes no second message: when the
    queue of the requested priority is not empty (its entries carry that
    priority value and belong to other messages), [send_message] raises
    [TypeError] for every non-empty message, whatever its size. The message
    is buffered and its first fragment stays appended to the queue. *)
Theorem send_message_busy_queue_raises
    (env : CallEnv) (message : string) (priority : MessagePriority)
    (h : LoRaProtocolHandler) :
  str_encode message ≠ [] →
  queue_of priority (send_queue h) ≠ [] →
  queue_wf priority (queue_of priority (send_queue h)) →
  queue_fresh (env_id env) (queue_of priority (send_queue h)) →
  send_message env message priority h
  = (Raise TypeError,
     with_queue priority
       (queue_of priority (send_queue h)
        ++ [(value priority, fragment_at (env_clock env) (env_id env) message 0)])
       (with_message_buffer (<[env_id env := message]> (message_buffer h)) h)).
Proof.
  intros Hne Hq Hwf Hfresh. unfold send_message.
  rewrite fragment_message_unfold.
  destruct (fragment_count_pos _ Hne) as [n ->].
  cbn [seq map]. by rewrite put_fragments_busy.
Qed.

Lemma send_message_busy_queue_raises_witness :
  (send_message (env_of "m2") "second" MEDIUM
     (send_message (env_of "m1") "first" MEDIUM init_handler).2).1
  = Raise TypeError.
Proof.
  rewrite (send_message_busy_queue_raises (env_of "m2") "second" MEDIUM
             (send_message (env_of "m1") "first" MEDIUM init_handler).2).
  - reflexivity.
  - discriminate.
  - discriminate.
  - repeat constructor.
  - repeat constructor. cbn. discriminate.
Defined.

(** ** The priority field of a packet *)

Lemma priority_eq_or_ne (p q : MessagePriority) : p = q ∨ p ≠ q.
Proof. destruct p, q; (by left) || (by right). Qed.

Lemma all_medium_fields h h' :
  send_queue h' = send_queue h → serial_out h' = serial_out h →
  all_medium h → all_medium h'.
Proof. unfold all_medium. by intros -> ->. Qed.

Lemma all_medium_send env message priority h :
  all_medium h → all_medium (send_message env message priority h).2.
Proof.
  intros [Hq Hs].
  destruct (send_message_frame env message priority h)
    as (_ & H2 & _ & _ & _ & _ & H7 & H8 & _).
  split; [| by rewrite H2].
  intros p. destruct (priority_eq_or_ne p priority) as [-> | Hne].
  - rewrite Forall_forall. intros y Hy.
    destruct (H8 y Hy) as [Hold | (f & Hf & ->)].
    + specialize (Hq priority). rewrite Forall_forall in Hq. by apply Hq.
    + rewrite fragment_message_unfold in Hf.
      apply list_elem_of_fmap in Hf as (i & -> & _). reflexivity.
  - rewrite H7 by done. apply Hq.
Qed.

Lemma all_medium_del_pending k h :
  all_medium h → all_medium (del_pending k h).2.
Proof.
  destruct (del_pending_frame k h) as (H1 & H2 & _).
  by apply all_medium_fields.
Qed.

Lemma all_medium_check_entries now envs items :
  ∀ h, all_medium h → all_medium (check_entries now envs items h).2.
Proof.
  induction items as [|[k ts] items IH]; intros h Hh; [done |].
  cbn [check_entries].
  assert (H1 : all_medium (check_entry now envs (k, ts) h).2).
  { unfold check_entry. destruct (timed_out now ts); [| done].
    destruct (message_buffer h !! k) as [msg|]; [| by apply all_medium_del_pending].
    pose proof (all_medium_send (envs k) msg HIGH (bump_retransmissions h) Hh) as Hs.
    destruct (send_message _ _ _ _) as [[r|e] h1]; cbn [snd] in *; [| done].
    by apply all_medium_del_pending. }
  destruct (check_entry now envs (k, ts) h) as [[[]|e] h1]; cbn [snd] in *; [| done].
  by apply IH.
Qed.

Lemma all_medium_with_queue p q h :
  all_medium h → Forall (λ it, priority (snd it) = MEDIUM) q →
  all_medium (with_queue p q h).
Proof.
  intros [Hq Hs] Hnew. split; [| done].
  intros p'. destruct (priority_eq_or_ne p p') as [<- | Hne].
  - by rewrite queue_of_with_queue.
  - rewrite queue_of_with_queue_ne by done. apply Hq.
Qed.

Lemma all_medium_send_packet now ok packet h :
  all_medium h → priority packet = MEDIUM →
  all_medium (_send_packet now ok packet h).2.
Proof.
  intros Hh Hp. unfold _send_packet. destruct ok.
  - destruct Hh as [Hq Hs]. split; [done |]. cbn.
    apply Forall_app. split; [done |]. constructor; [| done].
    cbn. by rewrite Hp.
  - pose proof (put_elem_of (queue_of (priority packet) (send_queue h))
                  (value (priority packet), packet)) as Hput.
    destruct (put _ _) as [r q]; cbn [snd] in *.
    apply all_medium_with_queue; [done |].
    rewrite Forall_forall. intros y Hy. apply Hput in Hy as [Hy | ->]; [| done].
    destruct Hh as [Hq _]. specialize (Hq (priority packet)).
    rewrite Forall_forall in Hq. by apply Hq.
Qed.

Lemma all_medium_send_loop env h :
  all_medium h → all_medium (_send_loop env h).
Proof.
  intros Hh. unfold _send_loop, send_loop_try, _check_pending_acks.
  pose proof (all_medium_check_entries (sweep_now env) (resend_env env)
                (pending_acks h) h Hh) as H1.
  destruct (check_entries _ _ _ _) as [[[]|e] h1]; cbn [snd] in *; [| done].
  destruct (first_nonempty (send_queue h1)) as [p|]; [| done].
  pose proof (get_nowait_elem_of (queue_of p (send_queue h1))) as Hsub.
  pose proof (get_nowait_head (queue_of p (send_queue h1))) as Hhead.
  assert (Hall : Forall (λ it, priority it.2 = MEDIUM) (queue_of p (send_queue h1)))
    by apply H1.
  rewrite Forall_forall in Hall.
  destruct (get_nowait _) as [[[v packet]|e] q]; cbn [fst snd] in *.
  - apply all_medium_send_packet.
    + apply all_medium_with_queue; [done |].
      rewrite Forall_forall. intros y Hy. by apply Hall, Hsub.
    + specialize (Hhead _ eq_refl).
      apply (Hall (v, packet)). destruct (queue_of p (send_queue h1)); [done |].
      cbn in Hhead. injection Hhead as ->. left.
  - apply all_medium_with_queue; [done |].
    rewrite Forall_forall. intros y Hy. by apply Hall, Hsub.
Qed.

(** X4. Whatever priority a message is submitted with, every packet the
    handler builds carries [MessagePriority.MEDIUM]: in every reachable
    state each queued packet has the priority MEDIUM and each frame that
    was written to the radio has the priority value 2. The requested
    priority only selects the queue. *)
Theorem frames_always_medium (ops : list LinkOp) :
  all_medium (run_ops ops init_handler).
Proof.
  assert (Hgen : ∀ h, all_medium h → all_medium (run_ops ops h)).
  { induction ops as [|op ops IH]; intros h Hh; [done |].
    unfold run_ops. cbn [foldl]. apply IH. destruct op as [env msg p | env | packet]; cbn [run_op].
    - by apply all_medium_send.
    - by apply all_medium_send_loop.
    - destruct (handle_packet_frame packet h) as (H1 & H2 & _).
      by apply (all_medium_fields h). }
  apply Hgen. split; [| constructor]. by intros [].
Qed.

(** X5. A transmission that fails puts the packet back on the queue named
    by the packet's own priority field, which is always MEDIUM. So a
    message submitted with priority HIGH whose first write to the radio
    fails leaves the HIGH queue and waits in the MEDIUM queue with the
    priority value 2; nothing was written and no tracker was set. *)
Theorem failed_transmission_requeues_as_medium
    (env : CallEnv) (message : string) (it : IterEnv) (h : LoRaProtocolHandler) :
  0 < length (str_encode message) ≤ 210 →
  queues_idle h → pending_acks h = [] → radio_ok it = false →
  let f := fragment_at (env_clock env) (env_id env) message 0 in
  let h2 := _send_loop it (send_message env message HIGH h).2 in
  q_high (send_queue h2) = []
  ∧ q_medium (send_queue h2) = [(2%Z, f)]
  ∧ q_low (send_queue h2) = []
  ∧ serial_out h2 = serial_out h
  ∧ pending_acks h2 = [].
Proof.
  intros Hn Hidle Hpend Hradio f h2. unfold h2.
  rewrite (send_message_single_eq env message HIGH h Hn (Hidle HIGH)).
  pose proof (Hidle HIGH) as Hh. pose proof (Hidle MEDIUM) as Hm.
  pose proof (Hidle LOW) as Hl.
  destruct h as [[qh qm ql] rq so pa rf mb ss]. cbn in Hh, Hm, Hl, Hpend. subst.
  unfold _send_loop, send_loop_try, _check_pending_acks. cbn [pending_acks with_queue
    with_message_buffer check_entries send_queue set_queue first_nonempty q_high
    q_empty negb queue_of get_nowait heappop last length Nat.sub take snd fst].
  unfold _send_packet. rewrite Hradio.
  cbn [priority fragment_at queue_of send_queue with_queue set_queue q_medium q_high].
  rewrite put_empty. cbn. done.
Qed.

Lemma failed_transmission_requeues_as_medium_witness :
  q_medium (send_queue
    (_send_loop {| sweep_now := 1; resend_env := λ k, env_of k; tx_now := 1;
                   radio_ok := false |}
       (send_message (env_of "m1") "alarm" HIGH init_handler).2))
  = [(2%Z, fragment_at tick "m1" "alarm" 0)].
Proof.
  apply (failed_transmission_requeues_as_medium (env_of "m1") "alarm"
           {| sweep_now := 1; resend_env := λ k, env_of k; tx_now := 1;
              radio_ok := false |} init_handler).
  - cbn. lia.
  - by intros [].
  - reflexivity.
  - reflexivity.
Defined.

(** ** Receiving *)

Lemma od_get_del_eq {V} (k : string) (d : list (string * V)) :
  NoDup (map fst d) → od_get k (od_del k d) = None.
Proof.
  induction d as [|[k0 v0] d IH]; cbn; [done |].
  intros Hnd. apply NoDup_cons in Hnd as [Hk0 Hnd].
  destruct (String.eqb_spec k0 k) as [-> | Hne].
  - by apply od_get_None_keys.
  - cbn. destruct (String.eqb_spec k0 k); [done | by apply IH].
Qed.

(** X6. A frame that passes the CRC check and carries the id of a
    message with a pending tracker is taken as its acknowledgment: the
    tracker is deleted and the other trackers stay. The frame itself is
    dropped, whatever it carries: it is not stored for reassembly and
    nothing is delivered; the original message stays in
    [message_buffer]. *)
Theorem handle_packet_implicit_ack (packet : LoRaPacket) (h : LoRaProtocolHandler) :
  crc32 (payload packet) = crc packet →
  is_Some (od_get (message_id packet) (pending_acks h)) →
  NoDup (map fst (pending_acks h)) →
  let h' := _handle_packet packet h in
  od_get (message_id packet) (pending_acks h') = None
  ∧ (∀ k, k ≠ message_id packet →
          od_get k (pending_acks h') = od_get k (pending_acks h))
  ∧ received_fragments h' = received_fragments h
  ∧ receive_queue h' = receive_queue h
  ∧ message_buffer h' = message_buffer h.
Proof.
  intros Hcrc [ts Hts] Hnd h'. unfold h', _handle_packet.
  rewrite Hcrc, Z.eqb_refl. cbn [negb pending_acks with_signal_stats].
  rewrite Hts. cbn. split_and!; try done.
  - by apply od_get_del_eq.
  - intros k Hk. by apply od_get_del_ne.
Qed.

Lemma handle_packet_implicit_ack_witness :
  pending_acks (_handle_packet (frame_packet "m1" 7 9 "anything") h_pending) = [].
Proof.
  pose proof (handle_packet_implicit_ack (frame_packet "m1" 7 9 "anything") h_pending)
    as H.
  cbv zeta in H. destruct H as (H & _).
  - reflexivity.
  - by eexists.
  - repeat constructor. by intros ?%elem_of_nil.
  - reflexivity.
Defined.

(** X7. A complete set of fragments whose joined payload is not valid
    UTF-8 is never delivered: reassembly raises inside its [try], nothing
    is put on the receive queue, and the fragments stay buffered. *)
Theorem handle_packet_undecodable (p : LoRaPacket) (h : LoRaProtocolHandler)
    (chunks : list (list byte)) :
  crc32 (payload p) = crc p →
  od_get (message_id p) (pending_acks h) = None →
  Z.of_nat (size (store (default ∅ (received_fragments h !! message_id p)) p))
    = total_fragments p →
  ordered_payloads (store (default ∅ (received_fragments h !! message_id p)) p)
    (seq 0 (size (store (default ∅ (received_fragments h !! message_id p)) p)))
    = Return chunks →
  utf8_valid (concat chunks) = false →
  receive_queue (_handle_packet p h) = receive_queue h
  ∧ received_fragments (_handle_packet p h) !! message_id p
    = Some (store (default ∅ (received_fragments h !! message_id p)) p).
Proof.
  intros Hcrc Hpend Hsize Hord Hbad. unfold _handle_packet.
  rewrite Hcrc, Z.eqb_refl. cbn [negb pending_acks with_signal_stats received_fragments].
  rewrite Hpend.
  change (<[fragment_id p := p]> (default ∅ (received_fragments h !! message_id p)))
    with (store (default ∅ (received_fragments h !! message_id p)) p).
  rewrite Hsize, Z.eqb_refl.
  unfold _reassemble_message, reassemble_try.
  cbn [received_fragments with_received_fragments].
  rewrite lookup_insert_eq, Hord. unfold bytes_decode. rewrite Hbad.
  cbn. by rewrite lookup_insert_eq.
Qed.

Lemma handle_packet_undecodable_witness :
  receive_queue
    (_handle_packet
       {| message_id := "b1"; fragment_id := 0; total_fragments := 1;
          priority := MEDIUM; payload := ["255"%byte]; crc := crc32 ["255"%byte];
          rssi := 0; snr := 0; timestamp := 0 |} init_handler) = [].
Proof.
  apply (handle_packet_undecodable
           {| message_id := "b1"; fragment_id := 0; total_fragments := 1;
              priority := MEDIUM; payload := ["255"%byte]; crc := crc32 ["255"%byte];
              rssi := 0; snr := 0; timestamp := 0 |} init_handler [["255"%byte]]).
  - reflexivity.
  - reflexivity.
  - reflexivity.
  - reflexivity.
  - reflexivity.
Defined.


(** ** Signal statistics *)

Lemma last100_short {A} (l : list A) : length l ≤ 100 → last100 l = l.
Proof. intros H. unfold last100. by replace (length l - 100) with 0 by lia. Qed.

Lemma last100_length {A} (l : list A) : length (last100 l) ≤ 100.
Proof. unfold last100. rewrite length_drop. lia. Qed.

Lemma last100_app {A} (a b : list A) : last100 (last100 a ++ b) = last100 (a ++ b).
Proof.
  destruct (decide (length a ≤ 100)) as [Hle | Hgt]; [by rewrite (last100_short a) |].
  unfold last100. rewrite !length_app, length_drop, !drop_app, !length_drop, drop_drop.
  f_equal; f_equal; lia.
Qed.

Lemma record_signal_window (r : Z) (s : Q) (st : SignalStats) :
  length (stats_rssi st) = length (stats_snr st) →
  stats_rssi (record_signal r s st) = last100 (stats_rssi st ++ [r])
  ∧ stats_snr (record_signal r s st) = last100 (stats_snr st ++ [s])
  ∧ packet_loss (record_signal r s st) = packet_loss st
  ∧ retransmissions (record_signal r s st) = retransmissions st.
Proof.
  intros Hlen. unfold record_signal.
  destruct (Nat.ltb_spec 100 (length (stats_rssi st ++ [r]))) as [Hgt | Hle]; cbn.
  - done.
  - rewrite !last100_short; [done | |]; rewrite length_app in *; cbn in *; lia.
Qed.

Lemma handle_packet_signal_stats (p : LoRaPacket) (h : LoRaProtocolHandler) :
  signal_stats (_handle_packet p h)
  = if crc_ok p then record_signal (rssi p) (snr p) (signal_stats h)
    else signal_stats (bump_packet_loss h).
Proof.
  unfold _handle_packet, crc_ok.
  destruct (crc32 (payload p) =? crc p)%Z; cbn [negb]; [| done].
  cbn [pending_acks with_signal_stats].
  destruct (od_get (message_id p) (pending_acks h)); [done |].
  destruct (_ =? _)%Z; [| done].
  unfold _reassemble_message, reassemble_try.
  destruct (_ !! message_id p); [| done].
  destruct (ordered_payloads _ _); [| done].
  by destruct (bytes_decode _).
Qed.

Lemma handle_packets_cons p rx h :
  handle_packets (p :: rx) h = handle_packets rx (_handle_packet p h).
Proof. reflexivity. Qed.

Lemma signal_stats_window_gen (rx : list LoRaPacket) :
  ∀ h,
    length (stats_rssi (signal_stats h)) = length (stats_snr (signal_stats h)) →
    length (stats_rssi (signal_stats h)) ≤ 100 →
    stats_rssi (signal_stats (handle_packets rx h))
    = last100 (stats_rssi (signal_stats h) ++ map rssi (List.filter crc_ok rx))
    ∧ stats_snr (signal_stats (handle_packets rx h))
      = last100 (stats_snr (signal_stats h) ++ map snr (List.filter crc_ok rx))
    ∧ packet_loss (signal_stats (handle_packets rx h)) + length (List.filter crc_ok rx)
      = packet_loss (signal_stats h) + length rx
    ∧ retransmissions (signal_stats (handle_packets rx h))
      = retransmissions (signal_stats h).
Proof.
  induction rx as [|p rx IH]; intros h Hlen Hle.
  - cbn. rewrite !app_nil_r, !last100_short by lia. split_and!; done || lia.
  - rewrite handle_packets_cons. cbn [List.filter].
    pose proof (handle_packet_signal_stats p h) as Hs.
    destruct (crc_ok p) eqn:Ecrc.
    + destruct (record_signal_window (rssi p) (snr p) (signal_stats h) Hlen)
        as (R1 & R2 & R3 & R4).
      destruct (IH (_handle_packet p h)) as (I1 & I2 & I3 & I4).
      { rewrite Hs, R1, R2. unfold last100. rewrite !length_drop, !length_app.
        cbn [length]. lia. }
      { rewrite Hs, R1. apply last100_length. }
      rewrite I1, I2, I4, Hs, R1, R2, R4, !last100_app, <- !app_assoc.
      rewrite Hs, R3 in I3. cbn [length map app]. split_and!; done || lia.
    + destruct (IH (_handle_packet p h)) as (I1 & I2 & I3 & I4).
      { by rewrite Hs. }
      { by rewrite Hs. }
      rewrite I1, I2, I4, Hs. rewrite Hs in I3. cbn in *. split_and!; done || lia.
Qed.

(** X9. The signal statistics are a sliding window over the frames that
    pass the CRC check: after any sequence of received packets the two
    sample lists hold the RSSI and the SNR of the last 100 valid frames, in
    arrival order (so they have equal length, at most 100), and
    [packet_loss] has grown by the number of frames that failed the check.
    Frames taken as acknowledgments and duplicates are sampled too. *)
Theorem signal_stats_window (rx : list LoRaPacket) (h : LoRaProtocolHandler) :
  length (stats_rssi (signal_stats h)) = length (stats_snr (signal_stats h)) →
  length (stats_rssi (signal_stats h)) ≤ 100 →
  let valid := List.filter crc_ok rx in
  let s' := signal_stats (handle_packets rx h) in
  stats_rssi s' = last100 (stats_rssi (signal_stats h) ++ map rssi valid)
  ∧ stats_snr s' = last100 (stats_snr (signal_stats h) ++ map snr valid)
  ∧ length (stats_rssi s') = length (stats_snr s')
  ∧ length (stats_rssi s') ≤ 100
  ∧ packet_loss s' = packet_loss (signal_stats h) + (length rx - length valid)
  ∧ retransmissions s' = retransmissions (signal_stats h).
Proof.
  intros Hlen Hle valid s'.
  destruct (signal_stats_window_gen rx h Hlen Hle) as (I1 & I2 & I3 & I4).
  fold valid in I1, I2, I3. fold s' in I1, I2, I3, I4.
  assert (Hfl : length valid ≤ length rx) by apply List.filter_length_le.
  split_and!; try done.
  - rewrite I1, I2. unfold last100. rewrite !length_drop, !length_app, !length_map. lia.
  - rewrite I1. apply last100_length.
  - lia.
Qed.

Lemma signal_stats_window_witness :
  stats_rssi (signal_stats (handle_packets (invalid_packet :: rx_211) init_handler))
  = [(-60)%Z; (-61)%Z].
Proof.
  pose proof (signal_stats_window (invalid_packet :: rx_211) init_handler) as H.
  cbv zeta in H. destruct H as (H & _).
  - reflexivity.
  - cbn. lia.
  - rewrite H. vm_compute. reflexivity.
Defined.





(** ** One message across one hop *)

Lemma send_then_loop (env : CallEnv) (message : string) (priority : MessagePriority)
    (it : IterEnv) (h : LoRaProtocolHandler) :
  0 < length (str_encode message) ≤ 210 →
  queues_idle h → pending_acks h = [] →
  send_loop_try it (send_message env message priority h).2
  = _send_packet (tx_now it) (radio_ok it)
      (fragment_at (env_clock env) (env_id env) message 0)
      (with_message_buffer (<[env_id env := message]> (message_buffer h)) h).
Proof.
  intros Hn Hidle Hpend.
  rewrite (send_message_single_eq env message priority h Hn (Hidle priority)).
  pose proof (Hidle HIGH) as Hh. pose proof (Hidle MEDIUM) as Hm.
  pose proof (Hidle LOW) as Hl.
  destruct h as [[qh qm ql] rq so pa rf mb ss]. cbn in Hh, Hm, Hl, Hpend. subst.
  unfold send_loop_try, _check_pending_acks.
  by destruct priority.
Qed.

(** X11. One message of 1 to 210 bytes crosses one hop. On an idle sender
    with a working radio, [send_message] followed by one iteration of the
    sender loop writes exactly one frame and sets the tracker of the
    message. A peer that parses this frame, has no tracker pending for the
    id and no fragments buffered for it, puts exactly the submitted text on
    its receive queue and keeps no buffer. *)
Theorem single_fragment_delivery
    (env : CallEnv) (message : string) (priority : MessagePriority) (it : IterEnv)
    (hs hr : LoRaProtocolHandler) (r : option Z) (s : option Q) (now : Q) :
  0 < length (str_encode message) ≤ 210 →
  utf8_valid (str_encode message) = true →
  queues_idle hs → pending_acks hs = [] → radio_ok it = true →
  od_get (env_id env) (pending_acks hr) = None →
  received_fragments hr !! env_id env = None →
  let hs' := _send_loop it (send_message env message priority hs).2 in
  ∃ f p,
    serial_out hs' = serial_out hs ++ [f]
    ∧ pending_acks hs' = [(env_id env, tx_now it)]
    ∧ queues_idle hs'
    ∧ _parse_packet f r s now = Some p
    ∧ receive_queue (_handle_packet p hr) = receive_queue hr ++ [message]
    ∧ received_fragments (_handle_packet p hr) !! env_id env = None.
Proof.
  intros Hn Hutf Hidle Hpend Hradio Hnp Hnf hs'.
  set (f0 := fragment_at (env_clock env) (env_id env) message 0).
  destruct (fragment_at_single (env_clock env) (env_id env) message Hn) as (P1 & P2 & P3).
  fold f0 in P1, P2, P3.
  exists (frame_of f0), (received_as (default 0%Z r) (default 0%Q s) now f0).
  assert (Hs : hs' = with_pending_acks [(env_id env, tx_now it)]
                 (with_serial_out (serial_out hs ++ [frame_of f0])
                    (with_message_buffer (<[env_id env := message]> (message_buffer hs)) hs))).
  { unfold hs', _send_loop. rewrite (send_then_loop env message priority it hs Hn Hidle Hpend).
    unfold _send_packet. rewrite Hradio. cbn [snd]. fold f0.
    cbn [pending_acks with_serial_out with_message_buffer]. by rewrite Hpend. }
  split_and!.
  - by rewrite Hs.
  - by rewrite Hs.
  - rewrite Hs. intros p. apply (Hidle p).
  - reflexivity.
  - set (p := received_as _ _ _ f0).
    apply (handle_packet_complete p hr [str_encode message] message).
    + cbn [payload crc p received_as]. by rewrite P1, P2.
    + exact Hnp.
    + cbn [message_id p received_as f0 fragment_at]. rewrite Hnf. cbn [default].
      unfold store. rewrite insert_empty, map_size_singleton.
      cbn [total_fragments p received_as]. by rewrite P3.
    + cbn [message_id p received_as f0 fragment_at]. rewrite Hnf. cbn [default].
      unfold store. rewrite insert_empty, map_size_singleton. cbn [seq ordered_payloads].
      change (fragment_id p) with 0%Z. change (Z.of_nat 0) with 0%Z.
      rewrite lookup_singleton_eq. cbn [payload p received_as]. by rewrite P1.
    + cbn [concat]. rewrite app_nil_r. by apply decode_encode.
  - set (p := received_as _ _ _ f0).
    apply (handle_packet_complete p hr [str_encode message] message).
    + cbn [payload crc p received_as]. by rewrite P1, P2.
    + exact Hnp.
    + cbn [message_id p received_as f0 fragment_at]. rewrite Hnf. cbn [default].
      unfold store. rewrite insert_empty, map_size_singleton.
      cbn [total_fragments p received_as]. by rewrite P3.
    + cbn [message_id p received_as f0 fragment_at]. rewrite Hnf. cbn [default].
      unfold store. rewrite insert_empty, map_size_singleton. cbn [seq ordered_payloads].
      change (fragment_id p) with 0%Z. change (Z.of_nat 0) with 0%Z.
      rewrite lookup_singleton_eq. cbn [payload p received_as]. by rewrite P1.
    + cbn [concat]. rewrite app_nil_r. by apply decode_encode.
Qed.

(** ** A sender loop that cannot proceed *)

Lemma timed_out_mono (now now' ts : Q) :
  (now <= now')%Q → timed_out now ts = true → timed_out now' ts = true.
Proof.
  unfold timed_out. intros Hle H.
  apply negb_true_iff in H. apply negb_true_iff.
  destruct (Qle_bool (now' - ts) ACK_TIMEOUT) eqn:E; [| done].
  apply Qle_bool_iff in E.
  assert (Hc : (now - ts <= ACK_TIMEOUT)%Q).
  { eapply Qle_trans; [| exact E]. unfold Qminus. apply Qplus_le_compat; [done |].
    apply Qle_refl. }
  apply Qle_bool_iff in Hc. congruence.
Qed.

Lemma od_get_elem_of {V} (k : string) (v : V) (d : list (string * V)) :
  (k, v) ∈ d → is_Some (od_get k d).
Proof.
  induction d as [|[k0 v0] d IH]; [by intros ?%elem_of_nil |].
  intros [[= <- <-] | H]%elem_of_cons; cbn.
  - by rewrite String.eqb_refl.
  - destruct (String.eqb k0 k); [eauto | by apply IH].
Qed.

Lemma od_del_elem_of {V} (k : string) (e : string * V) (d : list (string * V)) :
  e ∈ d → e.1 ≠ k → e ∈ od_del k d.
Proof.
  induction d as [|[k0 v0] d IH]; [by intros ?%elem_of_nil |].
  intros [-> | H]%elem_of_cons Hne; cbn in *.
  - destruct (String.eqb_spec k0 k); [done | left].
  - destruct (String.eqb_spec k0 k); [done |]. right. by apply IH.
Qed.

Lemma od_del_subset {V} (k : string) (e : string * V) (d : list (string * V)) :
  e ∈ od_del k d → e ∈ d.
Proof.
  induction d as [|[k0 v0] d IH]; [done |]. cbn.
  destruct (String.eqb k0 k); [by right |].
  intros [-> | H]%elem_of_cons; [left | right; by apply IH].
Qed.

Lemma od_del_NoDup {V} (k : string) (d : list (string * V)) :
  NoDup (map fst d) → NoDup (map fst (od_del k d)).
Proof.
  induction d as [|[k0 v0] d IH]; [done |]. cbn.
  intros [Hk0 Hnd]%NoDup_cons.
  destruct (String.eqb k0 k); [done |]. cbn. apply NoDup_cons. split; [| by apply IH].
  intros Hin. apply Hk0. apply list_elem_of_fmap in Hin as (e & -> & He).
  apply list_elem_of_fmap. exists e. split; [done |]. by apply od_del_subset in He.
Qed.

Lemma send_message_empty_eq env message priority h :
  str_encode message = [] →
  send_message env message priority h
  = (Return (env_id env),
     with_message_buffer (<[env_id env := message]> (message_buffer h)) h).
Proof.
  intros He. unfold send_message. rewrite fragment_message_unfold.
  apply fragment_count_0 in He. by rewrite He.
Qed.

(** With an entry in the HIGH queue, the sweep raises at the first tracker
    that has timed out and has a non-empty buffered message: the trackers
    before it are skipped or deleted, this one stays. *)
Lemma check_entries_stuck now envs items :
  ∀ h,
    q_high (send_queue h) ≠ [] →
    queue_wf HIGH (q_high (send_queue h)) →
    (∀ k, queue_fresh (env_id (envs k)) (q_high (send_queue h))) →
    (∀ k, env_id (envs k) ∉ map fst items) →
    NoDup (map fst items) →
    NoDup (map fst (pending_acks h)) →
    (∀ e, e ∈ items → e ∈ pending_acks h) →
    (∃ k ts msg, (k, ts) ∈ items ∧ timed_out now ts = true
                 ∧ message_buffer h !! k = Some msg ∧ str_encode msg ≠ []) →
    ∃ h' k1 ts1 msg1,
      check_entries now envs items h = (Raise TypeError, h')
      ∧ serial_out h' = serial_out h
      ∧ (k1, ts1) ∈ pending_acks h' ∧ timed_out now ts1 = true
      ∧ message_buffer h' !! k1 = Some msg1 ∧ str_encode msg1 ≠ []
      ∧ q_high (send_queue h')
        = q_high (send_queue h)
          ++ [(1%Z, fragment_at (env_clock (envs k1)) (env_id (envs k1)) msg1 0)]
      ∧ (∀ e, e ∈ pending_acks h' → e ∈ pending_acks h)
      ∧ NoDup (map fst (pending_acks h'))
      ∧ retransmissions (signal_stats h) < retransmissions (signal_stats h').
Proof.
  induction items as [|[k0 ts0] items IH];
    intros h Hq Hwf Hfresh Hids Hnd Hndp Hsub Hex.
  { destruct Hex as (k & ts & msg & Hin & _). by apply elem_of_nil in Hin. }
  cbn [map fst] in Hnd. apply NoDup_cons in Hnd as [Hk0 Hnd].
  assert (Hids' : ∀ k, env_id (envs k) ∉ map fst items).
  { intros k Hin. apply (Hids k). cbn. by right. }
  assert (Hid0 : ∀ k, env_id (envs k) ≠ k0).
  { intros k E. apply (Hids k). cbn. rewrite E. left. }
  assert (Hrest : ∀ e, e ∈ items → e.1 ≠ k0).
  { intros e He E. apply Hk0. apply list_elem_of_fmap. eauto. }
  assert (Hsub' : ∀ e, e ∈ items → e ∈ pending_acks h).
  { intros e He. apply Hsub. by right. }
  assert (H0 : is_Some (od_get k0 (pending_acks h))).
  { apply (od_get_elem_of k0 ts0). apply Hsub. left. }
  destruct H0 as [v0 E0].
  cbn [check_entries]. unfold check_entry.
  destruct (timed_out now ts0) eqn:Eto.
  2:{ destruct (IH h) as (h' & k1 & ts1 & msg1 & E & R); try done.
      - destruct Hex as (k & ts & msg & Hin & Hto & Hb & Hm).
        apply elem_of_cons in Hin as [[= -> ->] | Hin]; [congruence |]. eauto 10.
      - exists h', k1, ts1, msg1. by rewrite E. }
  destruct (message_buffer h !! k0) as [m0|] eqn:Eb.
  2:{ unfold del_pending. rewrite E0.
      destruct (IH (with_pending_acks (od_del k0 (pending_acks h)) h))
        as (h' & k1 & ts1 & msg1 & E & S1 & P1 & T1 & B1 & M1 & Q1 & Sub1 & ND1 & R1);
        try done.
      - cbn. by apply od_del_NoDup.
      - cbn. intros e He. apply od_del_elem_of; [by apply Hsub' | by apply Hrest].
      - destruct Hex as (k & ts & msg & Hin & Hto & Hb & Hm).
        apply elem_of_cons in Hin as [[= -> ->] | Hin]; [congruence |].
        exists k, ts, msg. done.
      - exists h', k1, ts1, msg1. rewrite E. split_and!; try done.
        intros e He. apply Sub1 in He. cbn in He. by apply od_del_subset in He. }
  destruct (str_encode m0) as [|b bs] eqn:Em.
  - rewrite (send_message_empty_eq _ _ _ _ Em).
    cbv beta iota. unfold del_pending.
    set (hb := with_message_buffer
                 (<[env_id (envs k0) := m0]> (message_buffer (bump_retransmissions h)))
                 (bump_retransmissions h)).
    assert (Epa : pending_acks hb = pending_acks h) by reflexivity.
    rewrite Epa, E0.
    destruct (IH (with_pending_acks (od_del k0 (pending_acks h)) hb))
      as (h' & k1 & ts1 & msg1 & E & S1 & P1 & T1 & B1 & M1 & Q1 & Sub1 & ND1 & R1);
      try done.
    + cbn. by apply od_del_NoDup.
    + cbn. intros e He. apply od_del_elem_of; [by apply Hsub' | by apply Hrest].
    + destruct Hex as (k & ts & msg & Hin & Hto & Hb & Hm).
      apply elem_of_cons in Hin as [[= -> ->] | Hin]; [congruence |].
      exists k, ts, msg. split_and!; try done. cbn.
      rewrite lookup_insert_ne; [done |].
      intros E. apply (Hids' k0). rewrite E. apply list_elem_of_fmap. by exists (k, ts).
    + exists h', k1, ts1, msg1. rewrite E. split_and!; try done.
      * intros e He. apply Sub1 in He. cbn in He. by apply od_del_subset in He.
      * cbn in R1. lia.
  - assert (Hne : str_encode m0 ≠ []) by (by rewrite Em).
    unfold send_message. rewrite fragment_message_unfold.
    destruct (fragment_count_pos _ Hne) as [n ->].
    cbn [seq map]. rewrite put_fragments_busy; [| done | done | apply Hfresh].
    exists (with_queue HIGH
              (q_high (send_queue h)
               ++ [(1%Z, fragment_at (env_clock (envs k0)) (env_id (envs k0)) m0 0)])
              (with_message_buffer (<[env_id (envs k0) := m0]> (message_buffer h))
                 (bump_retransmissions h))), k0, ts0, m0.
    split_and!; try done.
    + cbn. apply Hsub. left.
    + cbn. rewrite lookup_insert_ne; [done | apply Hid0].
    + cbn. lia.
Qed.

Lemma stuck_mono (now now' : Q) (h : LoRaProtocolHandler) :
  (now <= now')%Q → stuck now h → stuck now' h.
Proof.
  intros Hle (Hq & k & ts & msg & Hin & Hto & Hb & Hm).
  split; [done |]. exists k, ts, msg. split_and!; try done.
  by apply (timed_out_mono now).
Qed.

Lemma send_loop_stuck_step (it : IterEnv) (h : LoRaProtocolHandler) :
  stuck (sweep_now it) h →
  queue_wf HIGH (q_high (send_queue h)) →
  NoDup (map fst (pending_acks h)) →
  (∀ k, queue_fresh (env_id (resend_env it k)) (q_high (send_queue h))) →
  (∀ k, env_id (resend_env it k) ∉ map fst (pending_acks h)) →
  ∃ k1 msg1,
    serial_out (_send_loop it h) = serial_out h
    ∧ stuck (sweep_now it) (_send_loop it h)
    ∧ q_high (send_queue (_send_loop it h))
      = q_high (send_queue h)
        ++ [(1%Z, fragment_at (env_clock (resend_env it k1))
                    (env_id (resend_env it k1)) msg1 0)]
    ∧ (∀ e, e ∈ pending_acks (_send_loop it h) → e ∈ pending_acks h)
    ∧ NoDup (map fst (pending_acks (_send_loop it h)))
    ∧ retransmissions (signal_stats h)
      < retransmissions (signal_stats (_send_loop it h)).
Proof.
  intros (Hq & Hex) Hwf Hnd Hfresh Hids.
  destruct (check_entries_stuck (sweep_now it) (resend_env it) (pending_acks h) h)
    as (h' & k1 & ts1 & msg1 & E & S1 & P1 & T1 & B1 & M1 & Q1 & Sub1 & ND1 & R1);
    try done.
  unfold _send_loop, send_loop_try, _check_pending_acks. rewrite E. cbn [snd].
  exists k1, msg1. split_and!; try done.
  split.
  - rewrite Q1. by destruct (q_high (send_queue h)).
  - exists k1, ts1, msg1. done.
Qed.

(** X12. Once a tracker has timed out for a buffered, non-empty message
    while the HIGH queue holds an entry, the sender loop transmits nothing
    any more. Every iteration raises in the sweep, before the queues are
    looked at: the retransmission is put on the HIGH queue, which holds an
    entry of another message, so [send_message] raises and the tracker is
    not deleted. Each iteration appends one more entry to the HIGH queue
    and counts one more retransmission at least; no frame is written. (The
    iterations run without other calls in between; only a received frame
    with the id of the tracker would delete it.) *)
Theorem sender_loop_stuck (its : list IterEnv) (now0 : Q) (h : LoRaProtocolHandler) :
  stuck now0 h →
  queue_wf HIGH (q_high (send_queue h)) →
  NoDup (map fst (pending_acks h)) →
  clock_monotone now0 its →
  ids_disjoint its →
  (∀ it k, it ∈ its →
           queue_fresh (env_id (resend_env it k)) (q_high (send_queue h))) →
  (∀ it k, it ∈ its → env_id (resend_env it k) ∉ map fst (pending_acks h)) →
  let h' := run_send_loop its h in
  serial_out h' = serial_out h
  ∧ length (q_high (send_queue h')) = length (q_high (send_queue h)) + length its
  ∧ retransmissions (signal_stats h) + length its ≤ retransmissions (signal_stats h')
  ∧ ∀ now, (∀ it, it ∈ its → (sweep_now it <= now)%Q) → (now0 <= now)%Q →
           stuck now h'.
Proof.
  revert now0 h. induction its as [|it its IH];
    intros now0 h Hst Hwf Hnd Hclk Hdis Hfresh Hids h'.
  { unfold h'. cbn. split_and!; try done; try lia.
    intros now _ Hle. by apply (stuck_mono now0). }
  destruct Hclk as [Hle0 Hclk]. destruct Hdis as [Hd0 Hdis].
  destruct (send_loop_stuck_step it h) as (k1 & msg1 & S1 & St1 & Q1 & Sub1 & ND1 & R1).
  { by apply (stuck_mono now0). }
  { done. }
  { done. }
  { intros k. apply Hfresh. left. }
  { intros k. apply Hids. left. }
  destruct (IH (sweep_now it) (_send_loop it h)) as (I1 & I2 & I3 & I4); try done.
  - rewrite Q1. apply Forall_app. split; [done |]. by repeat constructor.
  - intros it' k Hit'. rewrite Q1. apply Forall_app. split.
    + apply Hfresh. by right.
    + repeat constructor. cbn. intros E. by apply (Hd0 it' k1 k Hit').
  - intros it' k Hit' Hin. apply (Hids it' k); [by right |].
    apply list_elem_of_fmap in Hin as (e & -> & He).
    apply list_elem_of_fmap. exists e. split; [done | by apply Sub1].
  - unfold h', run_send_loop in *. cbn [foldl]. cbv zeta in *.
    split_and!.
    + by rewrite I1.
    + rewrite I2, Q1, length_app. cbn [length]. lia.
    + cbn [length]. lia.
    + intros now Hall Hle. apply I4.
      * intros it' Hit'. apply Hall. by right.
      * apply Hall. left.
Qed.

Lemma sender_loop_stuck_witness :
  serial_out (run_send_loop [iter_at "a" 4; iter_at "b" 5; iter_at "c" 6] h_two_unacked)
  = serial_out h_two_unacked.
Proof.
  refine (proj1 (sender_loop_stuck [iter_at "a" 4; iter_at "b" 5; iter_at "c" 6]
                   3 h_two_unacked _ _ _ _ _ _ _)).
  - split; [by vm_compute |].
    exists "m2"%string, (1 # 10)%Q, "second"%string.
    split_and!; [vm_compute; left | reflexivity | reflexivity | by vm_compute].
  - vm_compute. by repeat constructor.
  - vm_compute. apply NoDup_cons. split; [by intros ?%elem_of_nil | constructor].
  - cbn. by split_and!.
  - cbn. split_and!; try done.
    + intros it' k k' Hin.
      repeat (apply elem_of_cons in Hin as [-> | Hin]); [| | by apply elem_of_nil in Hin];
        cbn; discriminate.
    + intros it' k k' Hin.
      repeat (apply elem_of_cons in Hin as [-> | Hin]); [| by apply elem_of_nil in Hin];
        cbn; discriminate.
    + intros it' k k' Hin. by apply elem_of_nil in Hin.
  - intros it k Hin.
    repeat (apply elem_of_cons in Hin as [-> | Hin]); [| | | by apply elem_of_nil in Hin];
      vm_compute; repeat constructor; discriminate.
  - intros it k Hin.
    repeat (apply elem_of_cons in Hin as [-> | Hin]); [| | | by apply elem_of_nil in Hin];
      vm_compute; intros H; apply elem_of_cons in H as [H | H];
      (discriminate || by apply elem_of_nil in H).
Defined.

Lemma single_fragment_delivery_witness :
  ∃ f p,
    serial_out (_send_loop (iter_env 1)
                  (send_message (env_of "m1") "hello" MEDIUM init_handler).2)
    = serial_out init_handler ++ [f]
    ∧ pending_acks (_send_loop (iter_env 1)
                      (send_message (env_of "m1") "hello" MEDIUM init_handler).2)
      = [("m1"%string, 1%Q)]
    ∧ queues_idle (_send_loop (iter_env 1)
                     (send_message (env_of "m1") "hello" MEDIUM init_handler).2)
    ∧ _parse_packet f (Some (-70)%Z) (Some 5%Q) 3 = Some p
    ∧ receive_queue (_handle_packet p init_handler)
      = receive_queue init_handler ++ ["hello"%string]
    ∧ received_fragments (_handle_packet p init_handler) !! "m1"%string = None.
Proof.
  apply (single_fragment_delivery (env_of "m1") "hello" MEDIUM (iter_env 1)
           init_handler init_handler (Some (-70)%Z) (Some 5%Q) 3).
  - cbn. lia.
  - reflexivity.
  - by intros [].
  - reflexivity.
  - reflexivity.
  - reflexivity.
  - reflexivity.
Defined.

(** ** Duplicates *)

(** X13. The receiver does not suppress duplicates. A frame that is a
    whole message (index 0 of 1, valid CRC, decodable payload) is delivered
    each time it is received: [n] receptions put [n] copies on the receive
    queue. *)
Theorem duplicate_frames_redelivered (p : LoRaPacket) (msg : string) (n : nat)
    (h : LoRaProtocolHandler) :
  crc32 (payload p) = crc p →
  fragment_id p = 0%Z → total_fragments p = 1%Z →
  bytes_decode (payload p) = Return msg →
  od_get (message_id p) (pending_acks h) = None →
  received_fragments h !! message_id p = None →
  receive_queue (handle_packets (repeat p n) h) = receive_queue h ++ repeat msg n.
Proof.
  intros Hcrc Hidx Htot Hdec. revert h.
  induction n as [|n IH]; intros h Hpend Hbuf.
  { cbn. by rewrite app_nil_r. }
  cbn [repeat]. rewrite handle_packets_cons.
  destruct (handle_packet_complete p h [payload p] msg) as [Hq Hb]; try done.
  - rewrite Hbuf. cbn [default]. unfold store.
    by rewrite insert_empty, map_size_singleton, Htot.
  - rewrite Hbuf. cbn [default]. unfold store.
    rewrite insert_empty, map_size_singleton. cbn [seq ordered_payloads].
    rewrite Hidx. change (Z.of_nat 0) with 0%Z. by rewrite lookup_singleton_eq.
  - cbn [concat]. by rewrite app_nil_r.
  - rewrite IH; [| | done].
    + rewrite Hq, <- app_assoc. done.
    + destruct (handle_packet_frame p h) as (_ & _ & _ & [-> | ->]); [done |].
      by apply od_get_del_None.
Qed.

Lemma duplicate_frames_redelivered_witness :
  receive_queue (handle_packets (repeat (frame_packet "m7" 0 1 "ping") 3) init_handler)
  = receive_queue init_handler ++ repeat "ping"%string 3.
Proof.
  apply (duplicate_frames_redelivered (frame_packet "m7" 0 1 "ping") "ping" 3 init_handler).
  - reflexivity.
  - reflexivity.
  - reflexivity.
  - reflexivity.
  - reflexivity.
  - reflexivity.
Defined.

(** ** No acknowledgment is produced *)

(** X14. Receiving never makes the handler transmit: whatever packets are
    handled, valid or not, complete or not, nothing is written to the radio
    and nothing is put on a send queue. So no frame acknowledges a
    reception; a tracker at the sender is only ever deleted by the sweep or
    by a frame that happens to carry its id. *)
Theorem reception_never_answers (rx : list LoRaPacket) (h : LoRaProtocolHandler) :
  serial_out (handle_packets rx h) = serial_out h
  ∧ send_queue (handle_packets rx h) = send_queue h
  ∧ message_buffer (handle_packets rx h) = message_buffer h
  ∧ ∀ k, od_get k (pending_acks h) = None →
         od_get k (pending_acks (handle_packets rx h)) = None.
Proof.
  revert h. induction rx as [|p rx IH]; intros h; [done |].
  rewrite handle_packets_cons.
  destruct (IH (_handle_packet p h)) as (I1 & I2 & I3 & I4).
  destruct (handle_packet_frame p h) as (H1 & H2 & H3 & H4).
  rewrite I1, I2, I3, H1, H2, H3. split; [done |]. split; [done |]. split; [done |].
  intros k Hk. apply I4. destruct H4 as [-> | ->]; [done | by apply od_get_del_None].
Qed.

(** ** The buffer of sent messages *)

Lemma buffer_dom_check_entries now envs items :
  ∀ h, dom (message_buffer h) ⊆ dom (message_buffer (check_entries now envs items h).2).
Proof.
  induction items as [|[k ts] items IH]; intros h; [done |].
  cbn [check_entries].
  assert (H1 : dom (message_buffer h)
               ⊆ dom (message_buffer (check_entry now envs (k, ts) h).2)).
  { unfold check_entry. destruct (timed_out now ts); [| done].
    destruct (message_buffer h !! k) as [msg|].
    - destruct (send_message_frame (envs k) msg HIGH (bump_retransmissions h))
        as (_ & _ & _ & _ & H5 & _).
      assert (Hs : dom (message_buffer h)
                   ⊆ dom (message_buffer
                            (send_message (envs k) msg HIGH (bump_retransmissions h)).2)).
      { rewrite H5. cbn. rewrite dom_insert. apply union_subseteq_r. }
      destruct (send_message _ _ _ _) as [[r|e] h1]; cbn [snd] in *; [| done].
      destruct (del_pending_frame k h1) as (_ & _ & _ & D4). by rewrite D4.
    - destruct (del_pending_frame k h) as (_ & _ & _ & D4). by rewrite D4. }
  destruct (check_entry now envs (k, ts) h) as [[[]|e] h1]; cbn [snd] in *; [| done].
  etrans; [exact H1 | apply IH].
Qed.

Lemma buffer_send_packet now ok packet h :
  message_buffer (_send_packet now ok packet h).2 = message_buffer h.
Proof.
  unfold _send_packet. destruct ok; [done |]. by destruct (put _ _).
Qed.

(** X15. Nothing ever leaves [message_buffer]: whatever is submitted,
    transmitted, acknowledged, retransmitted or received, every id that has
    a buffered message keeps one. An acknowledged message stays buffered,
    and every retransmission adds an entry under its new id. *)
Theorem message_buffer_never_shrinks (ops : list LinkOp) (h : LoRaProtocolHandler) :
  dom (message_buffer h) ⊆ dom (message_buffer (run_ops ops h)).
Proof.
  revert h. induction ops as [|op ops IH]; intros h; [done |].
  unfold run_ops. cbn [foldl]. etrans; [| apply IH].
  destruct op as [env msg p | env | packet]; cbn [run_op].
  - destruct (send_message_frame env msg p h) as (_ & _ & _ & _ & H5 & _).
    rewrite H5, dom_insert. apply union_subseteq_r.
  - unfold _send_loop, send_loop_try, _check_pending_acks.
    pose proof (buffer_dom_check_entries (sweep_now env) (resend_env env)
                  (pending_acks h) h) as H1.
    destruct (check_entries _ _ _ _) as [[[]|e] h1]; cbn [snd] in *; [| done].
    destruct (first_nonempty (send_queue h1)) as [p|]; [| done].
    destruct (get_nowait _) as [[[v packet]|e] q]; cbn [snd]; [| done].
    by rewrite buffer_send_packet.
  - destruct (handle_packet_frame packet h) as (_ & _ & H3 & _). by rewrite H3.
Qed.

(** ** Retransmission without end *)

Lemma retransmit_step (it : IterEnv) (k : string) (ts : Q) (msg : string)
    (h : LoRaProtocolHandler) :
  lone_tracker k ts msg h →
  0 < length (str_encode msg) ≤ 210 →
  timed_out (sweep_now it) ts = true → radio_ok it = true →
  lone_tracker (env_id (resend_env it k)) (tx_now it) msg (_send_loop it h)
  ∧ serial_out (_send_loop it h)
    = serial_out h
      ++ [frame_of (fragment_at (env_clock (resend_env it k))
                      (env_id (resend_env it k)) msg 0)]
  ∧ retransmissions (signal_stats (_send_loop it h))
    = retransmissions (signal_stats h) + 1.
Proof.
  intros (Hpend & Hbuf & Hidle) Hn Hto Hradio.
  unfold _send_loop, send_loop_try, _check_pending_acks.
  rewrite Hpend. cbn [check_entries]. unfold check_entry. rewrite Hto, Hbuf.
  rewrite (send_message_single_eq (resend_env it k) msg HIGH (bump_retransmissions h) Hn
             (Hidle HIGH)).
  cbv beta iota. unfold del_pending.
  pose proof (Hidle HIGH) as Hh. pose proof (Hidle MEDIUM) as Hm.
  pose proof (Hidle LOW) as Hl.
  destruct h as [[qh qm ql] rq so pa rf mb ss]. cbn in Hh, Hm, Hl, Hpend, Hbuf. subst.
  cbn [pending_acks with_queue with_message_buffer bump_retransmissions with_signal_stats
       od_get od_del].
  rewrite String.eqb_refl. cbn [snd fst send_queue with_pending_acks set_queue
    first_nonempty q_high q_empty negb queue_of get_nowait heappop last length Nat.sub take
    with_queue].
  unfold _send_packet. rewrite Hradio.
  cbn [snd pending_acks with_pending_acks with_serial_out serial_out od_set signal_stats
       retransmissions message_buffer send_queue].
  unfold lone_tracker.
  cbn [snd pending_acks with_pending_acks with_serial_out serial_out od_set signal_stats
       retransmissions message_buffer send_queue].
  split_and!; try done.
  cbn [message_buffer with_queue with_pending_acks with_message_buffer].
  by rewrite lookup_insert_eq.
Qed.

(** X16. Without acknowledgment a message is retransmitted for ever:
    nothing counts the attempts. On a sender whose only tracker belongs to a
    buffered message of 1 to 210 bytes, every iteration of the sender loop
    that finds the tracker timed out retransmits the message under a new id
    and sets a tracker for that id; so [n] such iterations write [n] more
    frames with the same payload, and the sender is again in a state with a
    single tracker for the message. *)
Theorem retransmission_never_ends (its : list IterEnv) (k : string) (ts : Q)
    (msg : string) (h : LoRaProtocolHandler) :
  lone_tracker k ts msg h →
  0 < length (str_encode msg) ≤ 210 →
  retransmit_schedule k ts its →
  let h' := run_send_loop its h in
  map w_payload (serial_out h')
  = map w_payload (serial_out h) ++ repeat (str_encode msg) (length its)
  ∧ retransmissions (signal_stats h') = retransmissions (signal_stats h) + length its
  ∧ ∃ k' ts', lone_tracker k' ts' msg h'.
Proof.
  intros Hlone Hn. revert k ts h Hlone.
  induction its as [|it its IH]; intros k ts h Hlone Hsched h'.
  { unfold h'. cbn. rewrite app_nil_r. split_and!; try done; try lia; eauto. }
  destruct Hsched as (Hto & Hradio & _ & Hsched).
  destruct (retransmit_step it k ts msg h Hlone Hn Hto Hradio) as (L1 & S1 & R1).
  destruct (IH _ _ _ L1 Hsched) as (I1 & I2 & I3).
  unfold h', run_send_loop in *. cbn [foldl]. cbv zeta in *.
  rewrite I1, I2, S1, R1, map_app. cbn [map length repeat frame_of w_payload].
  destruct (fragment_at_single (env_clock (resend_env it k)) (env_id (resend_env it k))
              msg Hn) as (P1 & _).
  rewrite P1, <- app_assoc. cbn [app]. split_and!; try done. lia.
Qed.

Lemma retransmission_never_ends_witness :
  map w_payload
    (serial_out (run_send_loop [iter_at "a" 3; iter_at "b" 6; iter_at "c" 9] h_pending))
  = [str_encode "hi"; str_encode "hi"; str_encode "hi"].
Proof.
  refine (proj1 (retransmission_never_ends [iter_at "a" 3; iter_at "b" 6; iter_at "c" 9]
                   "m1" 0 "hi" h_pending _ _ _)).
  - split_and!; try done. by intros [].
  - cbn. lia.
  - cbn. split_and!; done.
Defined.

(** * Further properties of the mesh layer *)

(** ** Discovery *)

Lemma add_edge_weight (u v : string) (w : Q) (G : gmap string (gmap string Q)) :
  u ≠ v →
  add_edge u v w G !! u ≫= (.!! v) = Some w
  ∧ add_edge u v w G !! v ≫= (.!! u) = Some w.
Proof.
  intros Huv. unfold add_edge.
  set (G1 := add_node v (add_node u G)).
  assert (Hu : is_Some (G1 !! u)).
  { apply elem_of_dom. unfold G1. rewrite !add_node_dom. eauto. }
  assert (Hv : is_Some (G1 !! v)).
  { apply elem_of_dom. unfold G1. rewrite !add_node_dom. eauto. }
  destruct Hu as [au Hu], Hv as [av Hv].
  split.
  - rewrite lookup_alter_ne by done. rewrite lookup_alter_eq, Hu. cbn.
    by rewrite lookup_insert_eq.
  - rewrite lookup_alter_eq, lookup_alter_ne by done. rewrite Hv. cbn.
    by rewrite lookup_insert_eq.
Qed.

Lemma link_weight_bounds (r : Q) :
  (0 < 1 / (Qabs r + 1))%Q ∧ (1 / (Qabs r + 1) <= 1)%Q.
Proof.
  assert (H1 : (1 <= Qabs r + 1)%Q).
  { rewrite <- (Qplus_0_l 1) at 1. apply Qplus_le_compat; [apply Qabs_nonneg | apply Qle_refl]. }
  assert (H0 : (0 < Qabs r + 1)%Q) by (eapply Qlt_le_trans; [| exact H1]; reflexivity).
  split.
  - apply Qlt_shift_div_l; [done |]. by rewrite Qmult_0_l.
  - apply Qle_shift_div_r; [done |]. by rewrite Qmult_1_l.
Qed.

Lemma register_node_fields
    (sp : gmap string (gmap string Q) → string → string → outcome (list string))
    (du : string → list (string * string) → Q → string)
    (env : CallEnv) (now : Q) (id : string) (node : Node) (m : MeshNetworkManager) :
  node_id (_register_node sp du env now id node m) = node_id m
  ∧ nodes (_register_node sp du env now id node m) = <[id := node]> (nodes m)
  ∧ network_graph (_register_node sp du env now id node m)
    = add_node id (network_graph m).
Proof.
  unfold _register_node.
  destruct (update_routing_table_fields sp du env now
              (with_network_graph (add_node id (network_graph m))
                 (with_nodes (<[id := node]> (nodes m)) m)))
    as (F1 & F2 & F3 & _).
  by rewrite F1, F2, F3.
Qed.

Lemma handle_discovery_fields
    (sp : gmap string (gmap string Q) → string → string → outcome (list string))
    (du : string → list (string * string) → Q → string)
    (env : CallEnv) (now : Q) (sender : string) (gateway : bool) (battery : Q)
    (m : MeshNetworkManager) :
  sender ≠ node_id m →
  let node :=
    {| n_id := sender; last_seen := now;
       n_rssi := match get_signal_quality (lora m) with
                 | Some (r, _, _, _) => r
                 | None => 0%Q
                 end;
       n_snr := match get_signal_quality (lora m) with
                | Some (_, s, _, _) => s
                | None => 0%Q
                end;
       hop_count := 1; battery_level := battery; n_is_gateway := gateway |} in
  node_id (_handle_discovery sp du env now sender gateway battery m) = node_id m
  ∧ nodes (_handle_discovery sp du env now sender gateway battery m)
    = <[sender := node]> (nodes m)
  ∧ network_graph (_handle_discovery sp du env now sender gateway battery m)
    = add_edge (node_id m) sender (1 / (Qabs (n_rssi node) + 1))%Q
        (add_node sender (network_graph m))
  ∧ routing_table (_handle_discovery sp du env now sender gateway battery m)
    = routing_table (_register_node sp du env now sender node m).
Proof.
  intros Hne node. unfold _handle_discovery.
  destruct (String.eqb_spec sender (node_id m)) as [E | _]; [done |].
  fold node.
  destruct (register_node_fields sp du env now sender node m) as (F1 & F2 & F3).
  cbn [node_id nodes network_graph routing_table with_network_graph].
  by rewrite F1, F2, F3.
Qed.

(** X17. A DISCOVERY message from another node, handled in a state where
    graph and neighbour table agree and the routing table has its three
    properties: the sender's record is written with the reception time, hop
    count 1, the battery level and gateway flag of the message, and as RSSI
    the handler's current average over all received frames; the graph gets
    the edge between the local node and the sender, in both directions, with
    the weight 1 / (|rssi| + 1), which lies in (0, 1]; and the agreement of
    graph and neighbour table and the three properties hold afterwards. *)
Theorem handle_discovery_registers
    (sp : gmap string (gmap string Q) → string → string → outcome (list string))
    (du : string → list (string * string) → Q → string)
    (env : CallEnv) (now : Q) (sender : string) (gateway : bool) (battery : Q)
    (m : MeshNetworkManager) :
  shortest_path_contract sp → graph_wf m → table_ok m → sender ≠ node_id m →
  let m' := _handle_discovery sp du env now sender gateway battery m in
  let r := match get_signal_quality (lora m) with
           | Some (r, _, _, _) => r
           | None => 0%Q
           end in
  let s := match get_signal_quality (lora m) with
           | Some (_, s, _, _) => s
           | None => 0%Q
           end in
  nodes m'
  = <[sender := {| n_id := sender; last_seen := now; n_rssi := r; n_snr := s;
                   hop_count := 1; battery_level := battery;
                   n_is_gateway := gateway |}]> (nodes m)
  ∧ network_graph m' !! node_id m ≫= (.!! sender) = Some (1 / (Qabs r + 1))%Q
  ∧ network_graph m' !! sender ≫= (.!! node_id m) = Some (1 / (Qabs r + 1))%Q
  ∧ (0 < 1 / (Qabs r + 1))%Q ∧ (1 / (Qabs r + 1) <= 1)%Q
  ∧ graph_wf m' ∧ table_ok m'.
Proof.
  intros Hc Hwf Hok Hne m' r s.
  destruct (handle_discovery_ok sp du env now sender gateway battery m Hc Hwf (or_intror Hok))
    as [Hwf' Hok'].
  destruct (link_weight_bounds r) as [B1 B2].
  destruct (handle_discovery_fields sp du env now sender gateway battery m Hne)
    as (F1 & F2 & F3 & _).
  split_and!; try done; try (by apply Hok').
  - unfold m'. rewrite F3. apply add_edge_weight. congruence.
  - unfold m'. rewrite F3. apply add_edge_weight. congruence.
Qed.

Lemma walk_last_adjacent (G : gmap string (gmap string Q)) (p : list string) :
  ∀ s t, head p = Some s → last p = Some t → s ≠ t → is_walk G p →
         ∃ u, adjacent G u t.
Proof.
  induction p as [|a p IH]; intros s t Hh Hl Hne Hw; [done |].
  cbn [head] in Hh. injection Hh as ->.
  destruct p as [|b p].
  - cbn in Hl. congruence.
  - destruct Hw as [Hab Hw].
    destruct (decide (b = t)) as [-> | Hbt]; [by exists s |].
    apply (IH b t); try done.
Qed.

Lemma no_walk_to_isolated (m : MeshNetworkManager) (G : gmap string (gmap string Q))
    (p : list string) (t : string) :
  graph_wf m → (∀ u v, G !! u ≫= (.!! v) = network_graph m !! u ≫= (.!! v)) →
  t ∉ dom (network_graph m) → t ≠ node_id m →
  head p = Some (node_id m) → last p = Some t → is_walk G p → False.
Proof.
  intros (_ & _ & Wsym & _) HG Ht Hne Hh Hl Hw.
  destruct (walk_last_adjacent G p _ _ Hh Hl (not_eq_sym Hne) Hw) as [u Hu].
  unfold adjacent in Hu. rewrite HG in Hu. apply Wsym in Hu.
  apply Ht, elem_of_dom. destruct (network_graph m !! t); [eauto | by destruct Hu].
Qed.

(** X18. The first DISCOVERY of a node gives no route to it. When the
    sender is not yet in the graph, the handler registers it, which
    rebuilds the routing table while the new node has no edge, and adds the
    edge only afterwards: when the handler returns, the sender is a known
    node and a neighbour in the graph, and the routing table has no entry
    for it. *)
Theorem first_discovery_gives_no_route
    (sp : gmap string (gmap string Q) → string → string → outcome (list string))
    (du : string → list (string * string) → Q → string)
    (env : CallEnv) (now : Q) (sender : string) (gateway : bool) (battery : Q)
    (m : MeshNetworkManager) :
  shortest_path_contract sp → graph_wf m → table_ok m → sender ≠ node_id m →
  sender ∉ dom (network_graph m) →
  let m' := _handle_discovery sp du env now sender gateway battery m in
  is_Some (nodes m' !! sender)
  ∧ adjacent (network_graph m') (node_id m) sender
  ∧ routing_table m' !! sender = None.
Proof.
  intros Hc Hwf Hok Hne Hnew m'.
  destruct (handle_discovery_fields sp du env now sender gateway battery m Hne)
    as (F1 & F2 & F3 & F4).
  cbv zeta in *. unfold m'. split_and!.
  - rewrite F2, lookup_insert_eq. eauto.
  - unfold adjacent. rewrite F3. apply add_edge_adj; [congruence | by left].
  - rewrite F4. unfold _register_node.
    match goal with |- routing_table (_update_routing_table _ _ _ _ ?x) !! _ = _ =>
      set (m0 := x) end.
    destruct (update_routing_table_fields sp du env now m0) as (_ & _ & _ & U4).
    destruct (routing_table (_update_routing_table sp du env now m0) !! sender)
      as [v|] eqn:Ev; [exfalso | done].
    destruct (build_routes sp (network_graph m0) (node_id m0)
                (map fst (map_to_list (nodes m0))) ∅) as [new|e] eqn:Eb.
    + rewrite U4 in Ev.
      destruct (build_routes_lookup sp _ _ _ _ _ Eb sender v Ev)
        as [Hemp | (_ & p & Hsp & _ & _)]; [by rewrite lookup_empty in Hemp |].
      pose proof (Hc (network_graph m0) (node_id m0) sender) as Hcon.
      rewrite Hsp in Hcon. destruct Hcon as (Hh & Hl & Hw).
      apply (no_walk_to_isolated m (network_graph m0) p sender); try done.
      intros u v'. apply add_node_adj.
    + rewrite U4 in Ev. cbn in Ev.
      destruct Hok as (_ & _ & T3). destruct (T3 sender v Ev) as (p & Hh & Hl & Hw & _).
      by apply (no_walk_to_isolated m (network_graph m) p sender).
Qed.

(** ** The cleanup of silent nodes *)

Lemma remove_node_graph_wf (id : string) (G' : gmap string (gmap string Q))
    (m : MeshNetworkManager) :
  graph_wf m → remove_node id (network_graph m) = Return G' →
  graph_wf (with_network_graph G' (with_nodes (delete id (nodes m)) m)).
Proof.
  intros (W1 & W3 & Wsym & Wirr) Er. split_and!; cbn.
  - intros k Hk. apply (remove_node_dom _ _ _ Er) in Hk as [Hne Hk].
    destruct (W1 k Hk) as [? | ?]; [by left | right].
    by rewrite lookup_delete_ne.
  - intros k Hk. apply (remove_node_dom _ _ _ Er).
    destruct (decide (id = k)) as [-> | Hne].
    + rewrite lookup_delete_eq in Hk. by destruct Hk.
    + rewrite lookup_delete_ne in Hk by done. split; [done | by apply W3].
  - intros u v Huv.
    apply (remove_node_lookup _ _ _ Er) in Huv as (Hu & Huv & Hv).
    assert (Hvid : v ≠ id).
    { intros ->. apply Hv; [by apply Wsym | done]. }
    apply (remove_node_sym _ _ _ Er); [done | done | by apply Wsym].
  - intros u.
    destruct (G' !! u ≫= (.!! u)) eqn:E; [| done].
    assert (Hs : is_Some (G' !! u ≫= (.!! u))) by eauto.
    apply (remove_node_lookup _ _ _ Er) in Hs as (_ & Hs & _).
    rewrite Wirr in Hs. by destruct Hs.
Qed.

(** The removal of a known node other than the local one: it returns, and
    the rebuild that ends it leaves a table with the three properties. *)
Lemma remove_node_step
    (sp : gmap string (gmap string Q) → string → string → outcome (list string))
    (du : string → list (string * string) → Q → string)
    (env : CallEnv) (now : Q) (id : string) (m : MeshNetworkManager) :
  shortest_path_contract sp → graph_wf m →
  node_id m ∈ dom (network_graph m) ∨ table_ok m →
  id ≠ node_id m → is_Some (nodes m !! id) →
  ∃ m', _remove_node sp du env now id m = (Return tt, m')
        ∧ node_id m' = node_id m
        ∧ nodes m' = delete id (nodes m)
        ∧ remove_node id (network_graph m) = Return (network_graph m')
        ∧ graph_wf m' ∧ table_ok m'.
Proof.
  intros Hc Hwf Hor0 Hid [n Hn]. unfold _remove_node. rewrite Hn.
  pose proof Hwf as (W1 & W3 & Wsym & Wirr).
  assert (Hin : id ∈ dom (network_graph m)) by (apply W3; eauto).
  cbn [network_graph with_nodes].
  destruct (remove_node id (network_graph m)) as [G'|e] eqn:Er.
  2:{ unfold remove_node in Er. apply elem_of_dom in Hin as [? Hin].
      by rewrite Hin in Er. }
  set (m1 := with_network_graph G' (with_nodes (delete id (nodes m)) m)).
  pose proof (remove_node_graph_wf id G' m Hwf Er) as Hwf1. fold m1 in Hwf1.
  assert (Hor : node_id m1 ∈ dom (network_graph m1) ∨ table_ok m1).
  { destruct (decide (node_id m ∈ dom (network_graph m))) as [Hself | Hself].
    - left. cbn. apply (remove_node_dom _ _ _ Er). done.
    - right. destruct Hor0 as [? | Hok]; [done |]. destruct Hok as (T1 & T2 & T3).
      assert (Hempty : ∀ k v, routing_table m !! k = Some v → False).
      { intros k v Hk. apply Hself.
        by apply (table_ok_self_in_graph m k v). }
      split_and!; cbn; [done | |]; intros k v Hk; by destruct (Hempty k v). }
  destruct (update_routing_table_ok sp du env now m1 Hc Hwf1 Hor) as [Hg Ht].
  destruct (update_routing_table_fields sp du env now m1) as (F1 & F2 & F3 & _).
  eexists. split; [reflexivity |].
  cbn [node_id nodes network_graph with_log]. rewrite F1, F2, F3.
  split_and!; done.
Qed.

Lemma remove_nodes_ok
    (sp : gmap string (gmap string Q) → string → string → outcome (list string))
    (du : string → list (string * string) → Q → string)
    (envs : string → CallEnv) (nows : string → Q) (ids : list string) :
  shortest_path_contract sp →
  ∀ m, NoDup ids →
       (∀ id, id ∈ ids → id ≠ node_id m ∧ is_Some (nodes m !! id)) →
       graph_wf m → node_id m ∈ dom (network_graph m) ∨ table_ok m →
       ∃ m', remove_nodes sp du envs nows ids m = (Return tt, m')
             ∧ node_id m' = node_id m
             ∧ (∀ k, nodes m' !! k = if decide (k ∈ ids) then None else nodes m !! k)
             ∧ size (nodes m') + length ids = size (nodes m)
             ∧ graph_wf m'
             ∧ (table_ok m ∨ ids ≠ [] → table_ok m')
             ∧ (node_id m ∈ dom (network_graph m) →
                node_id m' ∈ dom (network_graph m'))
             ∧ (∀ u v, adjacent (network_graph m') u v →
                       adjacent (network_graph m) u v)
             ∧ (∀ u v, u ∉ ids → v ∉ ids → adjacent (network_graph m) u v →
                       adjacent (network_graph m') u v).
Proof.
  intros Hc. induction ids as [|id ids IH]; intros m Hnd Hids Hwf Hor.
  { exists m. split; [done |]. split; [done |]. split; [done |].
    split; [cbn; lia |]. split; [done |]. split; [by intros [? | ?] |].
    split; [done |]. split; [done |]. by intros u v _ _ ?. }
  apply NoDup_cons in Hnd as [Hid Hnd].
  destruct (Hids id) as [Hself Hin]; [left |].
  destruct (remove_node_step sp du (envs id) (nows id) id m Hc Hwf Hor Hself Hin)
    as (m1 & E1 & I1 & N1 & G1 & W1 & T1).
  destruct (IH m1 Hnd) as (m' & E & I & N & S & W & T & D & A & K); try done.
  { intros k Hk. destruct (Hids k) as [? ?]; [by right |].
    rewrite I1, N1. split; [done |]. rewrite lookup_delete_ne; [done |].
    intros ->. done. }
  { by right. }
  exists m'. cbn [remove_nodes]. rewrite E1.
  split; [done |]. split; [congruence |].
  split; [| split; [| split; [done | split; [| split; [| split]]]]].
  - intros k. rewrite N, N1.
    destruct (decide (k ∈ ids)) as [Hk | Hk].
    + rewrite decide_True; [done | by right].
    + destruct (decide (k = id)) as [-> | Hne].
      * rewrite decide_True by left. by rewrite lookup_delete_eq.
      * rewrite decide_False; [by rewrite lookup_delete_ne |].
        intros [? | ?]%elem_of_cons; done.
  - rewrite N1 in S. destruct Hin as [n Hn].
    pose proof (map_size_delete id (nodes m)) as Hsz. rewrite Hn in Hsz.
    cbn [length]. assert (0 < size (nodes m)); [| lia].
    destruct (decide (size (nodes m) = 0)) as [H0 | ?]; [| lia].
    apply map_size_empty_inv in H0. rewrite H0 in Hn. by rewrite lookup_empty in Hn.
  - intros _. apply T. by left.
  - intros Hs. apply D. rewrite I1. apply (remove_node_dom _ _ _ G1). done.
  - intros u v Huv. apply A in Huv.
    by apply (remove_node_lookup _ _ _ G1) in Huv as (_ & Huv & _).
  - intros u v Hu Hv Huv. apply not_elem_of_cons in Hu as [Hu1 Hu2].
    apply not_elem_of_cons in Hv as [Hv1 Hv2].
    apply K; [done | done |]. by apply (remove_node_sym _ _ _ G1).
Qed.

Lemma filter_fst_NoDup {A} (f : string * A → bool) (l : list (string * A)) :
  NoDup (map fst l) → NoDup (map fst (List.filter f l)).
Proof.
  induction l as [|x l IH]; [done |]. cbn [map List.filter].
  intros [Hx Hnd]%NoDup_cons.
  destruct (f x); [| by apply IH]. cbn [map]. apply NoDup_cons. split; [| by apply IH].
  intros Hin. apply Hx. apply list_elem_of_fmap in Hin as (y & -> & Hy).
  apply list_elem_of_fmap. exists y. split; [done |].
  apply list_elem_of_In in Hy. apply List.filter_In in Hy as [Hy _].
  by apply list_elem_of_In.
Qed.

Lemma elem_of_inactive_nodes (t : Q) (m : MeshNetworkManager) (k : string) :
  k ∈ inactive_nodes t m
  ↔ ∃ n, nodes m !! k = Some n ∧ is_inactive t (node_id m) (k, n) = true.
Proof.
  unfold inactive_nodes. rewrite list_elem_of_fmap. split.
  - intros ([k' n] & -> & Hin). apply list_elem_of_In, List.filter_In in Hin as [Hin Hf].
    apply list_elem_of_In, elem_of_map_to_list in Hin. eauto.
  - intros (n & Hn & Hf). exists (k, n). split; [done |].
    apply list_elem_of_In, List.filter_In. split; [| done].
    by apply list_elem_of_In, elem_of_map_to_list.
Qed.

(** One iteration of the cleanup loop: what it removes and what it
    keeps. *)
Lemma cleanup_removes_silent_nodes_aux
    (sp : gmap string (gmap string Q) → string → string → outcome (list string))
    (du : string → list (string * string) → Q → string)
    (current_time : Q) (envs : string → CallEnv) (nows : string → Q)
    (m : MeshNetworkManager) :
  shortest_path_contract sp → graph_wf m →
  node_id m ∈ dom (network_graph m) ∨ table_ok m →
  ∃ m', cleanup_try sp du current_time envs nows m = (Return tt, m')
        ∧ node_id m' = node_id m
        ∧ (∀ k, nodes m' !! k
                = match nodes m !! k with
                  | Some n =>
                    if is_inactive current_time (node_id m) (k, n) then None else Some n
                  | None => None
                  end)
        ∧ nodes m' !! node_id m = nodes m !! node_id m
        ∧ graph_wf m'
        ∧ (table_ok m ∨ inactive_nodes current_time m ≠ [] → table_ok m')
        ∧ size (nodes m') + length (inactive_nodes current_time m) = size (nodes m)
        ∧ active_nodes (stats m')
          = (Z.of_nat (size (nodes m')) - Z.of_nat (length (inactive_nodes current_time m)))%Z
        ∧ (node_id m ∈ dom (network_graph m) → node_id m' ∈ dom (network_graph m'))
        ∧ (∀ u v, adjacent (network_graph m') u v → adjacent (network_graph m) u v)
        ∧ (∀ u v, u ∉ inactive_nodes current_time m → v ∉ inactive_nodes current_time m →
                  adjacent (network_graph m) u v → adjacent (network_graph m') u v).
Proof.
  intros Hc Hwf Hor.
  destruct (remove_nodes_ok sp du envs nows (inactive_nodes current_time m) Hc m)
    as (m1 & E & I & N & S & W & T & D & A & K); try done.
  { apply filter_fst_NoDup, NoDup_fst_map_to_list. }
  { intros id Hid. apply elem_of_inactive_nodes in Hid as (n & Hn & Hf).
    split; [| eauto]. unfold is_inactive in Hf. cbn [fst] in Hf.
    apply andb_true_iff in Hf as [_ Hf]. apply negb_true_iff in Hf.
    by apply String.eqb_neq in Hf. }
  assert (Hnodes : ∀ k, nodes m1 !! k
                        = match nodes m !! k with
                          | Some n =>
                            if is_inactive current_time (node_id m) (k, n)
                            then None else Some n
                          | None => None
                          end).
  { intros k. rewrite N.
    destruct (decide (k ∈ inactive_nodes current_time m)) as [Hk | Hk].
    - apply elem_of_inactive_nodes in Hk as (n & -> & ->). done.
    - destruct (nodes m !! k) as [n|] eqn:En; [| done].
      destruct (is_inactive current_time (node_id m) (k, n)) eqn:Ef; [| done].
      exfalso. apply Hk. apply elem_of_inactive_nodes. eauto. }
  eexists. unfold cleanup_try. rewrite E. split; [reflexivity |].
  cbn [node_id nodes stats with_stats active_nodes set_active_nodes].
  cbn [network_graph].
  split; [done |]. split; [exact Hnodes |].
  split; [| split; [done | split; [| split; [| split; [| split; [| split]]]]]].
  - rewrite Hnodes. destruct (nodes m !! node_id m) as [n|]; [| done].
    unfold is_inactive. cbn [fst]. by rewrite String.eqb_refl, andb_false_r.
  - intros Hc'. apply (table_ok_fields m1); try done. by apply T.
  - done.
  - done.
  - exact D.
  - exact A.
  - exact K.
Qed.


(** X19. One iteration of the cleanup loop, in a state where graph and
    neighbour table agree and the local node is in the graph (or the routing
    table has its three properties). The iteration raises nothing; it
    removes exactly the nodes, other than the local one, that were last seen
    more than [NODE_TIMEOUT] (180 s) before, and keeps the records of all
    others, so the local node is never removed and a node seen exactly
    180 s ago stays. Graph and neighbour table agree afterwards, and the
    routing table has the three properties if it had them before or if a
    node was removed. The statistic [active_nodes] is set to the number of
    nodes left minus the number removed, that is the number of nodes before
    the iteration minus twice the number removed. *)
Theorem cleanup_removes_silent_nodes
    (sp : gmap string (gmap string Q) → string → string → outcome (list string))
    (du : string → list (string * string) → Q → string)
    (current_time : Q) (envs : string → CallEnv) (nows : string → Q)
    (m : MeshNetworkManager) :
  shortest_path_contract sp → graph_wf m →
  node_id m ∈ dom (network_graph m) ∨ table_ok m →
  ∃ m', cleanup_try sp du current_time envs nows m = (Return tt, m')
        ∧ node_id m' = node_id m
        ∧ (∀ k, nodes m' !! k
                = match nodes m !! k with
                  | Some n =>
                    if is_inactive current_time (node_id m) (k, n) then None else Some n
                  | None => None
                  end)
        ∧ nodes m' !! node_id m = nodes m !! node_id m
        ∧ graph_wf m'
        ∧ (table_ok m ∨ inactive_nodes current_time m ≠ [] → table_ok m')
        ∧ active_nodes (stats m')
          = (Z.of_nat (size (nodes m))
             - 2 * Z.of_nat (length (inactive_nodes current_time m)))%Z.
Proof.
  intros Hc Hwf Hor.
  destruct (cleanup_removes_silent_nodes_aux sp du current_time envs nows m Hc Hwf Hor)
    as (m' & E & I & N & Ns & W & T & S & A & _).
  exists m'. split; [done |]. split; [done |]. split; [done |]. split; [done |].
  split; [done |]. split; [done |]. rewrite A. lia.
Qed.

(** ** Rebuilding the routing table *)

Lemma rebuilt_table
    (sp : gmap string (gmap string Q) → string → string → outcome (list string))
    (du : string → list (string * string) → Q → string)
    (env : CallEnv) (now : Q) (m : MeshNetworkManager) :
  shortest_path_contract sp → graph_wf m → node_id m ∈ dom (network_graph m) →
  build_routes sp (network_graph m) (node_id m) (map fst (map_to_list (nodes m))) ∅
  = Return (routing_table (_update_routing_table sp du env now m)).
Proof.
  intros Hc Hwf Hself.
  destruct (update_routing_table_fields sp du env now m) as (_ & _ & _ & F4).
  destruct (build_routes_total sp (network_graph m) (node_id m)
              (map fst (map_to_list (nodes m))) Hc Hself)
    with (acc := ∅ : gmap string string) as [new Hnew].
  { intros k Hk. apply list_elem_of_fmap in Hk as ([k' n] & -> & Hk).
    apply elem_of_map_to_list in Hk. destruct Hwf as (_ & W3 & _).
    apply W3. cbn. eauto. }
  rewrite Hnew in F4 |- *. by rewrite F4.
Qed.

(** X20. A rebuild of the routing table forgets what was learned from
    ROUTE_UPDATE messages. With the local node in the graph, the table
    after [_update_routing_table] is computed from the local graph and the
    neighbour table alone: it is the same whatever the table held before,
    and in particular the same with or without a route update handled just
    before. *)
Theorem rebuild_drops_learned_routes
    (sp : gmap string (gmap string Q) → string → string → outcome (list string))
    (du : string → list (string * string) → Q → string)
    (env : CallEnv) (now : Q) (m : MeshNetworkManager) :
  shortest_path_contract sp → graph_wf m → node_id m ∈ dom (network_graph m) →
  (∀ t, routing_table (_update_routing_table sp du env now (with_routing_table t m))
        = routing_table (_update_routing_table sp du env now m))
  ∧ (∀ sender routes,
       routing_table
         (_update_routing_table sp du env now (_handle_route_update sender routes m).2)
       = routing_table (_update_routing_table sp du env now m)).
Proof.
  intros Hc Hwf Hself.
  assert (Hgen : ∀ m', node_id m' = node_id m → nodes m' = nodes m →
                       network_graph m' = network_graph m →
                       routing_table (_update_routing_table sp du env now m')
                       = routing_table (_update_routing_table sp du env now m)).
  { intros m' E1 E2 E3.
    pose proof (rebuilt_table sp du env now m Hc Hwf Hself) as R.
    pose proof (rebuilt_table sp du env now m' Hc) as R'.
    rewrite E1, E2, E3 in R'. rewrite R in R'.
    assert (Return (routing_table (_update_routing_table sp du env now m))
            = Return (routing_table (_update_routing_table sp du env now m'))) as [= ->].
    { apply R'; [| done]. by apply (graph_wf_fields m). }
    done. }
  split.
  - intros t. by apply Hgen.
  - intros sender routes. unfold _handle_route_update.
    destruct (nodes m !! sender); [| done].
    destruct (merge_routes_self sender routes m) as (H1 & H2 & H3 & _).
    by apply Hgen.
Qed.

(** ** Heartbeats *)

Lemma heartbeat_nodes_dom (now : Q) (sender : string) (m : MeshNetworkManager) :
  ∀ k, is_Some (nodes (_handle_heartbeat now sender m) !! k) ↔ is_Some (nodes m !! k).
Proof.
  intros k. unfold _handle_heartbeat.
  destruct (nodes m !! sender) as [n|] eqn:En; [| done]. cbn.
  destruct (decide (sender = k)) as [<- | Hne].
  - rewrite lookup_insert_eq, En. split; eauto.
  - by rewrite lookup_insert_ne.
Qed.

Lemma heartbeat_fields (now : Q) (sender : string) (m : MeshNetworkManager) :
  node_id (_handle_heartbeat now sender m) = node_id m
  ∧ network_graph (_handle_heartbeat now sender m) = network_graph m
  ∧ routing_table (_handle_heartbeat now sender m) = routing_table m.
Proof. unfold _handle_heartbeat. by destruct (nodes m !! sender). Qed.

Lemma heartbeat_graph_wf (now : Q) (sender : string) (m : MeshNetworkManager) :
  graph_wf m → graph_wf (_handle_heartbeat now sender m).
Proof.
  intros (W1 & W3 & Wsym & Wirr).
  destruct (heartbeat_fields now sender m) as (F1 & F2 & _).
  unfold graph_wf. rewrite F1, F2. split_and!; try done.
  - intros k Hk. destruct (W1 k Hk) as [? | ?]; [by left | right].
    by apply heartbeat_nodes_dom.
  - intros k Hk. apply W3. by apply heartbeat_nodes_dom in Hk.
Qed.

Lemma heartbeat_table_ok (now : Q) (sender : string) (m : MeshNetworkManager) :
  table_ok m → table_ok (_handle_heartbeat now sender m).
Proof.
  intros (T1 & T2 & T3).
  destruct (heartbeat_fields now sender m) as (F1 & F2 & F3).
  unfold table_ok. rewrite F1, F2, F3. split_and!; try done.
  intros k v Hk. apply heartbeat_nodes_dom. by apply (T2 k v).
Qed.

(** X21. A HEARTBEAT keeps a known node for [NODE_TIMEOUT] seconds: after
    a heartbeat of a known node was handled at time [now], an iteration of
    the cleanup loop that reads a clock value at most 180 s later does not
    remove the node, and its record carries [now] as the time it was last
    seen. *)
Theorem heartbeat_protects_from_cleanup
    (sp : gmap string (gmap string Q) → string → string → outcome (list string))
    (du : string → list (string * string) → Q → string)
    (now : Q) (sender : string) (current_time : Q) (envs : string → CallEnv)
    (nows : string → Q) (m : MeshNetworkManager) :
  shortest_path_contract sp → graph_wf m →
  node_id m ∈ dom (network_graph m) ∨ table_ok m →
  is_Some (nodes m !! sender) →
  (current_time - now <= NODE_TIMEOUT)%Q →
  ∃ m' n,
    cleanup_try sp du current_time envs nows (_handle_heartbeat now sender m)
    = (Return tt, m')
    ∧ nodes m' !! sender = Some n ∧ last_seen n = now.
Proof.
  intros Hc Hwf Hor [n0 Hn0] Hage.
  destruct (heartbeat_fields now sender m) as (F1 & F2 & _).
  destruct (cleanup_removes_silent_nodes_aux sp du current_time envs nows
              (_handle_heartbeat now sender m) Hc)
    as (m' & E & _ & N & _).
  { by apply heartbeat_graph_wf. }
  { destruct Hor as [? | ?]; [left; by rewrite F1, F2 | right; by apply heartbeat_table_ok]. }
  assert (Hhb : ∃ n, nodes (_handle_heartbeat now sender m) !! sender = Some n
                     ∧ last_seen n = now).
  { unfold _handle_heartbeat. rewrite Hn0. cbn [nodes with_nodes].
    rewrite lookup_insert_eq. eauto. }
  destruct Hhb as (n & Hn & Hls).
  specialize (N sender). rewrite Hn in N.
  unfold is_inactive in N. cbn [snd] in N. rewrite Hls in N.
  apply Qle_bool_iff in Hage. rewrite Hage in N. cbn in N.
  exists m', n. done.
Qed.

(** ** The graph of a running node *)

Lemma mesh_inv_fields (m m' : MeshNetworkManager) :
  node_id m' = node_id m → nodes m' = nodes m →
  network_graph m' = network_graph m → mesh_inv m → mesh_inv m'.
Proof. unfold mesh_inv, graph_wf, graph_star, neighbours_linked. by intros -> -> ->. Qed.

Lemma handle_data_fields (dd : DataMsg → string) (env : CallEnv) (data : DataMsg)
    (m : MeshNetworkManager) :
  node_id (_handle_data dd env data m).2 = node_id m
  ∧ nodes (_handle_data dd env data m).2 = nodes m
  ∧ network_graph (_handle_data dd env data m).2 = network_graph m
  ∧ routing_table (_handle_data dd env data m).2 = routing_table m.
Proof.
  unfold _handle_data.
  destruct (String.eqb _ _); [done |].
  destruct (String.eqb _ _); [| done].
  destruct (routing_table m !! d_destination data); [| done].
  by destruct (send_message _ _ _ _) as [[?|?] ?].
Qed.

Lemma mesh_send_fields (dd : DataMsg → string) (env : CallEnv)
    (destination message : string) (priority : MessagePriority)
    (m : MeshNetworkManager) :
  node_id (mesh_send_message dd env destination message priority m).2 = node_id m
  ∧ nodes (mesh_send_message dd env destination message priority m).2 = nodes m
  ∧ network_graph (mesh_send_message dd env destination message priority m).2
    = network_graph m
  ∧ routing_table (mesh_send_message dd env destination message priority m).2
    = routing_table m.
Proof.
  unfold mesh_send_message.
  destruct (routing_table m !! destination); [| done].
  by destruct (send_message _ _ _ _) as [[?|?] ?].
Qed.

Lemma mesh_inv_discovery
    (sp : gmap string (gmap string Q) → string → string → outcome (list string))
    (du : string → list (string * string) → Q → string)
    (env : CallEnv) (now : Q) (sender : string) (gateway : bool) (battery : Q)
    (m : MeshNetworkManager) :
  shortest_path_contract sp → mesh_inv m →
  mesh_inv (_handle_discovery sp du env now sender gateway battery m).
Proof.
  intros Hc (Hwf & Hself & Hknown & Hstar & Hlink).
  destruct (decide (sender = node_id m)) as [-> | Hne].
  { unfold _handle_discovery. by rewrite String.eqb_refl. }
  destruct (handle_discovery_ok sp du env now sender gateway battery m Hc Hwf
              (or_introl Hself)) as [Hwf' _].
  destruct (handle_discovery_fields sp du env now sender gateway battery m Hne)
    as (F1 & F2 & F3 & _).
  split_and!; try done.
  - rewrite F1, F3. apply add_edge_dom. by left.
  - rewrite F1, F2. rewrite lookup_insert_ne by done. done.
  - intros u v Huv. unfold adjacent in Huv. rewrite F3 in Huv. rewrite F1.
    apply add_edge_adj in Huv; [| congruence].
    destruct Huv as [[-> _] | [[_ ->] | Huv]]; [by left | by right |].
    rewrite add_node_adj in Huv. by apply Hstar.
  - intros k Hk Hks. rewrite F1 in Hks |- *. unfold adjacent. rewrite F3.
    apply add_edge_adj; [congruence |].
    destruct (decide (k = sender)) as [-> | Hkn]; [by left |].
    right. right. rewrite add_node_adj. apply Hlink; [| done].
    rewrite F2, lookup_insert_ne in Hk by done. done.
Qed.

Lemma mesh_inv_cleanup
    (sp : gmap string (gmap string Q) → string → string → outcome (list string))
    (du : string → list (string * string) → Q → string)
    (current_time : Q) (envs : string → CallEnv) (nows : string → Q)
    (m : MeshNetworkManager) :
  shortest_path_contract sp → mesh_inv m →
  mesh_inv (_cleanup_loop sp du current_time envs nows m).
Proof.
  intros Hc (Hwf & Hself & Hknown & Hstar & Hlink).
  destruct (cleanup_removes_silent_nodes_aux sp du current_time envs nows m Hc Hwf
              (or_introl Hself))
    as (m' & E & I & N & Ns & W & _ & _ & _ & D & A & K).
  unfold _cleanup_loop. rewrite E. cbn [snd].
  assert (Hkept : ∀ k, is_Some (nodes m' !! k) →
                       is_Some (nodes m !! k) ∧ k ∉ inactive_nodes current_time m).
  { intros k Hk. rewrite N in Hk.
    destruct (nodes m !! k) as [n|] eqn:En; [| by destruct Hk].
    split; [eauto |]. intros Hin.
    apply elem_of_inactive_nodes in Hin as (n' & En' & Hf).
    rewrite En in En'. injection En' as <-. rewrite Hf in Hk. by destruct Hk. }
  split; [done |]. split; [by apply D |]. split; [by rewrite I, Ns |]. split.
  - intros u v Huv. rewrite I. by apply Hstar, A.
  - intros k Hk Hks. rewrite I in Hks |- *.
    destruct (Hkept k Hk) as [Hk0 Hkn].
    apply K; [| done | by apply Hlink].
    apply (Hkept (node_id m)). by rewrite Ns.
Qed.

Lemma mesh_inv_start
    (sp : gmap string (gmap string Q) → string → string → outcome (list string))
    (du : string → list (string * string) → Q → string)
    (env : CallEnv) (now now_u : Q) (id : string) (gw : bool) :
  shortest_path_contract sp →
  mesh_inv (mesh_start sp du env now now_u (init_mesh id gw)).
Proof.
  intros Hc. unfold mesh_start.
  set (node := {| n_id := node_id (init_mesh id gw) |}).
  assert (Hwf0 : graph_wf (init_mesh id gw)).
  { split_and!; cbn.
    - intros k Hk. by apply elem_of_dom in Hk as [? Hk].
    - intros k [? Hk]. by rewrite lookup_empty in Hk.
    - intros u v [? Huv]. by rewrite lookup_empty in Huv.
    - intros u. by rewrite lookup_empty. }
  assert (Hok0 : table_ok (init_mesh id gw)).
  { split_and!; cbn; [done | |]; intros k v Hk; by rewrite lookup_empty in Hk. }
  destruct (register_node_ok sp du env now_u id node (init_mesh id gw) Hc Hwf0
              (or_intror Hok0)) as [Hwf _].
  destruct (register_node_fields sp du env now_u id node (init_mesh id gw))
    as (F1 & F2 & F3).
  change (node_id (init_mesh id gw)) with id.
  split_and!; try done.
  - rewrite F1, F3. apply add_node_dom. by left.
  - rewrite F1, F2. cbn. rewrite lookup_insert_eq. eauto.
  - intros u v Huv. unfold adjacent in Huv. rewrite F3, add_node_adj in Huv.
    cbn in Huv. rewrite lookup_empty in Huv. by destruct Huv.
  - intros k Hk Hks. rewrite F1 in Hks. rewrite F2 in Hk. cbn in Hk.
    rewrite lookup_insert_ne in Hk by done. rewrite lookup_empty in Hk. by destruct Hk.
Qed.

(** X22. At a node that was started, whatever messages are handled
    afterwards (DISCOVERY, HEARTBEAT, ROUTE_UPDATE, DATA), whatever is
    submitted, cleaned up or done by the link layer, the graph keeps its
    shape: graph and neighbour table agree, the local node is a known node
    of the graph, every edge has the local node at one end, and every other
    known node is a neighbour of the local node. Edges are only added
    between the local node and the sender of a DISCOVERY, and only removed
    together with a node. *)
Theorem reachable_graph_is_star
    (sp : gmap string (gmap string Q) → string → string → outcome (list string))
    (dd : DataMsg → string)
    (du : string → list (string * string) → Q → string)
    (env : CallEnv) (now now_u : Q) (id : string) (gw : bool) (ops : list MeshOp) :
  shortest_path_contract sp →
  mesh_inv (run_mesh sp dd du ops (mesh_start sp du env now now_u (init_mesh id gw))).
Proof.
  intros Hc.
  assert (Hgen : ∀ m, mesh_inv m → mesh_inv (run_mesh sp dd du ops m)).
  { induction ops as [|op ops IH]; intros m Hm; [done |].
    unfold run_mesh. cbn [foldl]. apply IH.
    destruct op as [e n s g b | n s | s r | e d | e d msg p | t es ns | lop];
      cbn [run_mesh_op].
    - by apply mesh_inv_discovery.
    - destruct (heartbeat_fields n s m) as (F1 & F2 & _).
      destruct Hm as (Hwf & Hself & Hknown & Hstar & Hlink).
      split; [by apply heartbeat_graph_wf |]. split; [by rewrite F1, F2 |].
      split; [rewrite F1; by apply heartbeat_nodes_dom |]. split.
      + intros u v Huv. rewrite F1. apply Hstar. unfold adjacent in *. by rewrite F2 in Huv.
      + intros k Hk Hks. rewrite F1 in Hks |- *. unfold adjacent. rewrite F2.
        apply Hlink; [by apply heartbeat_nodes_dom in Hk | done].
    - unfold _handle_route_update. destruct (nodes m !! s); [| done].
      destruct (merge_routes_self s r m) as (H1 & H2 & H3 & _).
      by apply (mesh_inv_fields m).
    - destruct (handle_data_fields dd e d m) as (H1 & H2 & H3 & _).
      by apply (mesh_inv_fields m).
    - destruct (mesh_send_fields dd e d msg p m) as (H1 & H2 & H3 & _).
      by apply (mesh_inv_fields m).
    - by apply mesh_inv_cleanup.
    - by apply (mesh_inv_fields m). }
  apply Hgen. by apply mesh_inv_start.
Qed.

(** ** Routes computed from the local graph *)

Lemma simple_paths_NoDup (fuel : nat) :
  ∀ (G : gmap string (gmap string Q)) (visited : gset string) u t pc,
    u ∈ visited → pc ∈ simple_paths fuel G visited u t →
    NoDup pc.1 ∧ ∀ x, x ∈ pc.1 → x = u ∨ x ∉ visited.
Proof.
  induction fuel as [|fuel IH]; intros G visited u t pc Hu; cbn [simple_paths].
  - destruct (decide (u = t)) as [-> | _]; [| by intros ?%elem_of_nil].
    intros ->%list_elem_of_singleton. cbn. split; [apply NoDup_singleton |].
    intros x ->%list_elem_of_singleton. by left.
  - destruct (decide (u = t)) as [-> | _].
    { intros ->%list_elem_of_singleton. cbn. split; [apply NoDup_singleton |].
      intros x ->%list_elem_of_singleton. by left. }
    intros Hpc. apply list_elem_of_In, in_concat in Hpc as (l & Hl & Hpc).
    apply list_elem_of_In, list_elem_of_fmap in Hl as ([v w] & -> & Hvw).
    apply list_elem_of_In in Hpc. cbn [fst snd] in Hpc.
    destruct (decide (v ∈ visited)) as [? | Hv]; [by apply elem_of_nil in Hpc |].
    apply list_elem_of_fmap in Hpc as ([p c] & -> & Hp).
    apply IH in Hp as (Hnd & Hin); [| apply elem_of_union_r; by apply elem_of_singleton].
    cbn [fst snd] in *. split.
    + apply NoDup_cons. split; [| done]. intros Hup.
      destruct (Hin u Hup) as [-> | Hnot]; [done |].
      apply Hnot. by apply elem_of_union_l.
    + intros x [-> | Hx]%elem_of_cons; [by left | right].
      destruct (Hin x Hx) as [-> | Hnot]; [done |].
      intros Hxv. apply Hnot. by apply elem_of_union_l.
Qed.

(** The reference implementation returns simple paths. *)
Lemma least_weight_path_simple : shortest_path_simple least_weight_path.
Proof.
  intros G s t p. unfold least_weight_path.
  destruct (decide (s ∈ dom G ∧ t ∈ dom G)) as [Hin | Hout]; [| done].
  destruct (min_path _) as [pc|] eqn:E; [| done].
  intros [= <-]. apply min_path_elem in E.
  apply simple_paths_NoDup in E as [? _]; [done | by apply elem_of_singleton].
Qed.

(** X23. The routes a node computes from its own graph are direct. In a
    state of a running node (every edge has the local node at one end), with
    [nx.shortest_path] returning simple paths, every entry that a rebuild
    of the routing table writes has the destination itself as next hop, and
    the destination is a neighbour of the local node: entries through
    another node come from ROUTE_UPDATE messages only. *)
Theorem local_routes_are_direct
    (sp : gmap string (gmap string Q) → string → string → outcome (list string))
    (du : string → list (string * string) → Q → string)
    (env : CallEnv) (now : Q) (m : MeshNetworkManager) :
  shortest_path_contract sp → shortest_path_simple sp → mesh_inv m →
  ∀ k v, routing_table (_update_routing_table sp du env now m) !! k = Some v →
         v = k ∧ adjacent (network_graph m) (node_id m) k.
Proof.
  intros Hc Hs (Hwf & Hself & _ & Hstar & _) k v Hk.
  pose proof (rebuilt_table sp du env now m Hc Hwf Hself) as Hb.
  destruct (build_routes_lookup sp _ _ _ _ _ Hb k v Hk)
    as [Hemp | (Hne & p & Hsp & _ & H1)]; [by rewrite lookup_empty in Hemp |].
  pose proof (Hs _ _ _ _ Hsp) as Hnd.
  pose proof (Hc (network_graph m) (node_id m) k) as Hcon.
  rewrite Hsp in Hcon. destruct Hcon as (Hh & Hl & Hw).
  destruct p as [|a [|b rest]]; [done | done |].
  cbn in Hh, H1. injection Hh as ->. injection H1 as ->.
  destruct Hw as [Hav Hw].
  destruct rest as [|c rest].
  - cbn in Hl. injection Hl as ->. done.
  - exfalso. destruct Hw as [Hvc _].
    apply NoDup_cons in Hnd as [Hs1 Hnd].
    destruct (Hstar v c Hvc) as [-> | ->].
    + apply Hs1. left.
    + apply Hs1. right. left.
Qed.

(** ** Sending and forwarding an envelope of one fragment *)





(** ** The hop guard of route updates *)

(** X26. At a running node the hop guard of [_handle_route_update] never
    rejects anything. Every known node is the local node or one of its
    neighbours, so [shortest_path_length] to the sender of a ROUTE_UPDATE
    returns 0 or 1, which is below [MAX_HOPS]: the handler returns, and
    every advertised pair whose destination is not the local node is
    written into the routing table, later pairs over earlier ones. *)
Theorem route_update_guard_never_rejects
    (sender : string) (routes : list (string * string)) (m : MeshNetworkManager) :
  mesh_inv m → is_Some (nodes m !! sender) →
  ∃ m' d,
    shortest_path_length (network_graph m) (node_id m) sender = Return d ∧ d ≤ 1
    ∧ _handle_route_update sender routes m = (Return tt, m')
    ∧ routing_table m' = merged_table (node_id m) routes (routing_table m).
Proof.
  intros (Hwf & Hself & Hknown & Hstar & Hlink) Hs.
  pose proof (graph_wf_adjacency_closed m Hwf) as Hclosed.
  assert (Hin : sender ∈ dom (network_graph m)) by (by apply Hwf).
  assert (Hhops : ∃ n, n ≤ 1 ∧ hops (network_graph m) (node_id m) n sender).
  { destruct (decide (sender = node_id m)) as [-> | Hne].
    - exists 0. split; [lia | constructor].
    - exists 1. split; [lia |]. apply (hops_S _ _ 0 (node_id m)); [constructor |].
      by apply Hlink. }
  destruct Hhops as (n & Hn & Hh).
  destruct (shortest_path_length_complete _ _ _ _ Hclosed Hself Hin Hh) as [d Hd].
  pose proof (shortest_path_length_correct _ _ _ _ Hd) as [_ Hmin].
  apply Hmin in Hh.
  destruct (handle_route_update_table sender routes m d Hs Hd)
    as (m' & E & _ & _ & Ht).
  exists m', d. split; [done |]. split; [lia |]. split; [done |].
  rewrite Ht. destruct (Nat.ltb_spec d MAX_HOPS) as [_ | Hge]; [done |].
  unfold MAX_HOPS in Hge. lia.
Qed.

(** ** The theorems of the mesh layer at node A of the star *)

Lemma m_star_self_in_graph : node_id m_star ∈ dom (network_graph m_star).
Proof. apply elem_of_dom. vm_compute. eauto. Qed.

Lemma m_star_inv : mesh_inv m_star.
Proof.
  split_and!.
  - exact m_star_wf.
  - exact m_star_self_in_graph.
  - vm_compute. eauto.
  - intros u v Huv. apply m_star_adj in Huv.
    destruct Huv as [[-> ->] | [[-> ->] | [[-> ->] | [-> ->]]]];
      [by left | by right | by left | by right].
  - intros k Hk Hks. apply m_star_adj.
    destruct m_star_wf as (W1 & W3 & _). apply W3 in Hk.
    cbn [network_graph m_star m_tie with_routing_table] in Hk.
    rewrite !add_edge_dom, add_node_dom, dom_empty_L in Hk.
    destruct Hk as [-> | [-> | [-> | [-> | [-> | Hk]]]]]; try done; eauto 6.
Qed.

Lemma route_update_guard_never_rejects_witness :
  ∃ m' d,
    shortest_path_length (network_graph m_star) (node_id m_star) "X" = Return d ∧ d ≤ 1
    ∧ _handle_route_update "X" [("D", "Y")]%string m_star = (Return tt, m')
    ∧ routing_table m'
      = merged_table (node_id m_star) [("D", "Y")]%string (routing_table m_star).
Proof.
  apply (route_update_guard_never_rejects "X" [("D", "Y")]%string m_star).
  - exact m_star_inv.
  - vm_compute. eauto.
Defined.

Lemma handle_discovery_registers_witness :
  graph_wf (_handle_discovery least_weight_path update_text (env_of "u1") 5 "N" false 1
              m_star)
  ∧ table_ok (_handle_discovery least_weight_path update_text (env_of "u1") 5 "N" false 1
                m_star).
Proof.
  pose proof (handle_discovery_registers least_weight_path update_text (env_of "u1") 5
                "N" false 1 m_star least_weight_path_contract m_star_wf m_star_ok) as H.
  cbv zeta in H. destruct H as (_ & _ & _ & _ & _ & H); [discriminate | exact H].
Defined.

Lemma first_discovery_gives_no_route_witness :
  routing_table (_handle_discovery least_weight_path update_text (env_of "u1") 5 "N"
                   false 1 m_star) !! "N"%string = None.
Proof.
  pose proof (first_discovery_gives_no_route least_weight_path update_text (env_of "u1") 5
                "N" false 1 m_star least_weight_path_contract m_star_wf m_star_ok) as H.
  cbv zeta in H. destruct H as (_ & _ & H); [discriminate | | exact H].
  apply not_elem_of_dom. vm_compute. reflexivity.
Defined.

Lemma cleanup_removes_silent_nodes_witness :
  ∃ m', cleanup_try least_weight_path update_text 200 env_of (λ _, 200%Q) m_star
        = (Return tt, m')
        ∧ active_nodes (stats m') = (-1)%Z.
Proof.
  destruct (cleanup_removes_silent_nodes least_weight_path update_text 200
              env_of (λ _, 200%Q) m_star least_weight_path_contract m_star_wf
              (or_intror m_star_ok))
    as (m' & E & _ & _ & _ & _ & _ & A).
  exists m'. split; [exact E |]. rewrite A. vm_compute. reflexivity.
Defined.

Lemma heartbeat_protects_from_cleanup_witness :
  ∃ m' n,
    cleanup_try least_weight_path update_text 200 env_of (λ _, 200%Q)
      (_handle_heartbeat 100 "X" m_star)
    = (Return tt, m')
    ∧ nodes m' !! "X"%string = Some n ∧ last_seen n = 100%Q.
Proof.
  apply (heartbeat_protects_from_cleanup least_weight_path update_text 100 "X" 200
           env_of (λ _, 200%Q) m_star).
  - exact least_weight_path_contract.
  - exact m_star_wf.
  - right. exact m_star_ok.
  - vm_compute. eauto.
  - by vm_compute.
Defined.

Lemma rebuild_drops_learned_routes_witness :
  routing_table
    (_update_routing_table least_weight_path update_text (env_of "u1") 1
       (_handle_route_update "X" [("D", "Y")]%string m_star).2)
  = routing_table (_update_routing_table least_weight_path update_text (env_of "u1") 1 m_star).
Proof.
  apply (rebuild_drops_learned_routes least_weight_path update_text (env_of "u1") 1 m_star).
  - exact least_weight_path_contract.
  - exact m_star_wf.
  - exact m_star_self_in_graph.
Defined.

Lemma reachable_graph_is_star_witness :
  mesh_inv
    (run_mesh least_weight_path json_data update_text
       [MDiscovery (env_of "u1") 5 "N" false 1;
        MRouteUpdate "N" [("D", "Y")]%string;
        MCleanup 300 env_of (λ _, 300%Q)]
       (mesh_start least_weight_path update_text (env_of "u0") 0 0 (init_mesh "A" true))).
Proof.
  apply (reachable_graph_is_star least_weight_path json_data update_text (env_of "u0") 0 0
           "A" true).
  exact least_weight_path_contract.
Defined.

Lemma local_routes_are_direct_witness :
  "B"%string = "B"%string ∧ adjacent (network_graph m_star) (node_id m_star) "B".
Proof.
  apply (local_routes_are_direct least_weight_path update_text (env_of "u1") 1 m_star).
  - exact least_weight_path_contract.
  - exact least_weight_path_simple.
  - exact m_star_inv.
  - vm_compute. reflexivity.
Defined.

(** * Configuration look-ups *)

Lemma has_dot_cons (c : Ascii.ascii) (k : string) :
  has_dot (String c k) = Ascii.eqb c dot || has_dot k.
Proof. reflexivity. Qed.

Lemma split_dot_app (k r : string) :
  has_dot k = false → split_dot (k +:+ String dot r) = k :: split_dot r.
Proof.
  induction k as [|c k IH]; intros Hk.
  - reflexivity.
  - rewrite has_dot_cons in Hk. apply orb_false_iff in Hk as [Hc Hk].
    change (String c k +:+ String dot r) with (String c (k +:+ String dot r)).
    cbn [split_dot]. rewrite Hc, (IH Hk). reflexivity.
Qed.

Lemma split_dot_no_dot (k : string) : has_dot k = false → split_dot k = [k].
Proof.
  induction k as [|c k IH]; intros Hk; [reflexivity |].
  rewrite has_dot_cons in Hk. apply orb_false_iff in Hk as [Hc Hk].
  cbn [split_dot]. rewrite Hc, (IH Hk). reflexivity.
Qed.

Lemma split_dot_concat (ks : list string) :
  ks ≠ [] → Forall (λ k, has_dot k = false) ks →
  split_dot (String.concat (String dot EmptyString) ks) = ks.
Proof.
  induction ks as [|k ks IH]; intros Hne Hall; [done |].
  apply Forall_cons in Hall as [Hk Hall].
  destruct ks as [|k' ks].
  - cbn. by apply split_dot_no_dot.
  - change (String.concat (String dot EmptyString) (k :: k' :: ks))
      with (k +:+ String dot (String.concat (String dot EmptyString) (k' :: ks))).
    rewrite split_dot_app by done. f_equal. by apply IH.
Qed.

Lemma walk_raises (config : cfg) (ks : list string) (e : exn) :
  ConfigManager.walk config ks = Raise e → e = KeyError ∨ e = TypeError.
Proof.
  revert config. induction ks as [|k ks IH]; intros config; cbn; [done |].
  destruct config as [| | | | | |d]; cbn; try (intros [= <-]; by right).
  destruct (od_get k d) as [v|]; [apply IH | intros [= <-]; by left].
Qed.

(** X27. [ConfigManager.get] reads a dotted key as a path through nested
    mappings: for key parts without a dot, the key made by joining them with
    dots gives the value found by indexing the configuration with the parts
    one after the other, and the default when a part is missing or a value
    on the way is no mapping. The call never raises. *)
Theorem config_get_resolves_path (config : cfg) (ks : list string) (default : cfg) :
  ks ≠ [] → Forall (λ k, has_dot k = false) ks →
  ConfigManager.get config (String.concat (String dot EmptyString) ks) default
  = Return match ConfigManager.walk config ks with
           | Return value => value
           | Raise _ => default
           end.
Proof.
  intros Hne Hall. unfold ConfigManager.get. rewrite (split_dot_concat ks Hne Hall).
  destruct (ConfigManager.walk config ks) as [v|e] eqn:E; [done |].
  by destruct (walk_raises _ _ _ E) as [-> | ->].
Qed.

Lemma config_get_resolves_path_witness :
  ConfigManager.get (CDict (default_config true "/dev/ttyUSB1" 9600))
    "hardware.lora.port" (CStr "/dev/ttyUSB0")
  = Return (CStr "/dev/ttyUSB1").
Proof.
  apply (config_get_resolves_path (CDict (default_config true "/dev/ttyUSB1" 9600))
           ["hardware"; "lora"; "port"]%string (CStr "/dev/ttyUSB0")).
  - discriminate.
  - by repeat constructor.
Defined.

Lemma dict_get_dotted (key : string) (d : list (string * cfg)) :
  has_dot key = true → Forall (λ kv, has_dot (fst kv) = false) d →
  dict_get key d = CNone.
Proof.
  intros Hkey Hall. unfold dict_get.
  destruct (od_get key d) as [v|] eqn:E; [exfalso | done].
  induction d as [|[k0 v0] d IH]; [done |].
  apply Forall_cons in Hall as [Hk0 Hall]. cbn [od_get] in E. cbn [fst] in Hk0.
  destruct (String.eqb_spec k0 key) as [-> | _]; [congruence | by apply IH].
Qed.

(** X28. The observer of the link handler looks the two settings up with
    [dict.get] under the dotted names [hardware.lora.port] and
    [hardware.lora.baud_rate], on the nested configuration that
    [ConfigManager] passes to its observers. When no top-level key of the
    configuration contains a dot (the layout that [ConfigManager.get] reads
    and [_create_default_config] writes), both look-ups give [None] and
    [_handle_config_change] does nothing: the handler is neither stopped nor
    reconfigured, whatever port and baud rate the new configuration holds. *)
Theorem config_change_ignores_nested_keys
    (set_port_ok set_baud_ok : cfg → bool) (port : string) (baudrate : Z)
    (new_config : list (string * cfg)) :
  Forall (λ kv, has_dot (fst kv) = false) new_config →
  _handle_config_change set_port_ok set_baud_ok port baudrate new_config = [].
Proof.
  intros Hall. unfold _handle_config_change.
  rewrite !dict_get_dotted by done. reflexivity.
Qed.

Lemma config_change_ignores_nested_keys_witness :
  _handle_config_change (λ _, true) (λ _, true) "/dev/ttyUSB0" 115200
    (default_config true "/dev/ttyUSB1" 9600) = [].
Proof.
  apply (config_change_ignores_nested_keys (λ _, true) (λ _, true) "/dev/ttyUSB0" 115200
           (default_config true "/dev/ttyUSB1" 9600)).
  by repeat constructor.
Defined.

(** * Long messages on the sender side *)

(** X29. What happens to a message of more than 210 bytes submitted on an
    idle sender. [send_message] raises [TypeError], yet the first two
    fragments are queued, and the next two iterations of the sender loop
    (the second one before the tracker of the first times out) write
    exactly these two frames, in order, and leave the queues empty. So a
    message of 211 to 420 bytes is transmitted completely although its
    submission raised, and of a longer message only the first two fragments
    are ever transmitted. *)
Theorem long_message_two_frames_sent
    (env : CallEnv) (message : string) (priority : MessagePriority)
    (it1 it2 : IterEnv) (h : LoRaProtocolHandler) :
  210 < length (str_encode message) →
  queues_idle h → pending_acks h = [] →
  radio_ok it1 = true → radio_ok it2 = true →
  timed_out (sweep_now it2) (tx_now it1) = false →
  let f0 := fragment_at (env_clock env) (env_id env) message 0 in
  let f1 := fragment_at (env_clock env) (env_id env) message 1 in
  let h3 := _send_loop it2 (_send_loop it1 (send_message env message priority h).2) in
  (send_message env message priority h).1 = Raise TypeError
  ∧ serial_out h3 = serial_out h ++ [frame_of f0; frame_of f1]
  ∧ queues_idle h3
  ∧ pending_acks h3 = [(env_id env, tx_now it2)]
  ∧ (length (str_encode message) ≤ 420 →
     map frame_of (_fragment_message (env_clock env) (env_id env) message)
     = [frame_of f0; frame_of f1]).
Proof.
  intros Hn Hidle Hpend Hr1 Hr2 Hto f0 f1 h3.
  assert (Hcnt : 2 ≤ fragment_count message).
  { apply fragment_count_ge_2. change (MAX_PACKET_SIZE - HEADER_SIZE) with 210. lia. }
  assert (Hsend : send_message env message priority h
                  = (Raise TypeError,
                     with_queue priority [(value priority, f0); (value priority, f1)]
                       (with_message_buffer (<[env_id env := message]> (message_buffer h))
                          h))).
  { unfold send_message. rewrite fragment_message_unfold.
    destruct (fragment_count message) as [|[|c]] eqn:Ec; [lia | lia |].
    cbn [seq map put_fragments].
    replace (queue_of priority (send_queue (with_message_buffer _ h))) with ([] : list item)
      by (symmetry; apply Hidle).
    rewrite put_empty. rewrite queue_of_with_queue.
    rewrite put_nonempty_raises; [| done |].
    - pose proof (Hidle HIGH) as Hh. pose proof (Hidle MEDIUM) as Hm.
      pose proof (Hidle LOW) as Hl.
      destruct h as [[qh qm ql] rq so pa rf mb ss]. cbn in Hh, Hm, Hl. subst.
      by destruct priority.
    - constructor; [| constructor]. split; [reflexivity |].
      apply packet_eqb_fragment_id. cbn. lia. }
  split; [by rewrite Hsend |].
  assert (Hh3 : h3 = with_pending_acks [(env_id env, tx_now it2)]
                  (with_serial_out (serial_out h ++ [frame_of f0; frame_of f1])
                     (with_message_buffer (<[env_id env := message]> (message_buffer h))
                        h))).
  { unfold h3. rewrite Hsend. cbn [snd].
    pose proof (Hidle HIGH) as Hh. pose proof (Hidle MEDIUM) as Hm.
    pose proof (Hidle LOW) as Hl.
    destruct h as [[qh qm ql] rq so pa rf mb ss]. cbn in Hh, Hm, Hl, Hpend. subst.
    unfold _send_loop, send_loop_try, _check_pending_acks, _send_packet.
    destruct priority; cbn; rewrite Hr1; cbn; rewrite Hto; cbn; rewrite Hr2; cbn;
      rewrite String.eqb_refl, <- app_assoc; reflexivity. }
  rewrite Hh3. split; [done |]. split; [intros p; apply (Hidle p) |]. split; [done |].
  intros Hle. rewrite fragment_message_unfold.
  assert (Hc2 : fragment_count message = 2).
  { unfold fragment_count. change payload_size with 210.
    replace (length (str_encode message) + 210 - 1)
      with (length (str_encode message) + 209) by lia.
    destruct (fragment_count_bounds (length (str_encode message))). lia. }
  by rewrite Hc2.
Qed.

Lemma long_message_two_frames_sent_witness :
  serial_out
    (_send_loop (iter_env 2)
       (_send_loop (iter_env 1)
          (send_message (env_of "m1") (xs 211) MEDIUM init_handler).2))
  = serial_out init_handler
    ++ [frame_of (fragment_at tick "m1" (xs 211) 0);
        frame_of (fragment_at tick "m1" (xs 211) 1)].
Proof.
  refine (proj1 (proj2 (long_message_two_frames_sent (env_of "m1") (xs 211) MEDIUM
                          (iter_env 1) (iter_env 2) init_handler _ _ _ _ _ _))).
  - vm_compute. lia.
  - by intros [].
  - reflexivity.
  - reflexivity.
  - reflexivity.
  - reflexivity.
Defined.
